(** * Mixture of diffusers: the canvas pipeline of [diffusiontools/canvas.py]

    A shallow embedding of the region classes, of [MaskWeightsBuilder] and of
    the compositing steps of [StableDiffusionCanvasPipeline.__call__],
    together with the properties the specification states about them.

    Conventions of the embedding.
    - A Python [int] is a [Z]; [//] by the positive literal 8 is [Z.div].
    - A Python, numpy or torch float is an [fval]: an exact real number or one
      of the special values NaN, +inf, -inf.  Rounding, overflow and the sign
      of zero are not represented; division by zero and [nan_to_num] are.
    - A 4-dimensional torch tensor is a nested list indexed
      [batch][channel][row][column].
    - Raising an exception is a [Raise] result.  An [assert] is taken to be
      active (the interpreter does not run with [-O]).
    - Operands of an elementwise operation or of a slice assignment must have
      the same shape; the broadcasting of a dimension of size one is not
      represented, and the properties below are stated for regions that lie
      within the canvas, where the shapes coincide.
    - The tokenizer, the text encoder, the image encoder, the image resize,
      the random generator, the denoiser and the scheduler are collaborators
      of the pipeline; they are the variables of the sections below. *)

From Stdlib Require Import Reals Lra Lia ZArith.
From stdpp Require Import gmap strings list.

Local Open Scope Z_scope.

(** ** Exceptions *)

Inductive exn : Type :=
  | ValueError
  | AssertionError
  | KeyError
  | AttributeError
  | RuntimeError.

Inductive result (A : Type) : Type :=
  | Ok (a : A)
  | Raise (e : exn).

Arguments Ok {A} a.
Arguments Raise {A} e.

Definition bind {A B : Type} (m : result A) (k : A -> result B) : result B :=
  match m with
  | Ok a => k a
  | Raise e => Raise e
  end.

Notation "'do' x <- m ; k" := (bind m (fun x => k))
  (at level 10, x name, m at level 100, k at level 200).

Definition is_ok {A : Type} (m : result A) : Prop :=
  match m with Ok _ => True | Raise _ => False end.

(** [mapM f l] runs [f] on the elements of [l] from left to right and stops
    at the first exception. *)
Fixpoint mapM {A B : Type} (f : A -> result B) (l : list A) : result (list B) :=
  match l with
  | [] => Ok []
  | a :: l' => do b <- f a; do bs <- mapM f l'; Ok (b :: bs)
  end.

(** ** Floating-point values *)

Inductive fval : Type :=
  | Fin (r : R)
  | Inf (positive : bool)
  | NaN.

Definition Rltb (x y : R) : bool := if Rlt_dec x y then true else false.
Definition Reqb (x y : R) : bool := if Req_dec_T x y then true else false.

Definition fzero : fval := Fin 0.
Definition fone : fval := Fin 1.
Definition fofZ (z : Z) : fval := Fin (IZR z).

Definition fneg (x : fval) : fval :=
  match x with
  | Fin r => Fin (- r)
  | Inf p => Inf (negb p)
  | NaN => NaN
  end.

Definition fadd (x y : fval) : fval :=
  match x, y with
  | Fin a, Fin b => Fin (a + b)
  | Fin _, Inf p => Inf p
  | Inf p, Fin _ => Inf p
  | Inf p, Inf q => if Bool.eqb p q then Inf p else NaN
  | _, _ => NaN
  end.

Definition fsub (x y : fval) : fval := fadd x (fneg y).

(** Sign of the product or quotient of an infinity of sign [p] with a finite
    non-zero [r]. *)
Definition sign_with (p : bool) (r : R) : bool :=
  if Rltb r 0 then negb p else p.

Definition fmul (x y : fval) : fval :=
  match x, y with
  | Fin a, Fin b => Fin (a * b)
  | Fin a, Inf p => if Reqb a 0 then NaN else Inf (sign_with p a)
  | Inf p, Fin b => if Reqb b 0 then NaN else Inf (sign_with p b)
  | Inf p, Inf q => Inf (Bool.eqb p q)
  | _, _ => NaN
  end.

(** Division as numpy and torch perform it: dividing by zero raises nothing,
    it yields NaN for [0/0] and an infinity otherwise. *)
Definition fdiv (x y : fval) : fval :=
  match x, y with
  | Fin a, Fin b =>
      if Reqb b 0 then
        if Reqb a 0 then NaN else Inf (Rltb 0 a)
      else Fin (a / b)
  | Fin _, Inf _ => Fin 0
  | Inf p, Fin b => Inf (sign_with p b)
  | _, _ => NaN
  end.

Definition fsquare (x : fval) : fval := fmul x x.

Definition fexp (x : fval) : fval :=
  match x with
  | Fin r => Fin (exp r)
  | Inf true => Inf true
  | Inf false => Fin 0
  | NaN => NaN
  end.

Definition fsqrt (x : fval) : fval :=
  match x with
  | Fin r => if Rltb r 0 then NaN else Fin (sqrt r)
  | Inf true => Inf true
  | _ => NaN
  end.

(** Comparison of floats: every comparison with NaN is false. *)
Definition fltb (x y : fval) : bool :=
  match x, y with
  | Fin a, Fin b => Rltb a b
  | Fin _, Inf p => p
  | Inf p, Fin _ => negb p
  | Inf p, Inf q => negb p && q
  | _, _ => false
  end.

(** A float that is a number outside of the closed interval [0, 1]. *)
Definition outside_unit_interval (s : fval) : Prop :=
  match s with
  | Fin r => (r < 0 \/ 1 < r)%R
  | Inf _ => True
  | NaN => False
  end.

(** The largest finite value of the tensor's element type, which
    [torch.nan_to_num] substitutes for the infinities (single precision). *)
Definition float_max : R := (2 - / 2 ^ 23) * 2 ^ 127.

Definition nan_to_num (x : fval) : fval :=
  match x with
  | Fin r => Fin r
  | Inf true => Fin float_max
  | Inf false => Fin (- float_max)
  | NaN => Fin 0
  end.

Definition is_fin (x : fval) : Prop :=
  match x with Fin _ => True | _ => False end.

(** [int(x)] of a Python float: truncation towards zero; NaN and the
    infinities raise. *)
Definition py_int (x : fval) : result Z :=
  match x with
  | Fin r => Ok (if Rltb r 0 then - Int_part (- r) else Int_part r)
  | _ => Raise ValueError
  end.

(** [range(a, b)]. *)
Definition py_range (a b : Z) : list Z := seqZ a (b - a).

(** ** Tensors *)

Abbreviation grid := (list (list fval)).
Abbreviation tensor := (list (list (list (list fval)))).

(** ** [MaskModes] *)

Inductive MaskModes : Type :=
  | CONSTANT
  | GAUSSIAN
  | QUARTIC.

(** [m.value] *)
Definition MaskModes_value (m : MaskModes) : string :=
  match m with
  | CONSTANT => "constant"
  | GAUSSIAN => "gaussian"
  | QUARTIC => "quartic"
  end.

(** The objects a caller can store in the [mask_type] field: the dataclass
    annotation [MaskModes] is not enforced, so a plain string is accepted as
    well as an enum member. *)
Inductive pyobj : Type :=
  | PyStr (s : string)
  | PyEnum (m : MaskModes)
  | PyNone.

(** [d[k]] on a dictionary whose keys are all strings.  [MaskModes] derives
    from [Enum] only, so a member is equal to no string, and neither is
    [None]: such a key is never found. *)
Definition py_getitem {V : Type} (d : gmap string V) (k : pyobj) : result V :=
  match k with
  | PyStr s =>
      match d !! s with
      | Some v => Ok v
      | None => Raise KeyError
      end
  | _ => Raise KeyError
  end.

(** ** Regions *)

Record CanvasRegion : Type := mkCanvasRegion {
  row_init : Z;
  row_end : Z;
  col_init : Z;
  col_end : Z;
  latent_row_init : Z;
  latent_row_end : Z;
  latent_col_init : Z;
  latent_col_end : Z
}.

(** The generated [__init__] followed by [CanvasRegion.__post_init__]. *)
Definition CanvasRegion_init (r0 r1 c0 c1 : Z) : result CanvasRegion :=
  Ok {| row_init := r0; row_end := r1; col_init := c0; col_end := c1;
        latent_row_init := r0 `div` 8;
        latent_row_end := r1 `div` 8;
        latent_col_init := c0 `div` 8;
        latent_col_end := c1 `div` 8 |}.

Definition width (r : CanvasRegion) : Z := col_end r - col_init r.
Definition height (r : CanvasRegion) : Z := row_end r - row_init r.

Record DiffusionRegion : Type := mkDiffusionRegion {
  canvas_region :> CanvasRegion;
  mask_type : pyobj;
  mask_weight : fval
}.

(** [DiffusionRegion] inherits [__post_init__] from [CanvasRegion]. *)
Definition DiffusionRegion_init (r0 r1 c0 c1 : Z) (mt : pyobj) (mw : fval)
  : result DiffusionRegion :=
  do c <- CanvasRegion_init r0 r1 c0 c1;
  Ok {| canvas_region := c; mask_type := mt; mask_weight := mw |}.

Section Regions.

(** Token batches, text embeddings and pixel images are values of the
    collaborators; the pipeline only passes them along. *)
Variables tokens embedding image : Type.

Record Text2ImageRegion : Type := mkText2ImageRegion {
  t2i_region :> DiffusionRegion;
  prompt : string;
  guidance_scale : fval;
  downscaling_factor : Z;
  tokenized_prompt : option tokens;
  encoded_prompt : option embedding
}.

(** [Text2ImageRegion] also inherits [__post_init__]; the two class
    attributes start as [None]. *)
Definition Text2ImageRegion_init (r0 r1 c0 c1 : Z) (mt : pyobj) (mw : fval)
    (p : string) (g : fval) (df : Z) : result Text2ImageRegion :=
  do d <- DiffusionRegion_init r0 r1 c0 c1 mt mw;
  Ok {| t2i_region := d; prompt := p; guidance_scale := g;
        downscaling_factor := df;
        tokenized_prompt := None; encoded_prompt := None |}.

Definition set_tokenized_prompt (self : Text2ImageRegion) (v : option tokens)
  : Text2ImageRegion :=
  {| t2i_region := t2i_region self; prompt := prompt self;
     guidance_scale := guidance_scale self;
     downscaling_factor := downscaling_factor self;
     tokenized_prompt := v; encoded_prompt := encoded_prompt self |}.

Definition set_encoded_prompt (self : Text2ImageRegion) (v : option embedding)
  : Text2ImageRegion :=
  {| t2i_region := t2i_region self; prompt := prompt self;
     guidance_scale := guidance_scale self;
     downscaling_factor := downscaling_factor self;
     tokenized_prompt := tokenized_prompt self; encoded_prompt := v |}.

(** A method of a mutable object: from the object before the call to the
    object after it and the outcome of the call. *)
Definition method (S A : Type) : Type := S -> S * result A.

(** [tokenizer(prompt, padding="max_length", ...)] and
    [text_encoder(input_ids)[0]]. *)
Variable tokenizer : string -> tokens.
Variable text_encoder : tokens -> embedding.

Definition tokenize_prompt : method Text2ImageRegion unit :=
  fun self =>
    (set_tokenized_prompt self (Some (tokenizer (prompt self))), Ok tt).

(** The [assert] raises before [encoded_prompt] is assigned. *)
Definition encode_prompt : method Text2ImageRegion unit :=
  fun self =>
    match tokenized_prompt self with
    | None => (self, Raise AssertionError)
    | Some tk => (set_encoded_prompt self (Some (text_encoder tk)), Ok tt)
    end.

Record Image2ImageRegion : Type := mkImage2ImageRegion {
  i2i_region :> DiffusionRegion;
  reference_image : image;
  strength : fval;
  reference_latents : option tensor
}.

(** [torchvision]'s [resize(image, size=[h, w])]. *)
Variable resize : image -> Z -> Z -> result image.

(** The generated [__init__] followed by [Image2ImageRegion.__post_init__]. *)
Definition Image2ImageRegion_init (r0 r1 c0 c1 : Z) (mt : pyobj) (mw : fval)
    (img : option image) (s : fval) : result Image2ImageRegion :=
  do d <- DiffusionRegion_init r0 r1 c0 c1 mt mw;
  match img with
  | None => Raise ValueError
  | Some im =>
      if fltb s (Fin 0) || fltb (Fin 1) s then Raise ValueError
      else
        do im' <- resize im (height d) (width d);
        Ok {| i2i_region := d; reference_image := im'; strength := s;
              reference_latents := None |}
  end.

(** [encoder.encode(reference_image).sample()] *)
Variable vae_encode_sample : image -> tensor.

Definition encode_reference_image : method Image2ImageRegion unit :=
  fun self =>
    ({| i2i_region := i2i_region self;
        reference_image := reference_image self;
        strength := strength self;
        reference_latents := Some (vae_encode_sample (reference_image self)) |},
     Ok tt).

End Regions.

Arguments prompt {tokens embedding} _.
Arguments guidance_scale {tokens embedding} _.
Arguments tokenized_prompt {tokens embedding} _.
Arguments encoded_prompt {tokens embedding} _.
Arguments t2i_region {tokens embedding} _.
Arguments i2i_region {image} _.
Arguments reference_image {image} _.
Arguments strength {image} _.
Arguments reference_latents {image} _.

(** ** Elementwise operations on nested lists *)

(** Two lists combined position by position; torch and numpy refuse operands
    of different sizes.  (Broadcasting of a dimension of size one is not
    represented: every operand the pipeline combines has the full size.) *)
Fixpoint zipM {A B C : Type} (f : A -> B -> result C) (l : list A) (k : list B)
  : result (list C) :=
  match l, k with
  | [], [] => Ok []
  | a :: l', b :: k' => do c <- f a b; do cs <- zipM f l' k'; Ok (c :: cs)
  | _, _ => Raise RuntimeError
  end.

Definition lift2 (op : fval -> fval -> fval) (x y : fval) : result fval :=
  Ok (op x y).

Definition grid_map2 (op : fval -> fval -> fval) : grid -> grid -> result grid :=
  zipM (zipM (lift2 op)).

Definition tensor_map2 (op : fval -> fval -> fval)
  : tensor -> tensor -> result tensor :=
  zipM (zipM (grid_map2 op)).

Definition tensor_map (f : fval -> fval) (t : tensor) : tensor :=
  fmap (M:=list) (fmap (M:=list) (fmap (M:=list) (fmap (M:=list) f))) t.

(** [t * s] for a scalar [s]. *)
Definition tensor_scale (t : tensor) (s : fval) : tensor :=
  tensor_map (fun x => fmul x s) t.

Definition grid_scale (g : grid) (s : fval) : grid :=
  fmap (M:=list) (fmap (M:=list) (fun x => fmul x s)) g.

(** [t[b, c, i, j]] *)
Definition tget (t : tensor) (b c i j : nat) : option fval :=
  t !! b ≫= fun ch => ch !! c ≫= fun g => g !! i ≫= fun row => row !! j.

Definition gget (g : grid) (i j : nat) : option fval :=
  g !! i ≫= fun row => row !! j.

Definition grid_shape (h w : nat) (g : grid) : Prop :=
  length g = h /\ Forall (fun row => length row = w) g.

Definition tensor_shape (nb nc h w : nat) (t : tensor) : Prop :=
  length t = nb /\
  Forall (fun ch => length ch = nc /\ Forall (grid_shape h w) ch) t.

Definition neg_dim (d : Z) : bool := d <? 0.

(** [torch.ones(nb, nc, h, w)] and [torch.zeros]: a negative dimension
    raises. *)
Definition torch_full (v : fval) (nb nc h w : Z) : result tensor :=
  if neg_dim nb || neg_dim nc || neg_dim h || neg_dim w then Raise RuntimeError
  else Ok (replicate (Z.to_nat nb) (replicate (Z.to_nat nc)
             (replicate (Z.to_nat h) (replicate (Z.to_nat w) v)))).

Definition torch_ones : Z -> Z -> Z -> Z -> result tensor := torch_full fone.
Definition torch_zeros : Z -> Z -> Z -> Z -> result tensor := torch_full fzero.

(** [np.outer(ys, xs)] *)
Definition np_outer (ys xs : list fval) : grid :=
  fmap (M:=list) (fun y => fmap (M:=list) (fun x => fmul y x) xs) ys.

(** [torch.tile(torch.tensor(g), (nb, nc, 1, 1))] *)
Definition torch_tile (g : grid) (nb nc : Z) : result tensor :=
  if neg_dim nb || neg_dim nc then Raise RuntimeError
  else Ok (replicate (Z.to_nat nb) (replicate (Z.to_nat nc) g)).

(** ** [MaskWeightsBuilder] *)

Record MaskWeightsBuilder : Type := mkMaskWeightsBuilder {
  latent_space_dim : Z;
  nbatch : Z
}.

Definition latent_width (region : CanvasRegion) : Z :=
  latent_col_end region - latent_col_init region.

Definition latent_height (region : CanvasRegion) : Z :=
  latent_row_end region - latent_row_init region.

Definition _constant_weights (self : MaskWeightsBuilder)
    (region : DiffusionRegion) : result tensor :=
  do ones <- torch_ones (nbatch self) (latent_space_dim self)
               (latent_height region) (latent_width region);
  Ok (tensor_scale ones (mask_weight region)).

(** [pi] of numpy. *)
Definition fpi : fval := Fin PI.

(** [var = 0.01] *)
Definition gaussian_var : fval := Fin (1 / 100).

(** One entry of [x_probs] (or of [y_probs]) of [_gaussian_weights]:
    [exp(-(x-midpoint)*(x-midpoint)/(n*n)/(2*var)) / sqrt(2*pi*var)] with
    [midpoint = (n - 1) / 2].  The entry is only evaluated for [x] in
    [range(n)], hence with [n >= 1]: Python's own division never sees a zero
    divisor there. *)
Definition gaussian_prob (n x : Z) : fval :=
  let midpoint := fdiv (fofZ (n - 1)) (Fin 2) in
  let d := fsub (fofZ x) midpoint in
  fdiv
    (fexp (fdiv (fdiv (fmul (fneg d) d) (fofZ (n * n)))
                (fmul (Fin 2) gaussian_var)))
    (fsqrt (fmul (fmul (Fin 2) fpi) gaussian_var)).

Definition gaussian_probs (n : Z) : list fval :=
  fmap (M:=list) (gaussian_prob n) (py_range 0 n).

Definition _gaussian_weights (self : MaskWeightsBuilder)
    (region : DiffusionRegion) : result tensor :=
  let x_probs := gaussian_probs (latent_width region) in
  let y_probs := gaussian_probs (latent_height region) in
  let weights := grid_scale (np_outer y_probs x_probs) (mask_weight region) in
  torch_tile weights (nbatch self) (latent_space_dim self).

(** [quartic_constant = 15. / 16.] *)
Definition quartic_constant : fval := Fin (15 / 16).

(** One entry of [support] in [_quartic_weights], for the index [x] of
    [range(init, end)]:
    [(x - init) / (end - init - 1) * 1.99 - (1.99 / 2.)].
    The quotient is numpy's: a zero divisor yields NaN or an infinity. *)
Definition quartic_support (init_ end_ x : Z) : fval :=
  fsub (fmul (fdiv (fofZ (x - init_)) (fofZ (end_ - init_ - 1)))
             (Fin (199 / 100)))
       (fdiv (Fin (199 / 100)) (Fin 2)).

(** [quartic_constant * np.square(1 - np.square(support))] *)
Definition quartic_prob (init_ end_ x : Z) : fval :=
  fmul quartic_constant
       (fsquare (fsub (Fin 1) (fsquare (quartic_support init_ end_ x)))).

Definition quartic_probs (init_ end_ : Z) : list fval :=
  fmap (M:=list) (quartic_prob init_ end_) (py_range init_ end_).

Definition _quartic_weights (self : MaskWeightsBuilder)
    (region : DiffusionRegion) : result tensor :=
  let x_probs :=
    quartic_probs (latent_col_init region) (latent_col_end region) in
  let y_probs :=
    quartic_probs (latent_row_init region) (latent_row_end region) in
  let weights := grid_scale (np_outer y_probs x_probs) (mask_weight region) in
  torch_tile weights (nbatch self) (latent_space_dim self).

(** Position [k2] of an axis of extent [n] lies farther from the centre
    [(n - 1) / 2] of the axis than position [k1]. *)
Definition farther_from_center (n k1 k2 : Z) : Prop :=
  Z.abs (2 * k1 - (n - 1)) < Z.abs (2 * k2 - (n - 1)).

(** The real number that an entry of the gaussian kernel is, for an axis of
    extent [n] and the position [x]. *)
Definition gaussian_R (n x : Z) : R :=
  (exp (- (IZR x - IZR (n - 1) / 2) * (IZR x - IZR (n - 1) / 2)
          / IZR (n * n) / (2 * (1 / 100)))
   / sqrt (2 * PI * (1 / 100)))%R.

(** The real number that an entry of the quartic kernel is, for an axis of
    extent [n] and the position [k] counted from the start of the region. *)
Definition quartic_u (n k : Z) : R :=
  (IZR k / IZR (n - 1) * (199 / 100) - 199 / 100 / 2)%R.

Definition quartic_R (n k : Z) : R :=
  (15 / 16 * ((1 - quartic_u n k * quartic_u n k)
              * (1 - quartic_u n k * quartic_u n k)))%R.

(** The builder method of a mask mode. *)
Definition builder_of (m : MaskModes)
  : MaskWeightsBuilder -> DiffusionRegion -> result tensor :=
  match m with
  | CONSTANT => _constant_weights
  | GAUSSIAN => _gaussian_weights
  | QUARTIC => _quartic_weights
  end.

(** The entries of the gaussian and of the quartic mask are the outer product
    of a one-dimensional kernel with itself, scaled by [mask_weight]. *)
Definition kernel_of (m : MaskModes) : Z -> Z -> R :=
  match m with
  | QUARTIC => quartic_R
  | _ => gaussian_R
  end.

(** The dictionary [MASK_BUILDERS], keyed by the members' [value]s. *)
Definition MASK_BUILDERS (self : MaskWeightsBuilder)
  : gmap string (DiffusionRegion -> result tensor) :=
  <[MaskModes_value QUARTIC := _quartic_weights self]>
  (<[MaskModes_value GAUSSIAN := _gaussian_weights self]>
  (<[MaskModes_value CONSTANT := _constant_weights self]> ∅)).

Definition compute_mask_weights (self : MaskWeightsBuilder)
    (region : DiffusionRegion) : result tensor :=
  do builder <- py_getitem (MASK_BUILDERS self) (mask_type region);
  builder region.

(** Inputs of the examples: the builder of a pipeline with four latent
    channels, and the region of the pixels 0..24 by 0..32 with the mask
    weight 1. *)
Definition example_builder : MaskWeightsBuilder := mkMaskWeightsBuilder 4 1.

Definition example_region (mask : string) : DiffusionRegion :=
  mkDiffusionRegion (mkCanvasRegion 0 24 0 32 0 3 0 4) (PyStr mask) (Fin 1).

(** ** Slices *)

(** A bound of a Python slice over a sequence of length [n]: a negative bound
    counts from the end, and both kinds are clamped to [0..n]. *)
Definition slice_bound (n : nat) (i : Z) : nat :=
  Z.to_nat (if i <? 0 then Z.max (i + Z.of_nat n) 0 else Z.min i (Z.of_nat n)).

(** [l[a:b]] *)
Definition py_slice {A : Type} (l : list A) (a b : Z) : list A :=
  let s := slice_bound (length l) a in
  let e := slice_bound (length l) b in
  take (e - s)%nat (drop s l).

(** [l[a:b] = v] and [l[a:b] += v], element by element through [f]: the
    elements of the slice are combined with those of [v], which must be as
    many; the rest of [l] is kept. *)
Definition update_slice {A B : Type} (f : A -> B -> result A)
    (l : list A) (a b : Z) (v : list B) : result (list A) :=
  let s := slice_bound (length l) a in
  let e := slice_bound (length l) b in
  do mid <- zipM f (take (e - s)%nat (drop s l)) v;
  Ok (take s l ++ mid ++ drop (s + (e - s))%nat l).

(** [t[:, :, r0:r1, c0:c1]] *)
Definition tensor_getitem (t : tensor) (r0 r1 c0 c1 : Z) : tensor :=
  fmap (M:=list) (fmap (M:=list) (fun g => fmap (M:=list) (fun row => py_slice row c0 c1) (py_slice g r0 r1))) t.

(** [t[:, :, r0:r1, c0:c1] = v] when [op old new = new], and
    [t[:, :, r0:r1, c0:c1] += v] when [op] is [fadd]. *)
Definition tensor_setitem (op : fval -> fval -> fval) (t : tensor)
    (r0 r1 c0 c1 : Z) (v : tensor) : result tensor :=
  zipM (zipM (fun g gv =>
    update_slice (fun row vrow => update_slice (lift2 op) row c0 c1 vrow)
      g r0 r1 gv)) t v.

Definition assign (old new : fval) : fval := new.

(** The latent sub-rectangle of a region, as slice bounds. *)
Definition region_getitem (t : tensor) (region : CanvasRegion) : tensor :=
  tensor_getitem t (latent_row_init region) (latent_row_end region)
    (latent_col_init region) (latent_col_end region).

Definition region_setitem (op : fval -> fval -> fval) (t : tensor)
    (region : CanvasRegion) (v : tensor) : result tensor :=
  tensor_setitem op t (latent_row_init region) (latent_row_end region)
    (latent_col_init region) (latent_col_end region) v.

(** The list a slice update produces when it succeeds: the [n] elements of
    [l] from position [s] on are combined with the elements of [v] through
    [g]. *)
Definition splice {A B : Type} (g : A -> B -> A) (s n : nat)
    (l : list A) (v : list B) : list A :=
  take s l ++ zip_with g (take n (drop s l)) v ++ drop (s + n) l.

(** The tensor [region_setitem] produces when it succeeds, the bounds of the
    region lying within the tensor. *)
Definition region_splice (op : fval -> fval -> fval) (region : CanvasRegion)
    (t v : tensor) : tensor :=
  let r0 := Z.to_nat (latent_row_init region) in
  let c0 := Z.to_nat (latent_col_init region) in
  let nh := Z.to_nat (latent_height region) in
  let nw := Z.to_nat (latent_width region) in
  zip_with (zip_with (fun g gv =>
    splice (fun row vrow => splice op c0 nw row vrow) r0 nh g gv)) t v.

(** The region lies within a canvas of [h] latent rows and [w] latent
    columns. *)
Definition region_within (h w : nat) (region : CanvasRegion) : Prop :=
  0 <= latent_row_init region <= latent_row_end region /\
  latent_row_end region <= Z.of_nat h /\
  0 <= latent_col_init region <= latent_col_end region /\
  latent_col_end region <= Z.of_nat w.

(** The latent position ([i], [j]) lies in the latent sub-rectangle of the
    region. *)
Definition covers (region : CanvasRegion) (i j : nat) : Prop :=
  latent_row_init region <= Z.of_nat i < latent_row_end region /\
  latent_col_init region <= Z.of_nat j < latent_col_end region.

Definition coversb (region : CanvasRegion) (i j : nat) : bool :=
  (latent_row_init region <=? Z.of_nat i) &&
  (Z.of_nat i <? latent_row_end region) &&
  (latent_col_init region <=? Z.of_nat j) &&
  (Z.of_nat j <? latent_col_end region).

(** ** The store of tensors

    [init_noise] and [latents] are references to tensor objects; a slice
    assignment mutates the object a reference points to.  The store maps each
    reference to the current contents of its object. *)

Definition loc : Type := nat.

Definition alloc (st : gmap loc tensor) (t : tensor) : gmap loc tensor * loc :=
  let l := fresh (dom st) in (<[l := t]> st, l).

Definition read (st : gmap loc tensor) (l : loc) : tensor := st !!! l.

Fixpoint foldM {A S : Type} (f : S -> A -> result S) (l : list A) (s : S)
  : result S :=
  match l with
  | [] => Ok s
  | a :: l' => do s' <- f s a; foldM f l' s'
  end.

(** ** The scheduler *)

Record Scheduler : Type := mkScheduler {
  (** ["offset" in signature(set_timesteps)] *)
  accepts_offset : bool;
  (** ["eta" in signature(step)] *)
  accepts_eta : bool;
  (** [isinstance(scheduler, LMSDiscreteScheduler)] *)
  is_lms : bool;
  (** [timesteps] after [set_timesteps(num_inference_steps, offset)] *)
  timesteps : Z -> Z -> list Z;
  (** [sigmas[i]] after [set_timesteps] *)
  sigmas : Z -> Z -> nat -> fval;
  (** [add_noise(original, noise, timesteps)] *)
  add_noise : tensor -> tensor -> list Z -> tensor;
  (** [step(model_output, timestep, sample, eta)["prev_sample"]] *)
  step : tensor -> Z -> tensor -> option fval -> tensor
}.

(** ** [StableDiffusionCanvasPipeline.__call__] *)

Section Pipeline.

Variables tokens embedding image pil : Type.

Abbreviation T2I := (Text2ImageRegion tokens embedding).
Abbreviation I2I := (Image2ImageRegion image).

(** The elements of the [regions] argument, told apart by [isinstance]. *)
Inductive region_obj : Type :=
  | RText (r : T2I)
  | RImage (r : I2I)
  | ROther (r : DiffusionRegion).

Variable tokenizer : string -> tokens.
(** [tokenizer([""] * batch_size, max_length=input_ids.shape[-1])] *)
Variable uncond_tokens : tokens -> tokens.
Variable text_encoder : tokens -> embedding.
(** [torch.cat([uncond_embeddings, encoded_prompt])] *)
Variable cat_embeddings : embedding -> embedding -> embedding.
Variable vae_encode_sample : image -> tensor.
(** [self.unet.in_channels] *)
Variable in_channels : Z.
(** [self.unet(latent_model_input, t, encoder_hidden_states)["sample"]] *)
Variable unet : tensor -> Z -> option embedding -> tensor.
Variable scheduler : Scheduler.
(** [self.decode_latents(latents, cpu_vae)] *)
Variable decode_latents : tensor -> bool -> pil.
(** The values [torch.randn] draws for a shape from a generator freshly
    seeded with a given seed. *)
Variable randn_values : Z -> nat -> nat -> nat -> nat -> tensor.

Definition torch_randn (seed nb nc h w : Z) : result tensor :=
  if neg_dim nb || neg_dim nc || neg_dim h || neg_dim w then Raise RuntimeError
  else Ok (randn_values seed (Z.to_nat nb) (Z.to_nat nc)
             (Z.to_nat h) (Z.to_nat w)).

Definition batch_size : Z := 1.

(** *** Seeding *)

(** One iteration of the loop over [seed_reroll_regions]. *)
Definition reroll (latents : loc) (st : gmap loc tensor)
    (entry : CanvasRegion * Z) : result (gmap loc tensor) :=
  let '(region, seed_reroll) := entry in
  do noise <- torch_randn seed_reroll batch_size in_channels
                (latent_row_end region - latent_row_init region)
                (latent_col_end region - latent_col_init region);
  do t <- region_setitem assign (read st latents) region noise;
  Ok (<[latents := t]> st).

(** From the creation of [init_noise] to the end of the reroll loop: the
    store and the references bound to [init_noise] and [latents]. *)
Definition seed_latents (st : gmap loc tensor)
    (canvas_height canvas_width seed : Z)
    (seed_reroll_regions : list (CanvasRegion * Z))
  : result (gmap loc tensor * loc * loc) :=
  do noise <- torch_randn seed batch_size in_channels
                (canvas_height `div` 8) (canvas_width `div` 8);
  let '(st1, init_noise) := alloc st noise in
  let '(st2, latents) := alloc st1 (read st1 init_noise) in
  do st3 <- foldM (reroll latents) seed_reroll_regions st2;
  Ok (st3, init_noise, latents).

(** *** Preparation of the regions *)

Definition text2image_regions (regions : list region_obj) : list T2I :=
  omap (fun r => match r with RText r => Some r | _ => None end) regions.

Definition image2image_regions (regions : list region_obj) : list I2I :=
  omap (fun r => match r with RImage r => Some r | _ => None end) regions.

(** [tokenize_prompt] then [encode_prompt], then the concatenation with
    the unconditional embeddings. *)
Definition prepare_text_region (r : T2I) : result T2I :=
  let '(r1, o1) := tokenize_prompt tokens embedding tokenizer r in
  do _ <- o1;
  let '(r2, o2) := encode_prompt tokens embedding text_encoder r1 in
  do _ <- o2;
  match tokenized_prompt r2, encoded_prompt r2 with
  | Some tk, Some e =>
      let uncond_embeddings := text_encoder (uncond_tokens tk) in
      Ok (set_encoded_prompt tokens embedding r2
            (Some (cat_embeddings uncond_embeddings e)))
  | _, _ => Raise AttributeError
  end.

Definition prepare_image_region (r : I2I) : result I2I :=
  let '(r1, o1) := encode_reference_image image vae_encode_sample r in
  do _ <- o1; Ok r1.

(** *** The timestep loop *)

(** [min(int(num_inference_steps * region.strength) + offset,
    num_inference_steps)] *)
Definition influence_step (num_inference_steps offset : Z) (region : I2I)
  : result Z :=
  do k <- py_int (fmul (fofZ num_inference_steps) (strength region));
  Ok (Z.min (k + offset) num_inference_steps).

(** One iteration of the loop over [image2image_regions] at index [i] and
    timestep [t]. *)
Definition inject (init_noise latents : loc)
    (num_inference_steps offset i t : Z)
    (st : gmap loc tensor) (region : I2I) : result (gmap loc tensor) :=
  do influence <- influence_step num_inference_steps offset region;
  if i <? influence then
    let timesteps := replicate (Z.to_nat batch_size) t in
    let region_init_noise := region_getitem (read st init_noise) region in
    match reference_latents region with
    | None => Raise AttributeError
    | Some ref =>
        let region_latents :=
          add_noise scheduler ref region_init_noise timesteps in
        do t' <- region_setitem assign (read st latents) region
                   region_latents;
        Ok (<[latents := t']> st)
    end
  else Ok st.

(** [noise_pred.chunk(2)] unpacked into two names. *)
Definition chunk2 (t : tensor) : result (tensor * tensor) :=
  if (length t <? 2)%nat then Raise ValueError
  else let k := ((length t + 1) / 2)%nat in Ok (take k t, drop k t).

(** One iteration of the loop over [text2image_regions]: the guided noise
    prediction of the region. *)
Definition denoise (num_inference_steps offset : Z) (latents : tensor)
    (i : nat) (t : Z) (region : T2I) : result tensor :=
  let region_latents := region_getitem latents region in
  let latent_model_input := region_latents ++ region_latents in
  let latent_model_input :=
    if is_lms scheduler then
      let sigma := sigmas scheduler num_inference_steps offset i in
      tensor_map
        (fun x => fdiv x (fsqrt (fadd (fsquare sigma) (Fin 1))))
        latent_model_input
    else latent_model_input in
  let noise_pred := unet latent_model_input t (encoded_prompt region) in
  do halves <- chunk2 noise_pred;
  let noise_pred_uncond := fst halves in
  let noise_pred_text := snd halves in
  let guidance := guidance_scale region in
  do diff <- tensor_map2 fsub noise_pred_text noise_pred_uncond;
  tensor_map2 fadd noise_pred_uncond (tensor_map (fmul guidance) diff).

(** One iteration of the loop that adds each tile contribution. *)
Definition accumulate (acc : tensor * tensor)
    (entry : CanvasRegion * tensor * tensor) : result (tensor * tensor) :=
  let '(noise_pred, contributors) := acc in
  let '(region, noise_pred_region, mask_weights_region) := entry in
  do weighted <- tensor_map2 fmul noise_pred_region mask_weights_region;
  do noise_pred' <- region_setitem fadd noise_pred region weighted;
  do contributors' <-
    region_setitem fadd contributors region mask_weights_region;
  Ok (noise_pred', contributors').

(** [zip(text2image_regions, noise_preds_regions, mask_weights)] *)
Definition zip3 {A B C : Type} (l : list A) (k : list B) (m : list C)
  : list (A * B * C) :=
  zip (zip l k) m.

(** From [torch.zeros(latents.shape)] to [torch.nan_to_num(noise_pred)]. *)
Definition merge_noise_preds (latents : tensor)
    (regions : list CanvasRegion) (noise_preds_regions : list tensor)
    (mask_weights : list tensor) : result tensor :=
  let zeros := tensor_map (fun _ => fzero) latents in
  do acc <- foldM accumulate
              (zip3 regions noise_preds_regions mask_weights) (zeros, zeros);
  do noise_pred <- tensor_map2 fdiv (fst acc) (snd acc);
  Ok (tensor_map nan_to_num noise_pred).

Record loop_state : Type := mkLoopState {
  ls_store : gmap loc tensor;
  ls_latents : loc;
  ls_steps_images : list pil
}.

(** The body of the loop over [enumerate(self.scheduler.timesteps)]. *)
Definition timestep (init_noise : loc) (num_inference_steps offset : Z)
    (eta : fval) (cpu_vae decode_steps : bool)
    (text_regions : list T2I) (image_regions : list I2I)
    (mask_weights : list tensor)
    (s : loop_state) (it : nat * Z) : result loop_state :=
  let '(i, t) := it in
  do st1 <- foldM (inject init_noise (ls_latents s) num_inference_steps
                     offset (Z.of_nat i) t) image_regions (ls_store s);
  let latents := read st1 (ls_latents s) in
  do noise_preds_regions <-
    mapM (denoise num_inference_steps offset latents i t) text_regions;
  do noise_pred <-
    merge_noise_preds latents
      (fmap (M:=list) (fun r : T2I => canvas_region (t2i_region r)) text_regions)
      noise_preds_regions mask_weights;
  let extra_eta := if accepts_eta scheduler then Some eta else None in
  let latents' :=
    step scheduler noise_pred
      (if is_lms scheduler then Z.of_nat i else t) latents extra_eta in
  let '(st2, l') := alloc st1 latents' in
  Ok {| ls_store := st2; ls_latents := l';
        ls_steps_images :=
          if decode_steps
          then ls_steps_images s ++ [decode_latents latents' cpu_vae]
          else ls_steps_images s |}.

(** [enumerate(l)] *)
Definition enumerate {A : Type} (l : list A) : list (nat * A) :=
  imap (fun i a => (i, a)) l.

Definition call (canvas_height canvas_width : Z) (regions : list region_obj)
    (num_inference_steps : Z) (eta : fval) (seed : Z)
    (seed_reroll_regions : list (CanvasRegion * Z))
    (cpu_vae decode_steps : bool) : result (pil * list pil) :=
  do seeded <- seed_latents ∅ canvas_height canvas_width seed
                 seed_reroll_regions;
  let '(st, init_noise, latents) := seeded in
  let offset := if accepts_offset scheduler then 1 else 0 in
  let '(st, latents) :=
    if is_lms scheduler then
      alloc st (tensor_scale (read st latents)
                  (sigmas scheduler num_inference_steps offset 0%nat))
    else (st, latents) in
  do text_regions <- mapM prepare_text_region (text2image_regions regions);
  do image_regions <- mapM prepare_image_region (image2image_regions regions);
  let mask_builder :=
    {| latent_space_dim := in_channels; nbatch := batch_size |} in
  do mask_weights <-
    mapM (fun r : T2I => compute_mask_weights mask_builder r) text_regions;
  do final <-
    foldM (timestep init_noise num_inference_steps offset eta cpu_vae
             decode_steps text_regions image_regions mask_weights)
      (enumerate (timesteps scheduler num_inference_steps offset))
      {| ls_store := st; ls_latents := latents; ls_steps_images := [] |};
  Ok (decode_latents (read (ls_store final) (ls_latents final)) cpu_vae,
      ls_steps_images final).

End Pipeline.

Arguments ls_store {pil} _.
Arguments ls_latents {pil} _.
Arguments ls_steps_images {pil} _.


(** ** Vocabulary of the properties of the seeding *)

(** The override that determines the noise of the latent position ([i], [j])
    after the reroll loop: the last entry of the list whose region covers the
    position. *)
Fixpoint last_override (rerolls : list (CanvasRegion * Z)) (i j : nat)
  : option (CanvasRegion * Z) :=
  match rerolls with
  | [] => None
  | e :: rest =>
      match last_override rest i j with
      | Some e' => Some e'
      | None => if coversb (fst e) i j then Some e else None
      end
  end.

(** A generator for the examples: every value it draws is its seed. *)
Definition constant_randn (seed : Z) (nb nc h w : nat) : tensor :=
  replicate nb (replicate nc (replicate h (replicate w (fofZ seed)))).

(** The draw of an override, as the reroll loop writes it into the latents:
    a tensor of one batch, [nc] channels and the latent extent of the
    region. *)
Definition draw_of (randn_values : Z -> nat -> nat -> nat -> nat -> tensor)
    (nc : nat) (entry : CanvasRegion * Z) : tensor :=
  randn_values (snd entry) 1%nat nc
    (Z.to_nat (latent_height (fst entry)))
    (Z.to_nat (latent_width (fst entry))).

(** The tensor [tensor_map2] produces when it succeeds. *)
Definition tensor_zip (op : fval -> fval -> fval) (t1 t2 : tensor) : tensor :=
  zip_with (zip_with (zip_with (zip_with op))) t1 t2.

(** ** Vocabulary of the properties of the blend *)

(** The entry of the tensor [t] of a region (a noise prediction or a mask)
    that lies over the latent position ([i], [j]) of the canvas. *)
Definition rel_get (region : CanvasRegion) (t : tensor) (b c i j : nat)
  : fval :=
  default NaN
    (tget t b c (i - Z.to_nat (latent_row_init region))
                (j - Z.to_nat (latent_col_init region))).

(** The guided prediction and the mask weight that an entry of
    [zip(text2image_regions, noise_preds_regions, mask_weights)] has over a
    position of the canvas. *)
Definition pred_at (e : CanvasRegion * tensor * tensor) (b c i j : nat)
  : fval :=
  rel_get (fst (fst e)) (snd (fst e)) b c i j.

Definition mask_at (e : CanvasRegion * tensor * tensor) (b c i j : nat)
  : fval :=
  rel_get (fst (fst e)) (snd e) b c i j.

(** The value accumulated at the position ([i], [j]) by the entries whose
    region covers it, in the order of the list, starting from [a]. *)
Fixpoint accumulated (term : CanvasRegion * tensor * tensor -> fval)
    (i j : nat) (entries : list (CanvasRegion * tensor * tensor)) (a : fval)
  : fval :=
  match entries with
  | [] => a
  | e :: rest =>
      accumulated term i j rest
        (if coversb (fst (fst e)) i j then fadd a (term e) else a)
  end.

(** The number a float is, and 0 for the special values. *)
Definition fin_value (x : fval) : R :=
  match x with
  | Fin r => r
  | _ => 0%R
  end.

(** The sum of [term] over the entries whose region covers ([i], [j]). *)
Fixpoint sum_covering (term : CanvasRegion * tensor * tensor -> R)
    (i j : nat) (entries : list (CanvasRegion * tensor * tensor)) : R :=
  match entries with
  | [] => 0%R
  | e :: rest =>
      ((if coversb (fst (fst e)) i j then term e else 0)
       + sum_covering term i j rest)%R
  end.

(** The entries whose region covers ([i], [j]). *)
Definition covering (i j : nat)
    (entries : list (CanvasRegion * tensor * tensor))
  : list (CanvasRegion * tensor * tensor) :=
  filter (fun e => coversb (fst (fst e)) i j = true) entries.

(** An entry fits a canvas of [h] by [w] latent positions, [nb] batches and
    [nc] channels: its region lies within the canvas, and its prediction and
    its mask have the latent extent of the region. *)
Definition entry_fits (nb nc h w : nat) (e : CanvasRegion * tensor * tensor)
  : Prop :=
  region_within h w (fst (fst e)) /\
  tensor_shape nb nc (Z.to_nat (latent_height (fst (fst e))))
    (Z.to_nat (latent_width (fst (fst e)))) (snd (fst e)) /\
  tensor_shape nb nc (Z.to_nat (latent_height (fst (fst e))))
    (Z.to_nat (latent_width (fst (fst e)))) (snd e).

(** Every entry of the tensor is a number, and a positive one. *)
Definition tensor_finite (t : tensor) : Prop :=
  forall b c i j x, tget t b c i j = Some x -> is_fin x.

Definition tensor_positive (t : tensor) : Prop :=
  forall b c i j x, tget t b c i j = Some x ->
    exists r, x = Fin r /\ (0 < r)%R.

(** Inputs of the examples of the injection: a scheduler whose [add_noise]
    adds the noise to the original, a store with [init_noise] at 0 and
    [latents] at 1 over a canvas of one latent position and one channel, and
    an image region over that position with the strength 0.5. *)
Definition example_scheduler : Scheduler :=
  {| accepts_offset := false; accepts_eta := true; is_lms := false;
     timesteps := fun n _ => rev (seqZ 0 n);
     sigmas := fun _ _ _ => Fin 1;
     add_noise := fun original noise _ =>
       zip_with (zip_with (zip_with (zip_with fadd))) original noise;
     step := fun model_output _ sample _ => sample |}.

Definition example_store : gmap loc tensor :=
  <[1%nat := [[[[Fin 1]]]]]> (<[0%nat := [[[[Fin 3]]]]]> ∅).

Definition example_image_region : Image2ImageRegion unit :=
  {| i2i_region :=
       mkDiffusionRegion (mkCanvasRegion 0 8 0 8 0 1 0 1)
         (PyStr "constant") (Fin 1);
     reference_image := tt;
     strength := Fin (1 / 2);
     reference_latents := Some [[[[Fin 7]]]] |}.

(** Inputs of the examples of the blend: a canvas of one channel, one latent
    row and three latent columns; region A over the columns 0 and 1 with the
    mask weight 1 and the predictions 2 and 4, region B over the column 1
    with the mask weight 3 and the prediction 8; no region over column 2. *)
Definition example_latents : tensor := [[[[Fin 0; Fin 0; Fin 0]]]].

Definition example_regions : list CanvasRegion :=
  [mkCanvasRegion 0 8 0 16 0 1 0 2; mkCanvasRegion 0 8 8 16 0 1 1 2].

Definition example_preds : list tensor :=
  [[[[[Fin 2; Fin 4]]]]; [[[[Fin 8]]]]].

Definition example_masks : list tensor :=
  [[[[[Fin 1; Fin 1]]]]; [[[[Fin 3]]]]].

(** ** [_downscale_latents] and [_upscale_latents] *)

(** [l[::n]] for a positive step [n]: the elements at the positions 0, [n],
    [2n], ...  [k] is the number of elements to pass over before the next
    one is taken. *)
Fixpoint stride_from {A : Type} (k n : nat) (l : list A) : list A :=
  match l with
  | [] => []
  | x :: l' =>
      match k with
      | O => x :: stride_from (n - 1) n l'
      | S k' => stride_from k' n l'
      end
  end.

Definition stride {A : Type} (n : nat) (l : list A) : list A :=
  stride_from 0 n l.

(** [latents[:, :, ::scaling_factor, ::scaling_factor]]; torch refuses a
    step that is not positive. *)
Definition _downscale_latents (latents : tensor) (scaling_factor : Z)
  : result tensor :=
  if scaling_factor <=? 0 then Raise ValueError
  else
    let n := Z.to_nat scaling_factor in
    Ok (fmap (M:=list) (fmap (M:=list)
          (fun g => fmap (M:=list) (stride n) (stride n g))) latents).

(** [torch.repeat_interleave(l, n)] along one dimension: every element [n]
    times in a row. *)
Fixpoint repeat_interleave {A : Type} (n : nat) (l : list A) : list A :=
  match l with
  | [] => []
  | x :: l' => replicate n x ++ repeat_interleave n l'
  end.

(** [torch.repeat_interleave(torch.repeat_interleave(latents,
    scaling_factor, dim=2), scaling_factor, dim=3)]; torch refuses a negative
    number of repeats. *)
Definition _upscale_latents (latents : tensor) (scaling_factor : Z)
  : result tensor :=
  if scaling_factor <? 0 then Raise RuntimeError
  else
    let n := Z.to_nat scaling_factor in
    Ok (fmap (M:=list) (fmap (M:=list)
          (fun g => fmap (M:=list) (repeat_interleave n)
                      (repeat_interleave n g))) latents).

(** ** Further vocabulary *)

(** The region object is a text-driven or an image-driven region. *)
Definition is_diffuser {tokens embedding image : Type}
    (r : region_obj tokens embedding image) : bool :=
  match r with
  | ROther _ _ _ _ => false
  | _ => true
  end.

(** Inputs of the examples of the loop: a decoder that returns the first
    entry of the latents, and the loop state over [example_store] whose
    latents are the object 1. *)
Definition example_decode (latents : tensor) (cpu_vae : bool) : option fval :=
  tget latents 0 0 0 0.

Definition example_loop_state : loop_state (option fval) :=
  {| ls_store := example_store; ls_latents := 1%nat; ls_steps_images := [] |}.

(** * Properties *)

(** ** Basic facts about results and comparisons *)

Lemma bind_ok {A B : Type} (m : result A) (k : A -> result B) (b : B) :
  bind m k = Ok b <-> exists a, m = Ok a /\ k a = Ok b.
Proof.
  destruct m as [a|e]; simpl.
  - split; [intros H; exists a; auto | intros (a' & Ha & Hk); congruence].
  - split; [discriminate | intros (a' & Ha & _); discriminate].
Qed.

Lemma Rltb_true x y : Rltb x y = true <-> (x < y)%R.
Proof. unfold Rltb. destruct (Rlt_dec x y); split; auto; discriminate. Qed.

Lemma Rltb_false x y : Rltb x y = false <-> (y <= x)%R.
Proof.
  unfold Rltb. destruct (Rlt_dec x y); split; auto; try discriminate; lra.
Qed.

Lemma Reqb_true x y : Reqb x y = true <-> x = y.
Proof. unfold Reqb. destruct (Req_dec_T x y); split; auto; discriminate. Qed.

Lemma Reqb_false x y : Reqb x y = false <-> x <> y.
Proof.
  unfold Reqb. destruct (Req_dec_T x y); split; auto; try discriminate.
  intros H; contradiction.
Qed.


(** ** The definitions on small inputs *)

Example latent_bounds_floor_divided :
  CanvasRegion_init 4 20 7 17 = Ok (mkCanvasRegion 4 20 7 17 0 2 0 2).
Proof. reflexivity. Qed.

Example py_slice_clamps_the_end : py_slice [1; 2; 3; 4]%nat 1 10 = [2; 3; 4]%nat.
Proof. reflexivity. Qed.

Example py_slice_counts_from_the_end :
  py_slice [1; 2; 3; 4]%nat (-3) (-1) = [2; 3]%nat.
Proof. reflexivity. Qed.

Example py_range_of_inverted_bounds : py_range 5 3 = [].
Proof. reflexivity. Qed.

(** A region that reaches beyond the canvas: the slice is clamped to one
    column, the value has two, and the assignment raises. *)
Example setitem_beyond_canvas_raises :
  region_setitem assign [[[[Fin 0; Fin 0]]]]
    (mkCanvasRegion 0 8 8 24 0 1 1 3) [[[[Fin 1; Fin 1]]]] = Raise RuntimeError.
Proof. reflexivity. Qed.

Example enum_member_is_no_key :
  compute_mask_weights example_builder
    (mkDiffusionRegion (mkCanvasRegion 0 24 0 32 0 3 0 4) (PyEnum GAUSSIAN)
       (Fin 1)) = Raise KeyError.
Proof. reflexivity. Qed.

(** ** Construction of regions *)

(** Against C1 as stated: at an inverted and empty rectangle (rows 24..16,
    columns 8..0) the construction of a [CanvasRegion] and of a
    [Text2ImageRegion] succeeds; no bound is validated. *)
Lemma canvas_region_inverted_accepted :
  (16 <= 24 /\ 0 <= 8) /\
  CanvasRegion_init 24 16 8 0 =
    Ok (mkCanvasRegion 24 16 8 0 3 2 1 0) /\
  is_ok (Text2ImageRegion_init unit unit 24 16 8 0 (PyStr "constant") (Fin 1)
           "a prompt" (Fin (15 / 2)) 1) /\
  CanvasRegion_init 24 16 8 0 <> Raise ValueError.
Proof.
  repeat split; try lia; try reflexivity; discriminate.
Qed.

Section RegionFacts.

Variables tokens embedding image : Type.
Variable tokenizer : string -> tokens.
Variable text_encoder : tokens -> embedding.
Variable resize : image -> Z -> Z -> result image.

(** C1, as the code has it: the construction of a [CanvasRegion], of a
    [DiffusionRegion] and of a [Text2ImageRegion] validates nothing.  For
    any four integer bounds, also of an empty or inverted rectangle, it
    succeeds and stores the bounds together with the latent bounds, which
    are the pixel bounds floor-divided by 8.  The construction of an
    [Image2ImageRegion] has no test of the bounds either: when it raises,
    the reference image is missing, or the strength test fired, or the
    resize of the image raised. *)
Theorem region_init_never_checks_bounds (r0 r1 c0 c1 : Z) :
  (exists c, CanvasRegion_init r0 r1 c0 c1 = Ok c /\
     row_init c = r0 /\ row_end c = r1 /\ col_init c = c0 /\ col_end c = c1 /\
     latent_row_init c = r0 `div` 8 /\ latent_row_end c = r1 `div` 8 /\
     latent_col_init c = c0 `div` 8 /\ latent_col_end c = c1 `div` 8 /\
     (forall mt mw, DiffusionRegion_init r0 r1 c0 c1 mt mw =
                      Ok (mkDiffusionRegion c mt mw)) /\
     (forall mt mw p g df,
        Text2ImageRegion_init tokens embedding r0 r1 c0 c1 mt mw p g df =
          Ok (mkText2ImageRegion tokens embedding (mkDiffusionRegion c mt mw)
                p g df None None))) /\
  (forall mt mw img s e,
     Image2ImageRegion_init image resize r0 r1 c0 c1 mt mw img s = Raise e ->
     img = None \/ fltb s (Fin 0) || fltb (Fin 1) s = true \/
     exists im, img = Some im /\ resize im (r1 - r0) (c1 - c0) = Raise e).
Proof.
  split.
  - eexists. split; [reflexivity|]. simpl. repeat split; reflexivity.
  - intros mt mw img s e. unfold Image2ImageRegion_init.
    cbn [DiffusionRegion_init CanvasRegion_init bind].
    destruct img as [im|]; [|auto].
    destruct (fltb s (Fin 0) || fltb (Fin 1) s) eqn:Hs; [auto|].
    unfold height, width. cbn [canvas_region row_init row_end col_init col_end].
    destruct (resize im (r1 - r0) (c1 - c0)) as [im'|e'] eqn:Hr;
      cbn [bind].
    + done.
    + intros [= ->]. right. right. exists im. auto.
Qed.

Lemma strength_test_spec (s : fval) :
  fltb s (Fin 0) || fltb (Fin 1) s = true <-> outside_unit_interval s.
Proof.
  destruct s as [r|[]|]; simpl; try (split; auto; fail).
  - rewrite orb_true_iff, !Rltb_true. reflexivity.
  - split; [discriminate | intros []].
Qed.

(** C6: the construction of an [Image2ImageRegion] raises [ValueError]
    whenever the reference image is [None] or the strength is a number
    outside of [0, 1]; and when it succeeds, an image was supplied, the
    strength is not outside of [0, 1], and the stored reference image is
    the result of resizing the supplied one to the height [r1 - r0] and the
    width [c1 - c0] of the region. *)
Theorem Image2ImageRegion_init_validates
    (r0 r1 c0 c1 : Z) (mt : pyobj) (mw : fval) (img : option image)
    (s : fval) :
  (img = None \/ outside_unit_interval s ->
     Image2ImageRegion_init image resize r0 r1 c0 c1 mt mw img s =
       Raise ValueError) /\
  (forall r,
     Image2ImageRegion_init image resize r0 r1 c0 c1 mt mw img s = Ok r ->
     exists im, img = Some im /\ ~ outside_unit_interval s /\
       resize im (height r) (width r) = Ok (reference_image r) /\
       height r = r1 - r0 /\ width r = c1 - c0 /\ strength r = s).
Proof.
  unfold Image2ImageRegion_init.
  cbn [DiffusionRegion_init CanvasRegion_init bind]. split.
  - intros [-> | Hs]; [reflexivity|].
    destruct img as [im|]; [|reflexivity].
    apply strength_test_spec in Hs. rewrite Hs. reflexivity.
  - intros r. destruct img as [im|]; [|done].
    destruct (fltb s (Fin 0) || fltb (Fin 1) s) eqn:Hs; [done|].
    unfold height, width.
    cbn [canvas_region row_init row_end col_init col_end].
    destruct (resize im (r1 - r0) (c1 - c0)) as [im'|e'] eqn:Hr;
      cbn [bind]; [|done].
    intros [= <-]. cbn. exists im. repeat split; auto.
    rewrite <- strength_test_spec, Hs. discriminate.
Qed.

(** C7: on a [Text2ImageRegion] whose prompt was not tokenized,
    [encode_prompt] fails with the assertion error and leaves the region as
    it was, so [encoded_prompt] stays unset on a fresh region; after
    [tokenize_prompt], [encode_prompt] succeeds and [encoded_prompt] is the
    text encoder applied to the tokenized prompt. *)
Theorem encode_prompt_needs_tokenized_prompt
    (self : Text2ImageRegion tokens embedding) :
  (tokenized_prompt self = None ->
     encode_prompt tokens embedding text_encoder self =
       (self, Raise AssertionError)) /\
  (forall r0 r1 c0 c1 mt mw p g df,
     Text2ImageRegion_init tokens embedding r0 r1 c0 c1 mt mw p g df =
       Ok self ->
     encoded_prompt
       (fst (encode_prompt tokens embedding text_encoder self)) = None /\
     snd (encode_prompt tokens embedding text_encoder self) =
       Raise AssertionError) /\
  (let tokenized := fst (tokenize_prompt tokens embedding tokenizer self) in
   snd (tokenize_prompt tokens embedding tokenizer self) = Ok tt /\
   tokenized_prompt tokenized = Some (tokenizer (prompt self)) /\
   snd (encode_prompt tokens embedding text_encoder tokenized) = Ok tt /\
   encoded_prompt
     (fst (encode_prompt tokens embedding text_encoder tokenized)) =
     Some (text_encoder (tokenizer (prompt self)))).
Proof.
  split; [|split].
  - intros H. unfold encode_prompt. rewrite H. reflexivity.
  - intros r0 r1 c0 c1 mt mw p g df [= <-]. split; reflexivity.
  - simpl. repeat split; reflexivity.
Qed.

End RegionFacts.

(** ** The dispatch of [compute_mask_weights] *)

Lemma MASK_BUILDERS_lookup (self : MaskWeightsBuilder) (s : string) :
  MASK_BUILDERS self !! s =
    if decide (s = "quartic") then Some (_quartic_weights self)
    else if decide (s = "gaussian") then Some (_gaussian_weights self)
    else if decide (s = "constant") then Some (_constant_weights self)
    else None.
Proof.
  unfold MASK_BUILDERS. simpl.
  repeat (rewrite lookup_insert; repeat case_decide; subst; try congruence).
  apply lookup_empty.
Qed.

Lemma MASK_BUILDERS_value (self : MaskWeightsBuilder) (m : MaskModes) :
  MASK_BUILDERS self !! MaskModes_value m =
    Some (match m with
          | CONSTANT => _constant_weights self
          | GAUSSIAN => _gaussian_weights self
          | QUARTIC => _quartic_weights self
          end).
Proof. rewrite MASK_BUILDERS_lookup. destruct m; reflexivity. Qed.

Lemma MASK_BUILDERS_other (self : MaskWeightsBuilder) (s : string) :
  (forall m, s <> MaskModes_value m) -> MASK_BUILDERS self !! s = None.
Proof.
  intros H. rewrite MASK_BUILDERS_lookup.
  repeat case_decide; subst; try reflexivity.
  - destruct (H QUARTIC); reflexivity.
  - destruct (H GAUSSIAN); reflexivity.
  - destruct (H CONSTANT); reflexivity.
Qed.

Lemma torch_full_ok (v : fval) (nb nc h w : Z) :
  0 <= nb -> 0 <= nc -> 0 <= h -> 0 <= w ->
  torch_full v nb nc h w =
    Ok (replicate (Z.to_nat nb) (replicate (Z.to_nat nc)
          (replicate (Z.to_nat h) (replicate (Z.to_nat w) v)))).
Proof.
  intros. unfold torch_full, neg_dim.
  repeat match goal with
  | |- context [?a <? 0] => destruct (Z.ltb_spec a 0); [lia|]
  end.
  reflexivity.
Qed.

Lemma torch_tile_ok (g : grid) (nb nc : Z) :
  0 <= nb -> 0 <= nc ->
  torch_tile g nb nc = Ok (replicate (Z.to_nat nb) (replicate (Z.to_nat nc) g)).
Proof.
  intros. unfold torch_tile, neg_dim.
  repeat match goal with
  | |- context [?a <? 0] => destruct (Z.ltb_spec a 0); [lia|]
  end.
  reflexivity.
Qed.

Lemma torch_full_not_KeyError (v : fval) (nb nc h w : Z) :
  torch_full v nb nc h w <> Raise KeyError.
Proof.
  unfold torch_full.
  destruct (neg_dim nb || neg_dim nc || neg_dim h || neg_dim w); discriminate.
Qed.

Lemma torch_tile_not_KeyError (g : grid) (nb nc : Z) :
  torch_tile g nb nc <> Raise KeyError.
Proof.
  unfold torch_tile. destruct (neg_dim nb || neg_dim nc); discriminate.
Qed.

Lemma builder_not_KeyError (self : MaskWeightsBuilder) (m : MaskModes)
    (region : DiffusionRegion) :
  match m with
  | CONSTANT => _constant_weights self
  | GAUSSIAN => _gaussian_weights self
  | QUARTIC => _quartic_weights self
  end region <> Raise KeyError.
Proof.
  destruct m; unfold _constant_weights, _gaussian_weights, _quartic_weights.
  - unfold torch_ones.
    pose proof (torch_full_not_KeyError fone (nbatch self)
      (latent_space_dim self) (latent_height region) (latent_width region)).
    destruct torch_full; simpl; congruence.
  - apply torch_tile_not_KeyError.
  - apply torch_tile_not_KeyError.
Qed.

Lemma builder_ok (self : MaskWeightsBuilder) (m : MaskModes)
    (region : DiffusionRegion) :
  0 <= nbatch self -> 0 <= latent_space_dim self ->
  0 <= latent_height region -> 0 <= latent_width region ->
  is_ok (match m with
         | CONSTANT => _constant_weights self
         | GAUSSIAN => _gaussian_weights self
         | QUARTIC => _quartic_weights self
         end region).
Proof.
  intros. destruct m; unfold _constant_weights, _gaussian_weights,
    _quartic_weights, torch_ones.
  - rewrite torch_full_ok by assumption. exact I.
  - rewrite torch_tile_ok by assumption. exact I.
  - rewrite torch_tile_ok by assumption. exact I.
Qed.

(** C9: [compute_mask_weights] looks [region.mask_type] up in a dictionary
    keyed by the strings ["constant"], ["gaussian"] and ["quartic"].  With one
    of these strings the corresponding builder runs; the call raises
    [KeyError] exactly when [mask_type] is none of these strings, and in
    particular for every member of [MaskModes]; and for a builder and a
    region of non-negative dimensions the call succeeds exactly when
    [mask_type] is one of the three strings. *)
Theorem compute_mask_weights_dispatch (self : MaskWeightsBuilder)
    (region : DiffusionRegion) :
  (forall m, mask_type region = PyStr (MaskModes_value m) ->
     compute_mask_weights self region =
       match m with
       | CONSTANT => _constant_weights self region
       | GAUSSIAN => _gaussian_weights self region
       | QUARTIC => _quartic_weights self region
       end) /\
  (forall m, mask_type region = PyEnum m ->
     compute_mask_weights self region = Raise KeyError) /\
  (compute_mask_weights self region = Raise KeyError <->
     forall m, mask_type region <> PyStr (MaskModes_value m)) /\
  (0 <= nbatch self -> 0 <= latent_space_dim self ->
   0 <= latent_height region -> 0 <= latent_width region ->
   (is_ok (compute_mask_weights self region) <->
      exists m, mask_type region = PyStr (MaskModes_value m))).
Proof.
  assert (Hstr : forall m, mask_type region = PyStr (MaskModes_value m) ->
     compute_mask_weights self region =
       match m with
       | CONSTANT => _constant_weights self
       | GAUSSIAN => _gaussian_weights self
       | QUARTIC => _quartic_weights self
       end region).
  { intros m Hm. unfold compute_mask_weights. rewrite Hm. simpl.
    rewrite MASK_BUILDERS_value. reflexivity. }
  assert (Hother : (forall m, mask_type region <> PyStr (MaskModes_value m)) ->
     compute_mask_weights self region = Raise KeyError).
  { intros Hm. unfold compute_mask_weights.
    destruct (mask_type region) as [s| |]; try reflexivity.
    simpl. rewrite MASK_BUILDERS_other; [reflexivity|].
    intros m ->. exact (Hm m eq_refl). }
  split; [|split; [|split]].
  - intros m Hm. rewrite (Hstr m Hm). destruct m; reflexivity.
  - intros m Hm. apply Hother. intros m'. rewrite Hm. discriminate.
  - split; [|exact Hother].
    intros HK m Hm. rewrite (Hstr m Hm) in HK.
    exact (builder_not_KeyError self m region HK).
  - intros Hnb Hnc Hh Hw. split.
    + intros Hok.
      destruct (mask_type region) as [s| |] eqn:Hmt.
      * destruct (decide (s = "quartic")) as [->|];
          [exists QUARTIC; reflexivity|].
        destruct (decide (s = "gaussian")) as [->|];
          [exists GAUSSIAN; reflexivity|].
        destruct (decide (s = "constant")) as [->|];
          [exists CONSTANT; reflexivity|].
        rewrite Hother in Hok; [destruct Hok|].
        intros m. rewrite ?Hmt. destruct m; simpl; congruence.
      * rewrite Hother in Hok; [destruct Hok|].
        intros m'. rewrite ?Hmt. discriminate.
      * rewrite Hother in Hok; [destruct Hok|].
        intros m'. rewrite ?Hmt. discriminate.
    + intros [m Hm]. rewrite (Hstr m Hm). apply builder_ok; assumption.
Qed.

(** ** Arithmetic of floats on numbers *)

Lemma fdiv_fin (a b : R) : b <> 0%R -> fdiv (Fin a) (Fin b) = Fin (a / b).
Proof.
  intros Hb. unfold fdiv. apply Reqb_false in Hb. rewrite Hb. reflexivity.
Qed.

Lemma fdiv_zero_zero : fdiv (Fin 0) (Fin 0) = NaN.
Proof.
  unfold fdiv. assert (H : Reqb 0 0 = true) by (apply Reqb_true; reflexivity).
  rewrite H. reflexivity.
Qed.

Lemma fsqrt_fin (a : R) : (0 <= a)%R -> fsqrt (Fin a) = Fin (sqrt a).
Proof.
  intros Ha. unfold fsqrt. apply Rltb_false in Ha. rewrite Ha. reflexivity.
Qed.

Lemma farther_from_center_sqr (n k1 k2 : Z) :
  farther_from_center n k1 k2 ->
  ((IZR k1 - IZR (n - 1) / 2) * (IZR k1 - IZR (n - 1) / 2) <
   (IZR k2 - IZR (n - 1) / 2) * (IZR k2 - IZR (n - 1) / 2))%R.
Proof.
  unfold farther_from_center. intros H.
  assert (Hz : (2 * k1 - (n - 1)) * (2 * k1 - (n - 1)) <
               (2 * k2 - (n - 1)) * (2 * k2 - (n - 1))) by nia.
  apply IZR_lt in Hz. rewrite !mult_IZR, !minus_IZR, !mult_IZR in Hz.
  rewrite minus_IZR. lra.
Qed.

(** ** The gaussian kernel *)

Lemma gaussian_norm_pos : (0 < sqrt (2 * PI * (1 / 100)))%R.
Proof. apply sqrt_lt_R0. pose proof PI_RGT_0. lra. Qed.

Lemma gaussian_prob_fin (n x : Z) :
  n <> 0 -> gaussian_prob n x = Fin (gaussian_R n x).
Proof.
  intros Hn. unfold gaussian_prob, gaussian_R, gaussian_var, fpi, fofZ.
  rewrite fdiv_fin by lra. cbn [fsub fneg fadd fmul].
  rewrite fdiv_fin.
  2:{ rewrite mult_IZR. intros H. apply Rmult_integral in H.
      destruct H as [H|H]; apply eq_IZR in H; lia. }
  rewrite fdiv_fin by lra. cbn [fexp].
  pose proof gaussian_norm_pos as Hpos. pose proof PI_RGT_0 as Hpi.
  rewrite fsqrt_fin by lra.
  rewrite fdiv_fin by lra.
  reflexivity.
Qed.

Lemma gaussian_R_pos (n x : Z) : (0 < gaussian_R n x)%R.
Proof.
  unfold gaussian_R. apply Rdiv_lt_0_compat; [apply exp_pos|].
  apply gaussian_norm_pos.
Qed.

Lemma gaussian_R_sym (n x : Z) : gaussian_R n (n - 1 - x) = gaussian_R n x.
Proof.
  unfold gaussian_R. f_equal. f_equal.
  rewrite !minus_IZR. f_equal. f_equal. lra.
Qed.

Lemma gaussian_R_decreasing (n x1 x2 : Z) :
  n <> 0 -> farther_from_center n x1 x2 ->
  (gaussian_R n x2 < gaussian_R n x1)%R.
Proof.
  intros Hn Hf. apply farther_from_center_sqr in Hf.
  unfold gaussian_R.
  apply Rmult_lt_compat_r; [apply Rinv_0_lt_compat, gaussian_norm_pos|].
  apply exp_increasing.
  assert (Hnn : (0 < IZR (n * n))%R) by (apply IZR_lt; nia).
  apply Rmult_lt_compat_r; [lra|].
  apply Rmult_lt_compat_r; [apply Rinv_0_lt_compat; exact Hnn|].
  lra.
Qed.

(** ** The quartic kernel *)

Lemma quartic_support_fin (init_ end_ x : Z) :
  end_ - init_ - 1 <> 0 ->
  quartic_support init_ end_ x = Fin (quartic_u (end_ - init_) (x - init_)).
Proof.
  intros Hn. unfold quartic_support, fofZ.
  rewrite fdiv_fin by (intros H; apply eq_IZR in H; lia).
  rewrite fdiv_fin by lra.
  unfold quartic_u. reflexivity.
Qed.

Lemma quartic_prob_fin (init_ end_ x : Z) :
  end_ - init_ - 1 <> 0 ->
  quartic_prob init_ end_ x = Fin (quartic_R (end_ - init_) (x - init_)).
Proof.
  intros Hn. unfold quartic_prob, quartic_constant.
  rewrite quartic_support_fin by exact Hn. reflexivity.
Qed.

(** With an extent of one the divisor [end - init - 1] is zero and the only
    position is [init]: the support is [0/0], and so is the entry. *)
Lemma quartic_prob_nan (init_ : Z) :
  quartic_prob init_ (init_ + 1) init_ = NaN.
Proof.
  unfold quartic_prob, quartic_support, fofZ.
  replace (init_ - init_) with 0 by lia.
  replace (init_ + 1 - init_ - 1) with 0 by lia.
  rewrite fdiv_zero_zero. reflexivity.
Qed.

Lemma quartic_u_bounds (n k : Z) :
  2 <= n -> 0 <= k <= n - 1 ->
  (- (995 / 1000) <= quartic_u n k <= 995 / 1000)%R.
Proof.
  intros Hn [Hk0 Hk1]. unfold quartic_u.
  assert (Hd : (0 < IZR (n - 1))%R) by (apply IZR_lt; lia).
  assert (H0 : (0 <= IZR k / IZR (n - 1))%R).
  { apply Rmult_le_pos; [apply IZR_le; lia|].
    apply Rlt_le, Rinv_0_lt_compat, Hd. }
  assert (H1 : (IZR k / IZR (n - 1) <= 1)%R).
  { apply Rmult_le_reg_r with (IZR (n - 1)); [exact Hd|].
    unfold Rdiv. rewrite Rmult_assoc, Rinv_l by lra.
    rewrite Rmult_1_r, Rmult_1_l. apply IZR_le. lia. }
  lra.
Qed.

Lemma quartic_u_center (n k : Z) :
  2 <= n ->
  quartic_u n k =
    ((IZR k - IZR (n - 1) / 2) * (199 / 100 / IZR (n - 1)))%R.
Proof.
  intros Hn. unfold quartic_u.
  assert (Hd : (0 < IZR (n - 1))%R) by (apply IZR_lt; lia).
  field. lra.
Qed.

Lemma quartic_R_pos (n k : Z) :
  2 <= n -> 0 <= k <= n - 1 -> (0 < quartic_R n k)%R.
Proof.
  intros Hn Hk. pose proof (quartic_u_bounds n k Hn Hk) as Hu.
  unfold quartic_R.
  assert (H : (0 < 1 - quartic_u n k * quartic_u n k)%R) by nra.
  apply Rmult_lt_0_compat; [lra|]. apply Rmult_lt_0_compat; exact H.
Qed.

Lemma quartic_R_sym (n k : Z) :
  2 <= n -> quartic_R n (n - 1 - k) = quartic_R n k.
Proof.
  intros Hn. unfold quartic_R.
  assert (Hu : quartic_u n (n - 1 - k) = (- quartic_u n k)%R).
  { rewrite !quartic_u_center by exact Hn.
    rewrite (minus_IZR (n - 1) k). lra. }
  rewrite Hu. lra.
Qed.

Lemma quartic_R_decreasing (n k1 k2 : Z) :
  2 <= n -> 0 <= k1 <= n - 1 -> 0 <= k2 <= n - 1 ->
  farther_from_center n k1 k2 ->
  (quartic_R n k2 < quartic_R n k1)%R.
Proof.
  intros Hn Hk1 Hk2 Hf. apply farther_from_center_sqr in Hf.
  pose proof (quartic_u_bounds n k1 Hn Hk1) as Hu1.
  pose proof (quartic_u_bounds n k2 Hn Hk2) as Hu2.
  assert (Hd : (0 < IZR (n - 1))%R) by (apply IZR_lt; lia).
  assert (Hc : (0 < 199 / 100 / IZR (n - 1))%R).
  { apply Rdiv_lt_0_compat; lra. }
  assert (Hsq : (quartic_u n k1 * quartic_u n k1 <
                 quartic_u n k2 * quartic_u n k2)%R).
  { rewrite !quartic_u_center by exact Hn.
    set (c := (199 / 100 / IZR (n - 1))%R) in *.
    set (d1 := (IZR k1 - IZR (n - 1) / 2)%R) in *.
    set (d2 := (IZR k2 - IZR (n - 1) / 2)%R) in *.
    replace (d1 * c * (d1 * c))%R with (d1 * d1 * (c * c))%R by ring.
    replace (d2 * c * (d2 * c))%R with (d2 * d2 * (c * c))%R by ring.
    apply Rmult_lt_compat_r; [nra | exact Hf]. }
  unfold quartic_R.
  set (a1 := (1 - quartic_u n k1 * quartic_u n k1)%R) in *.
  set (a2 := (1 - quartic_u n k2 * quartic_u n k2)%R) in *.
  assert (Ha2 : (0 < a2)%R) by (unfold a2; nra).
  assert (Ha : (a2 < a1)%R) by (unfold a1, a2; lra).
  nra.
Qed.

(** ** Entries of tiled outer products *)

Lemma lookup_py_range (a b : Z) (k : nat) :
  Z.of_nat k < b - a -> py_range a b !! k = Some (a + Z.of_nat k).
Proof. intros H. unfold py_range. apply lookup_seqZ_lt. exact H. Qed.

Lemma length_py_range (a b : Z) : length (py_range a b) = Z.to_nat (b - a).
Proof. unfold py_range. apply length_seqZ. Qed.

Lemma gget_outer (ys xs : list fval) (mw : fval) (i j : nat) (y x : fval) :
  ys !! i = Some y -> xs !! j = Some x ->
  gget (grid_scale (np_outer ys xs) mw) i j = Some (fmul (fmul y x) mw).
Proof.
  intros Hy Hx. unfold gget, grid_scale, np_outer.
  rewrite !list_lookup_fmap, Hy. simpl.
  rewrite !list_lookup_fmap, Hx. reflexivity.
Qed.

Lemma tget_tile (g : grid) (nb nc b c i j : nat) :
  (b < nb)%nat -> (c < nc)%nat ->
  tget (replicate nb (replicate nc g)) b c i j = gget g i j.
Proof.
  intros Hb Hc. unfold tget, gget.
  rewrite lookup_replicate_2 by exact Hb. simpl.
  rewrite lookup_replicate_2 by exact Hc. reflexivity.
Qed.

Lemma grid_shape_outer (ys xs : list fval) (mw : fval) :
  grid_shape (length ys) (length xs) (grid_scale (np_outer ys xs) mw).
Proof.
  unfold grid_shape, grid_scale, np_outer. split.
  - rewrite !length_map. reflexivity.
  - apply Forall_forall. intros row Hrow.
    apply list_elem_of_fmap in Hrow as (r' & -> & Hr').
    apply list_elem_of_fmap in Hr' as (y & -> & _).
    rewrite !length_map. reflexivity.
Qed.

Lemma tensor_shape_tile (g : grid) (nb nc h w : nat) :
  grid_shape h w g -> tensor_shape nb nc h w (replicate nb (replicate nc g)).
Proof.
  intros Hg. unfold tensor_shape. split; [apply length_replicate|].
  apply Forall_replicate. split; [apply length_replicate|].
  apply Forall_replicate. exact Hg.
Qed.

Lemma gaussian_probs_lookup (n : Z) (k : nat) :
  Z.of_nat k < n ->
  gaussian_probs n !! k = Some (Fin (gaussian_R n (Z.of_nat k))).
Proof.
  intros Hk. unfold gaussian_probs.
  rewrite list_lookup_fmap, lookup_py_range by lia. simpl.
  rewrite gaussian_prob_fin by lia. reflexivity.
Qed.

Lemma quartic_probs_lookup (init_ end_ : Z) (k : nat) :
  2 <= end_ - init_ -> Z.of_nat k < end_ - init_ ->
  quartic_probs init_ end_ !! k =
    Some (Fin (quartic_R (end_ - init_) (Z.of_nat k))).
Proof.
  intros Hn Hk. unfold quartic_probs.
  rewrite list_lookup_fmap, lookup_py_range by lia. simpl.
  rewrite quartic_prob_fin by lia.
  replace (init_ + Z.of_nat k - init_) with (Z.of_nat k) by lia. reflexivity.
Qed.

Lemma length_gaussian_probs (n : Z) : length (gaussian_probs n) = Z.to_nat n.
Proof.
  unfold gaussian_probs. rewrite length_map, length_py_range.
  f_equal. lia.
Qed.

Lemma length_quartic_probs (a b : Z) :
  length (quartic_probs a b) = Z.to_nat (b - a).
Proof. unfold quartic_probs. rewrite length_map. apply length_py_range. Qed.

(** ** Kernels that are symmetric, positive and decreasing *)

Section Kernel.

(** [K n k] is the entry of a one-dimensional kernel of extent [n] at
    position [k]; the tensor [t] holds the outer product of the kernel of
    extent [h] with the kernel of extent [w], scaled by [mw] and tiled over
    [nb] batches and [nc] channels. *)
Variable K : Z -> Z -> R.
Variables h w : Z.
Variables nb nc : nat.
Variable mw : fval.
Variable t : tensor.

Hypothesis K_pos : forall n k, 2 <= n -> 0 <= k <= n - 1 -> (0 < K n k)%R.
Hypothesis K_sym : forall n k, 2 <= n -> K n (n - 1 - k) = K n k.
Hypothesis K_decreasing : forall n k1 k2,
  2 <= n -> 0 <= k1 <= n - 1 -> 0 <= k2 <= n - 1 ->
  farther_from_center n k1 k2 -> (K n k2 < K n k1)%R.
Hypothesis h_ge_2 : 2 <= h.
Hypothesis w_ge_2 : 2 <= w.
Hypothesis t_entry : forall b c i j,
  (b < nb)%nat -> (c < nc)%nat -> Z.of_nat i < h -> Z.of_nat j < w ->
  tget t b c i j =
    Some (fmul (fmul (Fin (K h (Z.of_nat i))) (Fin (K w (Z.of_nat j)))) mw).

Lemma kernel_symmetric_rows (b c i j : nat) :
  (b < nb)%nat -> (c < nc)%nat -> Z.of_nat i < h -> Z.of_nat j < w ->
  is_Some (tget t b c i j) /\
  tget t b c (Z.to_nat h - 1 - i) j = tget t b c i j.
Proof.
  intros Hb Hc Hi Hj. rewrite !t_entry by lia. split; [eauto|].
  replace (Z.of_nat (Z.to_nat h - 1 - i)) with (h - 1 - Z.of_nat i) by lia.
  rewrite K_sym by lia. reflexivity.
Qed.

Lemma kernel_symmetric_cols (b c i j : nat) :
  (b < nb)%nat -> (c < nc)%nat -> Z.of_nat i < h -> Z.of_nat j < w ->
  tget t b c i (Z.to_nat w - 1 - j) = tget t b c i j.
Proof.
  intros Hb Hc Hi Hj. rewrite !t_entry by lia.
  replace (Z.of_nat (Z.to_nat w - 1 - j)) with (w - 1 - Z.of_nat j) by lia.
  rewrite K_sym by lia. reflexivity.
Qed.

Lemma kernel_positive (m : R) (b c i j : nat) :
  mw = Fin m -> (0 < m)%R ->
  (b < nb)%nat -> (c < nc)%nat -> Z.of_nat i < h -> Z.of_nat j < w ->
  exists v, tget t b c i j = Some (Fin v) /\ (0 < v)%R.
Proof.
  intros -> Hm Hb Hc Hi Hj. rewrite t_entry by lia. simpl.
  eexists. split; [reflexivity|].
  apply Rmult_lt_0_compat; [|exact Hm].
  apply Rmult_lt_0_compat; apply K_pos; lia.
Qed.

Lemma kernel_decreasing_rows (m : R) (b c i1 i2 j : nat) :
  mw = Fin m -> (0 < m)%R ->
  (b < nb)%nat -> (c < nc)%nat ->
  Z.of_nat i1 < h -> Z.of_nat i2 < h -> Z.of_nat j < w ->
  farther_from_center h (Z.of_nat i1) (Z.of_nat i2) ->
  exists v1 v2, tget t b c i1 j = Some (Fin v1) /\
                tget t b c i2 j = Some (Fin v2) /\ (v2 < v1)%R.
Proof.
  intros -> Hm Hb Hc Hi1 Hi2 Hj Hf. rewrite !t_entry by lia. simpl.
  do 2 eexists. split; [reflexivity|]. split; [reflexivity|].
  apply Rmult_lt_compat_r; [exact Hm|].
  apply Rmult_lt_compat_r; [apply K_pos; lia|].
  apply K_decreasing; lia || exact Hf.
Qed.

Lemma kernel_decreasing_cols (m : R) (b c i j1 j2 : nat) :
  mw = Fin m -> (0 < m)%R ->
  (b < nb)%nat -> (c < nc)%nat ->
  Z.of_nat i < h -> Z.of_nat j1 < w -> Z.of_nat j2 < w ->
  farther_from_center w (Z.of_nat j1) (Z.of_nat j2) ->
  exists v1 v2, tget t b c i j1 = Some (Fin v1) /\
                tget t b c i j2 = Some (Fin v2) /\ (v2 < v1)%R.
Proof.
  intros -> Hm Hb Hc Hi Hj1 Hj2 Hf. rewrite !t_entry by lia. simpl.
  do 2 eexists. split; [reflexivity|]. split; [reflexivity|].
  apply Rmult_lt_compat_r; [exact Hm|].
  apply Rmult_lt_compat_l; [apply K_pos; lia|].
  apply K_decreasing; lia || exact Hf.
Qed.

Lemma kernel_tiled (b c b' c' i j : nat) :
  (b < nb)%nat -> (c < nc)%nat -> (b' < nb)%nat -> (c' < nc)%nat ->
  Z.of_nat i < h -> Z.of_nat j < w ->
  tget t b' c' i j = tget t b c i j.
Proof. intros. rewrite !t_entry by lia. reflexivity. Qed.

End Kernel.

Lemma gaussian_weights_entry (self : MaskWeightsBuilder)
    (region : DiffusionRegion) (t : tensor) (b c i j : nat) :
  _gaussian_weights self region = Ok t ->
  (b < Z.to_nat (nbatch self))%nat ->
  (c < Z.to_nat (latent_space_dim self))%nat ->
  Z.of_nat i < latent_height region -> Z.of_nat j < latent_width region ->
  tget t b c i j =
    Some (fmul (fmul (Fin (gaussian_R (latent_height region) (Z.of_nat i)))
                     (Fin (gaussian_R (latent_width region) (Z.of_nat j))))
               (mask_weight region)).
Proof.
  intros Ht Hb Hc Hi Hj. unfold _gaussian_weights in Ht.
  rewrite torch_tile_ok in Ht by lia. injection Ht as <-.
  rewrite tget_tile by assumption.
  apply gget_outer; apply gaussian_probs_lookup; assumption.
Qed.

Lemma quartic_weights_entry (self : MaskWeightsBuilder)
    (region : DiffusionRegion) (t : tensor) (b c i j : nat) :
  _quartic_weights self region = Ok t ->
  2 <= latent_height region -> 2 <= latent_width region ->
  (b < Z.to_nat (nbatch self))%nat ->
  (c < Z.to_nat (latent_space_dim self))%nat ->
  Z.of_nat i < latent_height region -> Z.of_nat j < latent_width region ->
  tget t b c i j =
    Some (fmul (fmul (Fin (quartic_R (latent_height region) (Z.of_nat i)))
                     (Fin (quartic_R (latent_width region) (Z.of_nat j))))
               (mask_weight region)).
Proof.
  intros Ht Hh Hw Hb Hc Hi Hj. unfold _quartic_weights in Ht.
  rewrite torch_tile_ok in Ht by lia. injection Ht as <-.
  rewrite tget_tile by assumption.
  apply gget_outer; apply quartic_probs_lookup;
    unfold latent_height, latent_width in *; lia.
Qed.

Lemma constant_weights_entry (self : MaskWeightsBuilder)
    (region : DiffusionRegion) (t : tensor) (b c i j : nat) :
  _constant_weights self region = Ok t ->
  (b < Z.to_nat (nbatch self))%nat ->
  (c < Z.to_nat (latent_space_dim self))%nat ->
  Z.of_nat i < latent_height region -> Z.of_nat j < latent_width region ->
  tget t b c i j = Some (fmul (Fin 1) (mask_weight region)).
Proof.
  intros Ht Hb Hc Hi Hj. unfold _constant_weights, torch_ones in Ht.
  rewrite torch_full_ok in Ht by lia. simpl in Ht. injection Ht as <-.
  unfold tensor_scale, tensor_map, tget.
  rewrite list_lookup_fmap, lookup_replicate_2 by lia. simpl.
  rewrite list_lookup_fmap, lookup_replicate_2 by lia. simpl.
  rewrite list_lookup_fmap, lookup_replicate_2 by lia. simpl.
  rewrite list_lookup_fmap, lookup_replicate_2 by lia. reflexivity.
Qed.

(** ** The gaussian and the quartic masks *)

Lemma builder_shape (m : MaskModes) (self : MaskWeightsBuilder)
    (region : DiffusionRegion) (t : tensor) :
  builder_of m self region = Ok t ->
  tensor_shape (Z.to_nat (nbatch self)) (Z.to_nat (latent_space_dim self))
    (Z.to_nat (latent_height region)) (Z.to_nat (latent_width region)) t.
Proof.
  destruct m; simpl;
    unfold _constant_weights, _gaussian_weights, _quartic_weights.
  - unfold torch_ones, torch_full.
    destruct (neg_dim _ || _ || _ || _); [done|]. simpl. intros [= <-].
    unfold tensor_scale, tensor_map, tensor_shape.
    split; [rewrite length_fmap; apply length_replicate|].
    rewrite fmap_replicate. apply Forall_replicate.
    split; [rewrite length_fmap; apply length_replicate|].
    rewrite fmap_replicate. apply Forall_replicate.
    split; [rewrite length_fmap; apply length_replicate|].
    rewrite fmap_replicate. apply Forall_replicate.
    rewrite length_fmap. apply length_replicate.
  - unfold torch_tile. destruct (neg_dim _ || _); [done|]. intros [= <-].
    apply tensor_shape_tile.
    rewrite <- (length_gaussian_probs (latent_height region)).
    rewrite <- (length_gaussian_probs (latent_width region)).
    apply grid_shape_outer.
  - unfold torch_tile. destruct (neg_dim _ || _); [done|]. intros [= <-].
    apply tensor_shape_tile.
    unfold latent_height, latent_width.
    rewrite <- (length_quartic_probs (latent_row_init region)).
    rewrite <- (length_quartic_probs (latent_col_init region)).
    apply grid_shape_outer.
Qed.

Lemma kernel_weights_entry (m : MaskModes) (self : MaskWeightsBuilder)
    (region : DiffusionRegion) (t : tensor) (b c i j : nat) :
  m <> CONSTANT ->
  builder_of m self region = Ok t ->
  2 <= latent_height region -> 2 <= latent_width region ->
  (b < Z.to_nat (nbatch self))%nat ->
  (c < Z.to_nat (latent_space_dim self))%nat ->
  Z.of_nat i < latent_height region -> Z.of_nat j < latent_width region ->
  tget t b c i j =
    Some (fmul (fmul (Fin (kernel_of m (latent_height region) (Z.of_nat i)))
                     (Fin (kernel_of m (latent_width region) (Z.of_nat j))))
               (mask_weight region)).
Proof.
  intros Hm Ht Hh Hw Hb Hc Hi Hj. destruct m; [done| |]; simpl in *.
  - apply (gaussian_weights_entry self); assumption.
  - apply (quartic_weights_entry self); assumption.
Qed.

Lemma kernel_of_pos (m : MaskModes) (n k : Z) :
  2 <= n -> 0 <= k <= n - 1 -> (0 < kernel_of m n k)%R.
Proof.
  intros. destruct m; simpl;
    [apply gaussian_R_pos | apply gaussian_R_pos | apply quartic_R_pos]; lia.
Qed.

Lemma kernel_of_sym (m : MaskModes) (n k : Z) :
  2 <= n -> kernel_of m n (n - 1 - k) = kernel_of m n k.
Proof.
  intros. destruct m; simpl;
    [apply gaussian_R_sym | apply gaussian_R_sym | apply quartic_R_sym; lia].
Qed.

Lemma kernel_of_decreasing (m : MaskModes) (n k1 k2 : Z) :
  2 <= n -> 0 <= k1 <= n - 1 -> 0 <= k2 <= n - 1 ->
  farther_from_center n k1 k2 -> (kernel_of m n k2 < kernel_of m n k1)%R.
Proof.
  intros. destruct m; simpl;
    [apply gaussian_R_decreasing | apply gaussian_R_decreasing
    | apply quartic_R_decreasing]; lia || assumption.
Qed.

(** C8: for a region whose latent extent is at least 2 in each axis, the
    tensor of gaussian weights and the tensor of quartic weights have the
    shape (batch, channels, latent height, latent width) and, at every
    position: the weight is defined; it equals the weight at the mirrored
    row [extent - 1 - i] and at the mirrored column [extent - 1 - j]; it is
    the same in every batch and every channel; and, the mask weight being a
    positive number as the data model has it, a position farther from the
    centre of an axis carries a strictly smaller weight than a nearer
    one, along rows as well as along columns. *)
Theorem kernel_weights_symmetric_decreasing_tiled
    (m : MaskModes) (self : MaskWeightsBuilder) (region : DiffusionRegion)
    (t : tensor) :
  m = GAUSSIAN \/ m = QUARTIC ->
  2 <= latent_height region -> 2 <= latent_width region ->
  builder_of m self region = Ok t ->
  let nb := Z.to_nat (nbatch self) in
  let nc := Z.to_nat (latent_space_dim self) in
  let h := Z.to_nat (latent_height region) in
  let w := Z.to_nat (latent_width region) in
  tensor_shape nb nc h w t /\
  forall b c i j : nat,
    (b < nb)%nat -> (c < nc)%nat -> (i < h)%nat -> (j < w)%nat ->
    is_Some (tget t b c i j) /\
    tget t b c (h - 1 - i) j = tget t b c i j /\
    tget t b c i (w - 1 - j) = tget t b c i j /\
    (forall b' c' : nat, (b' < nb)%nat -> (c' < nc)%nat ->
       tget t b' c' i j = tget t b c i j) /\
    (forall mw : R, mask_weight region = Fin mw -> (0 < mw)%R ->
       (forall i2 : nat, (i2 < h)%nat ->
          farther_from_center (latent_height region)
            (Z.of_nat i) (Z.of_nat i2) ->
          exists v1 v2, tget t b c i j = Some (Fin v1) /\
                        tget t b c i2 j = Some (Fin v2) /\ (v2 < v1)%R) /\
       (forall j2 : nat, (j2 < w)%nat ->
          farther_from_center (latent_width region)
            (Z.of_nat j) (Z.of_nat j2) ->
          exists v1 v2, tget t b c i j = Some (Fin v1) /\
                        tget t b c i j2 = Some (Fin v2) /\ (v2 < v1)%R)).
Proof.
  intros Hm Hh Hw Ht nb nc h w.
  assert (Hm' : m <> CONSTANT) by (destruct Hm; subst; discriminate).
  split; [apply (builder_shape m); exact Ht|].
  intros b c i j Hb Hc Hi Hj.
  pose proof (fun b c i j => kernel_weights_entry m self region t b c i j
                Hm' Ht Hh Hw) as Hentry.
  pose proof (kernel_of_pos m) as Kp.
  pose proof (kernel_of_sym m) as Ks.
  pose proof (kernel_of_decreasing m) as Kd.
  set (hh := latent_height region) in *.
  set (ww := latent_width region) in *.
  subst h w.
  split; [|split; [|split; [|split]]].
  - eapply (kernel_symmetric_rows (kernel_of m) hh ww nb nc
              (mask_weight region) t); eauto; lia.
  - eapply (kernel_symmetric_rows (kernel_of m) hh ww nb nc
              (mask_weight region) t); eauto; lia.
  - eapply (kernel_symmetric_cols (kernel_of m) hh ww nb nc
              (mask_weight region) t); eauto; lia.
  - intros b' c' Hb' Hc'.
    eapply (kernel_tiled (kernel_of m) hh ww nb nc
              (mask_weight region) t); eauto; lia.
  - intros mw Hmw Hpos. split.
    + intros i2 Hi2 Hf.
      eapply (kernel_decreasing_rows (kernel_of m) hh ww nb nc
                (mask_weight region) t); eauto; lia.
    + intros j2 Hj2 Hf.
      eapply (kernel_decreasing_cols (kernel_of m) hh ww nb nc
                (mask_weight region) t); eauto; lia.
Qed.

(** A gaussian mask over the pixels 0..24 by 0..32, for four channels. *)
Lemma kernel_weights_symmetric_decreasing_tiled_witness :
  exists t, builder_of GAUSSIAN example_builder (example_region "gaussian")
              = Ok t /\
    tensor_shape 1 4 3 4 t /\
    tget t 0 3 2 1 = tget t 0 3 0 1.
Proof.
  eexists. split; [reflexivity|].
  pose proof (kernel_weights_symmetric_decreasing_tiled GAUSSIAN
    example_builder (example_region "gaussian") _
    (or_introl eq_refl) ltac:(now vm_compute) ltac:(now vm_compute) eq_refl)
    as [Hshape Hall].
  split; [exact Hshape|].
  destruct (Hall 0%nat 3%nat 0%nat 1%nat) as (_ & Hrow & _);
    [vm_compute; lia ..|].
  exact Hrow.
Defined.

(** ** Elementwise combination and slices of lists *)

Lemma zipM_zip_with {A B C : Type} (f : A -> B -> result C) (g : A -> B -> C)
    (l : list A) (k : list B) :
  length l = length k ->
  (forall i a b, l !! i = Some a -> k !! i = Some b -> f a b = Ok (g a b)) ->
  zipM f l k = Ok (zip_with g l k).
Proof.
  revert k. induction l as [|a l IH]; intros [|b k] Hlen Hf; simpl in *;
    try discriminate; [reflexivity|].
  rewrite (Hf 0%nat a b) by reflexivity. simpl.
  rewrite IH; [reflexivity | lia |].
  intros i a' b' Ha Hb. exact (Hf (S i) a' b' Ha Hb).
Qed.

Lemma zipM_ok_length {A B C : Type} (f : A -> B -> result C)
    (l : list A) (k : list B) (r : list C) :
  zipM f l k = Ok r -> length l = length k /\ length r = length l.
Proof.
  revert k r. induction l as [|a l IH]; intros [|b k] r; simpl;
    try discriminate.
  - intros [= <-]. split; reflexivity.
  - destruct (f a b) as [c|e]; simpl; [|discriminate].
    destruct (zipM f l k) as [cs|e] eqn:Hz; simpl; [|discriminate].
    intros [= <-]. destruct (IH k cs Hz) as [H1 H2]. simpl. lia.
Qed.

Lemma zipM_lookup {A B C : Type} (f : A -> B -> result C)
    (l : list A) (k : list B) (r : list C) (i : nat) (a : A) (b : B) :
  zipM f l k = Ok r -> l !! i = Some a -> k !! i = Some b ->
  exists c, r !! i = Some c /\ f a b = Ok c.
Proof.
  revert k r i. induction l as [|a' l IH]; intros [|b' k] r i; simpl;
    try discriminate.
  destruct (f a' b') as [c|e] eqn:Hf; simpl; [|discriminate].
  destruct (zipM f l k) as [cs|e] eqn:Hz; simpl; [|discriminate].
  intros [= <-]. destruct i as [|i]; simpl.
  - intros [= <-] [= <-]. exists c. split; [reflexivity | exact Hf].
  - intros Ha Hb. exact (IH k cs i Hz Ha Hb).
Qed.

Lemma slice_bound_within (n : nat) (a : Z) :
  0 <= a <= Z.of_nat n -> slice_bound n a = Z.to_nat a.
Proof.
  intros Ha. unfold slice_bound.
  destruct (Z.ltb_spec a 0); [lia|]. f_equal. lia.
Qed.

Lemma length_splice {A B : Type} (g : A -> B -> A) (s n : nat)
    (l : list A) (v : list B) :
  (s + n <= length l)%nat -> length v = n ->
  length (splice g s n l v) = length l.
Proof.
  intros Hl Hv. unfold splice.
  rewrite !length_app, length_zip_with, !length_take, !length_drop. lia.
Qed.

Lemma splice_lookup_inside {A B : Type} (g : A -> B -> A) (s n : nat)
    (l : list A) (v : list B) (i : nat) (a : A) (b : B) :
  (s <= i < s + n)%nat -> l !! i = Some a -> v !! (i - s)%nat = Some b ->
  splice g s n l v !! i = Some (g a b).
Proof.
  intros Hi Ha Hb. unfold splice.
  assert (Hlen : (i < length l)%nat) by (eapply lookup_lt_Some; eauto).
  rewrite lookup_app_r by (rewrite length_take; lia).
  rewrite length_take, Nat.min_l by lia.
  rewrite lookup_app_l.
  2:{ rewrite length_zip_with, length_take, length_drop.
      apply lookup_lt_Some in Hb. lia. }
  rewrite lookup_zip_with, lookup_take.
  destruct (decide (i - s < n)%nat); [|lia].
  rewrite lookup_drop. replace (s + (i - s))%nat with i by lia.
  rewrite Ha. simpl. rewrite Hb. reflexivity.
Qed.

Lemma splice_lookup_outside {A B : Type} (g : A -> B -> A) (s n : nat)
    (l : list A) (v : list B) (i : nat) :
  (s + n <= length l)%nat -> length v = n ->
  (i < s \/ s + n <= i)%nat ->
  splice g s n l v !! i = l !! i.
Proof.
  intros Hl Hv Hi. unfold splice. destruct Hi as [Hi|Hi].
  - rewrite lookup_app_l by (rewrite length_take; lia).
    rewrite lookup_take. destruct (decide (i < s)%nat); [reflexivity|lia].
  - rewrite lookup_app_r by (rewrite length_take; lia).
    rewrite length_take, Nat.min_l by lia.
    rewrite lookup_app_r.
    2:{ rewrite length_zip_with, length_take, length_drop. lia. }
    rewrite length_zip_with, length_take, length_drop.
    rewrite lookup_drop. f_equal. lia.
Qed.

Lemma update_slice_splice {A B : Type} (f : A -> B -> result A)
    (g : A -> B -> A) (l : list A) (a b : Z) (v : list B) :
  0 <= a <= b -> b <= Z.of_nat (length l) ->
  length v = Z.to_nat (b - a) ->
  (forall i x y, l !! (Z.to_nat a + i)%nat = Some x -> v !! i = Some y ->
     f x y = Ok (g x y)) ->
  update_slice f l a b v = Ok (splice g (Z.to_nat a) (Z.to_nat (b - a)) l v).
Proof.
  intros Hab Hb Hv Hf. unfold update_slice, splice.
  rewrite !slice_bound_within by lia.
  replace (Z.to_nat b - Z.to_nat a)%nat with (Z.to_nat (b - a)) by lia.
  rewrite (zipM_zip_with f g); [reflexivity | |].
  - rewrite length_take, length_drop. lia.
  - intros i x y Hx Hy. rewrite lookup_take in Hx.
    destruct (decide (i < Z.to_nat (b - a))%nat); [|discriminate].
    rewrite lookup_drop in Hx. exact (Hf i x y Hx Hy).
Qed.

Lemma py_slice_within {A : Type} (l : list A) (a b : Z) :
  0 <= a <= b -> b <= Z.of_nat (length l) ->
  py_slice l a b = take (Z.to_nat (b - a)) (drop (Z.to_nat a) l).
Proof.
  intros Hab Hb. unfold py_slice. rewrite !slice_bound_within by lia.
  f_equal. lia.
Qed.

Lemma py_slice_lookup {A : Type} (l : list A) (a b : Z) (i : nat) :
  0 <= a <= b -> b <= Z.of_nat (length l) ->
  Z.of_nat i < b - a ->
  py_slice l a b !! i = l !! (Z.to_nat a + i)%nat.
Proof.
  intros Hab Hb Hi. rewrite py_slice_within by lia.
  rewrite lookup_take. destruct (decide (i < Z.to_nat (b - a))%nat); [|lia].
  apply lookup_drop.
Qed.

Lemma length_py_slice {A : Type} (l : list A) (a b : Z) :
  0 <= a <= b -> b <= Z.of_nat (length l) ->
  length (py_slice l a b) = Z.to_nat (b - a).
Proof.
  intros Hab Hb. rewrite py_slice_within by lia.
  rewrite length_take, length_drop. lia.
Qed.

(** ** Shapes and entries of tensors *)

Lemma tensor_shape_batch (nb nc h w : nat) (t : tensor) (b : nat)
    (tb : list (list (list fval))) :
  tensor_shape nb nc h w t -> t !! b = Some tb ->
  (b < nb)%nat /\ length tb = nc /\ Forall (grid_shape h w) tb.
Proof.
  intros [Hlen Hall] Hb. split; [apply lookup_lt_Some in Hb; lia|].
  exact (Forall_lookup_1 _ _ _ _ Hall Hb).
Qed.

Lemma tensor_shape_grid (nb nc h w : nat) (t : tensor) (b c : nat)
    (tb : list (list (list fval))) (g : list (list fval)) :
  tensor_shape nb nc h w t -> t !! b = Some tb -> tb !! c = Some g ->
  (c < nc)%nat /\ length g = h /\ Forall (fun row => length row = w) g.
Proof.
  intros Ht Hb Hc. destruct (tensor_shape_batch _ _ _ _ _ _ _ Ht Hb)
    as (_ & Hlen & Hall).
  split; [apply lookup_lt_Some in Hc; lia|].
  exact (Forall_lookup_1 _ _ _ _ Hall Hc).
Qed.

Lemma tensor_shape_row (nb nc h w : nat) (t : tensor) (b c i : nat)
    (tb : list (list (list fval))) (g : list (list fval)) (row : list fval) :
  tensor_shape nb nc h w t -> t !! b = Some tb -> tb !! c = Some g ->
  g !! i = Some row -> (i < h)%nat /\ length row = w.
Proof.
  intros Ht Hb Hc Hi. destruct (tensor_shape_grid _ _ _ _ _ _ _ _ _ Ht Hb Hc)
    as (_ & Hlen & Hall).
  split; [apply lookup_lt_Some in Hi; lia|].
  exact (Forall_lookup_1 _ _ _ _ Hall Hi).
Qed.

Lemma tget_is_Some (nb nc h w : nat) (t : tensor) (b c i j : nat) :
  tensor_shape nb nc h w t ->
  (b < nb)%nat -> (c < nc)%nat -> (i < h)%nat -> (j < w)%nat ->
  is_Some (tget t b c i j).
Proof.
  intros Ht Hb Hc Hi Hj. unfold tget.
  destruct (lookup_lt_is_Some_2 t b) as [tb Htb]; [destruct Ht; lia|].
  destruct (tensor_shape_batch _ _ _ _ _ _ _ Ht Htb) as (_ & Hl & _).
  destruct (lookup_lt_is_Some_2 tb c) as [g Hg]; [lia|].
  destruct (tensor_shape_grid _ _ _ _ _ _ _ _ _ Ht Htb Hg) as (_ & Hl2 & _).
  destruct (lookup_lt_is_Some_2 g i) as [row Hrow]; [lia|].
  destruct (tensor_shape_row _ _ _ _ _ _ _ _ _ _ _ Ht Htb Hg Hrow)
    as (_ & Hl3).
  destruct (lookup_lt_is_Some_2 row j) as [x Hx]; [lia|].
  rewrite Htb. simpl. rewrite Hg. simpl. rewrite Hrow. simpl. eauto.
Qed.

Lemma tget_Some_lt (nb nc h w : nat) (t : tensor) (b c i j : nat) (x : fval) :
  tensor_shape nb nc h w t -> tget t b c i j = Some x ->
  (b < nb)%nat /\ (c < nc)%nat /\ (i < h)%nat /\ (j < w)%nat.
Proof.
  intros Ht. unfold tget.
  destruct (t !! b) as [tb|] eqn:Htb; simpl; [|done].
  destruct (tb !! c) as [g|] eqn:Hg; simpl; [|done].
  destruct (g !! i) as [row|] eqn:Hrow; simpl; [|done].
  intros Hx.
  destruct (tensor_shape_batch _ _ _ _ _ _ _ Ht Htb) as (? & _).
  destruct (tensor_shape_grid _ _ _ _ _ _ _ _ _ Ht Htb Hg) as (? & _).
  destruct (tensor_shape_row _ _ _ _ _ _ _ _ _ _ _ Ht Htb Hg Hrow) as (? & Hl).
  apply lookup_lt_Some in Hx. lia.
Qed.

Lemma tensor_shape_intro (nb nc h w : nat) (t : tensor) :
  length t = nb ->
  (forall b tb, t !! b = Some tb ->
     length tb = nc /\
     forall c g, tb !! c = Some g ->
       length g = h /\ forall i row, g !! i = Some row -> length row = w) ->
  tensor_shape nb nc h w t.
Proof.
  intros Hlen H. split; [exact Hlen|].
  apply Forall_lookup_2. intros b tb Hb. destruct (H b tb Hb) as [Hl Hc].
  split; [exact Hl|]. apply Forall_lookup_2. intros c g Hg.
  destruct (Hc c g Hg) as [Hl2 Hr]. split; [exact Hl2|].
  apply Forall_lookup_2. exact Hr.
Qed.

Lemma tensor_map_shape (f : fval -> fval) (nb nc h w : nat) (t : tensor) :
  tensor_shape nb nc h w t -> tensor_shape nb nc h w (tensor_map f t).
Proof.
  intros Ht. unfold tensor_map. apply tensor_shape_intro.
  - rewrite length_fmap. apply Ht.
  - intros b tb Hb. rewrite list_lookup_fmap in Hb.
    destruct (t !! b) as [tb0|] eqn:Htb; [|done]. injection Hb as <-.
    destruct (tensor_shape_batch _ _ _ _ _ _ _ Ht Htb) as (_ & Hl & _).
    split; [rewrite length_fmap; exact Hl|].
    intros c g Hg. rewrite list_lookup_fmap in Hg.
    destruct (tb0 !! c) as [g0|] eqn:Hg0; [|done]. injection Hg as <-.
    destruct (tensor_shape_grid _ _ _ _ _ _ _ _ _ Ht Htb Hg0) as (_ & Hl2 & _).
    split; [rewrite length_fmap; exact Hl2|].
    intros i row Hrow. rewrite list_lookup_fmap in Hrow.
    destruct (g0 !! i) as [row0|] eqn:Hrow0; [|done]. injection Hrow as <-.
    destruct (tensor_shape_row _ _ _ _ _ _ _ _ _ _ _ Ht Htb Hg0 Hrow0)
      as (_ & Hl3).
    rewrite length_fmap. exact Hl3.
Qed.

Lemma tget_tensor_map (f : fval -> fval) (t : tensor) (b c i j : nat) :
  tget (tensor_map f t) b c i j = f <$> tget t b c i j.
Proof.
  unfold tget, tensor_map. rewrite list_lookup_fmap.
  destruct (t !! b) as [tb|]; simpl; [|reflexivity].
  rewrite list_lookup_fmap.
  destruct (tb !! c) as [g|]; simpl; [|reflexivity].
  rewrite list_lookup_fmap.
  destruct (g !! i) as [row|]; simpl; [|reflexivity].
  apply list_lookup_fmap.
Qed.

(** ** Assignments to the sub-rectangle of a region *)

Section RegionSplice.

Variable op : fval -> fval -> fval.
Variable region : CanvasRegion.
Variables nb nc h w : nat.
Variables t v : tensor.

Hypothesis t_shape : tensor_shape nb nc h w t.
Hypothesis v_shape :
  tensor_shape nb nc (Z.to_nat (latent_height region))
    (Z.to_nat (latent_width region)) v.
Hypothesis within : region_within h w region.

Let r0 := Z.to_nat (latent_row_init region).
Let c0 := Z.to_nat (latent_col_init region).
Let nh := Z.to_nat (latent_height region).
Let nw := Z.to_nat (latent_width region).

Lemma within_nat : (r0 + nh <= h)%nat /\ (c0 + nw <= w)%nat.
Proof.
  unfold r0, c0, nh, nw, latent_height, latent_width.
  destruct within as (? & ? & ? & ?). lia.
Qed.

Lemma region_setitem_ok :
  region_setitem op t region v = Ok (region_splice op region t v).
Proof.
  destruct within as (Hr & Hr' & Hc & Hc').
  unfold region_setitem, tensor_setitem, region_splice.
  apply zipM_zip_with.
  { destruct t_shape, v_shape. congruence. }
  intros b tb vb Htb Hvb.
  destruct (tensor_shape_batch _ _ _ _ _ _ _ t_shape Htb) as (_ & Hl & _).
  destruct (tensor_shape_batch _ _ _ _ _ _ _ v_shape Hvb) as (_ & Hl' & _).
  apply zipM_zip_with; [congruence|].
  intros c g gv Hg Hgv.
  destruct (tensor_shape_grid _ _ _ _ _ _ _ _ _ t_shape Htb Hg)
    as (_ & Hlg & Hrows).
  destruct (tensor_shape_grid _ _ _ _ _ _ _ _ _ v_shape Hvb Hgv)
    as (_ & Hlgv & Hvrows).
  unfold latent_height, latent_width in *.
  apply update_slice_splice; [lia | lia | exact Hlgv |].
  intros i row vrow Hrow Hvrow.
  pose proof (Forall_lookup_1 _ _ _ _ Hrows Hrow) as Hlrow.
  pose proof (Forall_lookup_1 _ _ _ _ Hvrows Hvrow) as Hlvrow.
  simpl in Hlrow, Hlvrow.
  apply update_slice_splice; [lia | lia | exact Hlvrow |].
  intros. reflexivity.
Qed.

Lemma region_splice_shape :
  tensor_shape nb nc h w (region_splice op region t v).
Proof.
  pose proof within_nat as [Hnh Hnw].
  unfold region_splice. fold r0 c0 nh nw.
  apply tensor_shape_intro.
  { rewrite length_zip_with. destruct t_shape, v_shape. lia. }
  intros b tb' Hb. apply lookup_zip_with_Some in Hb
    as (tb & vb & -> & Htb & Hvb).
  destruct (tensor_shape_batch _ _ _ _ _ _ _ t_shape Htb) as (_ & Hl & _).
  destruct (tensor_shape_batch _ _ _ _ _ _ _ v_shape Hvb) as (_ & Hl' & _).
  split; [rewrite length_zip_with; lia|].
  intros c g' Hc. apply lookup_zip_with_Some in Hc
    as (g & gv & -> & Hg & Hgv).
  destruct (tensor_shape_grid _ _ _ _ _ _ _ _ _ t_shape Htb Hg)
    as (_ & Hlg & Hrows).
  destruct (tensor_shape_grid _ _ _ _ _ _ _ _ _ v_shape Hvb Hgv)
    as (_ & Hlgv & Hvrows).
  fold nh in Hlgv. fold nw in Hvrows.
  split; [rewrite length_splice; lia|].
  intros i row' Hrow'.
  assert (Hi : (i < h)%nat).
  { apply lookup_lt_Some in Hrow'. rewrite length_splice in Hrow'; lia. }
  destruct (lookup_lt_is_Some_2 g i) as [row Hrow]; [lia|].
  pose proof (Forall_lookup_1 _ _ _ _ Hrows Hrow) as Hlrow. simpl in Hlrow.
  destruct (decide (r0 <= i < r0 + nh)%nat) as [Hin|Hout].
  - destruct (lookup_lt_is_Some_2 gv (i - r0)) as [vrow Hvrow]; [lia|].
    pose proof (Forall_lookup_1 _ _ _ _ Hvrows Hvrow) as Hlvrow.
    simpl in Hlvrow.
    rewrite (splice_lookup_inside _ _ _ _ _ _ row vrow) in Hrow'
      by assumption.
    injection Hrow' as <-. rewrite length_splice; lia.
  - rewrite splice_lookup_outside in Hrow' by lia.
    rewrite Hrow in Hrow'. injection Hrow' as <-. exact Hlrow.
Qed.

Lemma tget_region_splice_inside (b c i j : nat) (x y : fval) :
  covers region i j ->
  tget t b c i j = Some x ->
  tget v b c (i - r0) (j - c0) = Some y ->
  tget (region_splice op region t v) b c i j = Some (op x y).
Proof.
  intros [Hi Hj]. pose proof within_nat as [Hnh Hnw].
  destruct within as (Hr & Hr' & Hc & Hc').
  unfold tget, region_splice. fold r0 c0 nh nw.
  destruct (t !! b) as [tb|] eqn:Htb; simpl; [|done].
  destruct (tb !! c) as [g|] eqn:Hg; simpl; [|done].
  destruct (g !! i) as [row|] eqn:Hrow; simpl; [|done].
  intros Hx.
  destruct (v !! b) as [vb|] eqn:Hvb; simpl; [|done].
  destruct (vb !! c) as [gv|] eqn:Hgv; simpl; [|done].
  destruct (gv !! (i - r0)%nat) as [vrow|] eqn:Hvrow; simpl; [|done].
  intros Hy.
  rewrite lookup_zip_with, Htb, Hvb. simpl.
  rewrite lookup_zip_with, Hg, Hgv. simpl.
  assert (Hi' : (r0 <= i < r0 + nh)%nat).
  { unfold r0, nh, latent_height. lia. }
  assert (Hj' : (c0 <= j < c0 + nw)%nat).
  { unfold c0, nw, latent_width. lia. }
  rewrite (splice_lookup_inside _ _ _ _ _ _ row vrow) by assumption.
  simpl. apply splice_lookup_inside; assumption.
Qed.

Lemma tget_region_splice_outside (b c i j : nat) :
  ~ covers region i j ->
  tget (region_splice op region t v) b c i j = tget t b c i j.
Proof.
  intros Hout. pose proof within_nat as [Hnh Hnw].
  destruct within as (Hr & Hr' & Hc & Hc').
  unfold tget, region_splice. fold r0 c0 nh nw.
  rewrite lookup_zip_with.
  destruct (t !! b) as [tb|] eqn:Htb; simpl; [|reflexivity].
  destruct (tensor_shape_batch _ _ _ _ _ _ _ t_shape Htb) as (Hb & Hl & _).
  destruct (lookup_lt_is_Some_2 v b) as [vb Hvb];
    [destruct v_shape; lia|].
  destruct (tensor_shape_batch _ _ _ _ _ _ _ v_shape Hvb) as (_ & Hl' & _).
  rewrite Hvb. simpl. rewrite lookup_zip_with.
  destruct (tb !! c) as [g|] eqn:Hg; simpl; [|reflexivity].
  destruct (lookup_lt_is_Some_2 vb c) as [gv Hgv].
  { apply lookup_lt_Some in Hg. lia. }
  rewrite Hgv. simpl.
  destruct (tensor_shape_grid _ _ _ _ _ _ _ _ _ t_shape Htb Hg)
    as (_ & Hlg & Hrows).
  destruct (tensor_shape_grid _ _ _ _ _ _ _ _ _ v_shape Hvb Hgv)
    as (_ & Hlgv & Hvrows).
  fold nh in Hlgv. fold nw in Hvrows.
  destruct (decide (r0 <= i < r0 + nh)%nat) as [Hin|Hrow_out].
  - destruct (lookup_lt_is_Some_2 g i) as [row Hrow]; [lia|].
    destruct (lookup_lt_is_Some_2 gv (i - r0)) as [vrow Hvrow]; [lia|].
    pose proof (Forall_lookup_1 _ _ _ _ Hrows Hrow) as Hlrow.
    pose proof (Forall_lookup_1 _ _ _ _ Hvrows Hvrow) as Hlvrow.
    simpl in Hlrow, Hlvrow.
    rewrite (splice_lookup_inside _ _ _ _ _ _ row vrow) by assumption.
    rewrite Hrow. simpl.
    apply splice_lookup_outside; [lia | lia |].
    unfold covers in Hout. unfold r0, c0, nh, nw, latent_height,
      latent_width in *. lia.
  - rewrite splice_lookup_outside by lia. reflexivity.
Qed.

Lemma region_getitem_shape :
  tensor_shape nb nc nh nw (region_getitem t region).
Proof.
  destruct within as (Hr & Hr' & Hc & Hc').
  unfold region_getitem, tensor_getitem. apply tensor_shape_intro.
  { rewrite length_fmap. apply t_shape. }
  intros b tb' Hb. rewrite list_lookup_fmap in Hb.
  destruct (t !! b) as [tb|] eqn:Htb; [|done]. injection Hb as <-.
  destruct (tensor_shape_batch _ _ _ _ _ _ _ t_shape Htb) as (_ & Hl & _).
  split; [rewrite length_fmap; exact Hl|].
  intros c g' Hg'. rewrite list_lookup_fmap in Hg'.
  destruct (tb !! c) as [g|] eqn:Hg; [|done]. injection Hg' as <-.
  destruct (tensor_shape_grid _ _ _ _ _ _ _ _ _ t_shape Htb Hg)
    as (_ & Hlg & Hrows).
  split.
  { rewrite length_fmap, length_py_slice by lia. reflexivity. }
  intros i row' Hrow'. rewrite list_lookup_fmap in Hrow'.
  destruct (py_slice g _ _ !! i) as [row|] eqn:Hrow; [|done].
  injection Hrow' as <-.
  assert (Hi : Z.of_nat i < latent_row_end region - latent_row_init region).
  { apply lookup_lt_Some in Hrow. rewrite length_py_slice in Hrow; lia. }
  rewrite py_slice_lookup in Hrow by lia.
  pose proof (Forall_lookup_1 _ _ _ _ Hrows Hrow) as Hlrow. simpl in Hlrow.
  rewrite length_py_slice by lia. reflexivity.
Qed.

Lemma tget_region_getitem (b c i j : nat) :
  (i < nh)%nat -> (j < nw)%nat ->
  tget (region_getitem t region) b c i j = tget t b c (r0 + i) (c0 + j).
Proof.
  intros Hi Hj. destruct within as (Hr & Hr' & Hc & Hc').
  unfold nh, nw, latent_height, latent_width in Hi, Hj.
  unfold tget, region_getitem, tensor_getitem.
  rewrite list_lookup_fmap.
  destruct (t !! b) as [tb|] eqn:Htb; simpl; [|reflexivity].
  rewrite list_lookup_fmap.
  destruct (tb !! c) as [g|] eqn:Hg; simpl; [|reflexivity].
  destruct (tensor_shape_grid _ _ _ _ _ _ _ _ _ t_shape Htb Hg)
    as (_ & Hlg & Hrows).
  rewrite list_lookup_fmap, py_slice_lookup by lia. fold r0.
  destruct (g !! (r0 + i)%nat) as [row|] eqn:Hrow; simpl; [|reflexivity].
  pose proof (Forall_lookup_1 _ _ _ _ Hrows Hrow) as Hlrow. simpl in Hlrow.
  apply py_slice_lookup; lia.
Qed.

End RegionSplice.


(** ** Seeding and rerolls *)

Lemma coversb_covers (region : CanvasRegion) (i j : nat) :
  coversb region i j = true <-> covers region i j.
Proof.
  unfold coversb, covers.
  rewrite !andb_true_iff, !Z.leb_le, !Z.ltb_lt. tauto.
Qed.

Lemma coversb_not_covers (region : CanvasRegion) (i j : nat) :
  coversb region i j = false <-> ~ covers region i j.
Proof.
  rewrite <- coversb_covers. destruct (coversb region i j); split; congruence.
Qed.

(** Against C5 as stated: with two overrides of the same region, seeded 1
    and 2, over a canvas of one latent position, the working latents in the
    rectangle of the first override hold the draw of seed 2, not that of
    seed 1. *)
Lemma reroll_overlap_last_writer_wins :
  exists st init_noise latents,
    seed_latents 1 constant_randn ∅ 8 8 0
      [(mkCanvasRegion 0 8 0 8 0 1 0 1, 1);
       (mkCanvasRegion 0 8 0 8 0 1 0 1, 2)] = Ok (st, init_noise, latents) /\
    tget (read st latents) 0 0 0 0 = Some (Fin 2) /\
    tget (constant_randn 1 1 1 1 1) 0 0 0 0 = Some (Fin 1) /\
    tget (read st latents) 0 0 0 0 <> tget (constant_randn 1 1 1 1 1) 0 0 0 0.
Proof.
  do 3 eexists. split; [vm_compute; reflexivity|].
  split; [reflexivity|]. split; [reflexivity|].
  intros H. assert (H' : Some (Fin 2) = Some (Fin 1)) by exact H.
  injection H' as H'. lra.
Qed.

Lemma foldM_app {A S : Type} (f : S -> A -> result S) (l k : list A) (s : S) :
  foldM f (l ++ k) s = bind (foldM f l s) (foldM f k).
Proof.
  revert s. induction l as [|a l IH]; intros s; simpl; [reflexivity|].
  destruct (f s a); simpl; [apply IH | reflexivity].
Qed.

Lemma read_insert (st : gmap loc tensor) (l : loc) (t : tensor) :
  read (<[l := t]> st) l = t.
Proof. unfold read. apply lookup_total_insert_eq. Qed.

Lemma read_lookup (st : gmap loc tensor) (l : loc) (t : tensor) :
  st !! l = Some t -> read st l = t.
Proof. unfold read. intros H. rewrite lookup_total_alt, H. reflexivity. Qed.

Lemma alloc_fresh (st : gmap loc tensor) (t : tensor) :
(snd (alloc st t) ∉ dom st) /\
  fst (alloc st t) !! snd (alloc st t) = Some t /\
  forall l, l ∈ dom st -> fst (alloc st t) !! l = st !! l.
Proof.
  unfold alloc. simpl. pose proof (is_fresh (dom st)) as Hfresh.
  split; [exact Hfresh|]. split; [apply lookup_insert_eq|].
  intros l Hl. apply lookup_insert_ne. intros <-. exact (Hfresh Hl).
Qed.

Section Seeding.

Variable in_channels : Z.
Variable randn_values : Z -> nat -> nat -> nat -> nat -> tensor.

(** The generator returns a tensor of the shape it is asked for. *)
Hypothesis randn_shape : forall seed nb nc h w,
  tensor_shape nb nc h w (randn_values seed nb nc h w).
Hypothesis in_channels_nonneg : 0 <= in_channels.

Let nc := Z.to_nat in_channels.

Lemma torch_randn_ok (seed h w : Z) :
  0 <= h -> 0 <= w ->
  torch_randn randn_values seed batch_size in_channels h w =
    Ok (randn_values seed 1 nc (Z.to_nat h) (Z.to_nat w)).
Proof.
  intros Hh Hw. unfold torch_randn, neg_dim, batch_size.
  destruct (Z.ltb_spec in_channels 0); [lia|].
  destruct (Z.ltb_spec h 0); [lia|].
  destruct (Z.ltb_spec w 0); [lia|].
  reflexivity.
Qed.

Let reroll_draw := draw_of randn_values nc.

Lemma reroll_ok (h w : nat) (latents : loc) (st : gmap loc tensor)
    (t : tensor) (entry : CanvasRegion * Z) :
  st !! latents = Some t -> tensor_shape 1 nc h w t ->
  region_within h w (fst entry) ->
  reroll in_channels randn_values latents st entry =
    Ok (<[latents := region_splice assign (fst entry) t (reroll_draw entry)]>
          st).
Proof.
  intros Ht Hshape Hin. destruct entry as [region s]. simpl in *.
  unfold reroll.
  pose proof Hin as (Hr & Hr' & Hc & Hc').
  rewrite torch_randn_ok by lia. simpl.
  rewrite (read_lookup st latents t Ht).
  rewrite (region_setitem_ok assign region 1 nc h w);
    [reflexivity | exact Hshape | apply randn_shape | exact Hin].
Qed.

Lemma foldM_reroll (h w : nat) (latents : loc)
    (rerolls : list (CanvasRegion * Z)) :
  Forall (fun e => region_within h w (fst e)) rerolls ->
  forall (st : gmap loc tensor) (t : tensor),
  st !! latents = Some t -> tensor_shape 1 nc h w t ->
  exists st' t',
    foldM (reroll in_channels randn_values latents) rerolls st = Ok st' /\
    st' !! latents = Some t' /\ tensor_shape 1 nc h w t' /\
    (forall l, l <> latents -> st' !! l = st !! l) /\
    forall b c i j : nat, (b < 1)%nat -> (c < nc)%nat ->
      tget t' b c i j =
        match last_override rerolls i j with
        | Some e =>
            tget (reroll_draw e) b c
              (i - Z.to_nat (latent_row_init (fst e)))
              (j - Z.to_nat (latent_col_init (fst e)))
        | None => tget t b c i j
        end.
Proof.
  induction 1 as [|e rerolls He Hall IH]; intros st t Ht Hshape.
  - exists st, t. simpl. split; [reflexivity|]. split; [exact Ht|].
    split; [exact Hshape|]. split; reflexivity.
  - simpl. rewrite (reroll_ok h w latents st t e Ht Hshape He). simpl.
    set (t1 := region_splice assign (fst e) t (reroll_draw e)).
    assert (Hshape1 : tensor_shape 1 nc h w t1).
    { apply region_splice_shape; [exact Hshape | apply randn_shape | exact He]. }
    destruct (IH (<[latents := t1]> st) t1) as (st' & t' & Hf & Ht' & Hs' & Hfr & Hv);
      [apply lookup_insert_eq | exact Hshape1 |].
    exists st', t'. split; [exact Hf|]. split; [exact Ht'|].
    split; [exact Hs'|]. split.
    { intros l Hl. rewrite (Hfr l Hl). apply lookup_insert_ne. congruence. }
    intros b c i j Hb Hc. rewrite (Hv b c i j Hb Hc).
    destruct (last_override rerolls i j) as [e'|]; [reflexivity|].
    destruct (coversb (fst e) i j) eqn:Hcov.
    + apply coversb_covers in Hcov.
      pose proof Hcov as [Hci Hcj]. pose proof He as (Hr & Hr' & Hcc & Hcc').
      destruct (tget_is_Some 1 nc h w t b c i j Hshape) as [x Hx]; try lia.
      destruct (tget_is_Some 1 nc (Z.to_nat (latent_height (fst e)))
                  (Z.to_nat (latent_width (fst e))) (reroll_draw e) b c
                  (i - Z.to_nat (latent_row_init (fst e)))
                  (j - Z.to_nat (latent_col_init (fst e))))
        as [y Hy]; [apply randn_shape | lia | lia | | |].
      { unfold latent_height. lia. }
      { unfold latent_width. lia. }
      unfold t1.
      rewrite (tget_region_splice_inside assign (fst e) h w t
                 (reroll_draw e) He b c i j x y Hcov Hx Hy).
      rewrite Hy. reflexivity.
    + apply coversb_not_covers in Hcov. unfold t1.
      apply (tget_region_splice_outside assign (fst e) 1 nc h w);
        [exact Hshape | apply randn_shape | exact He | exact Hcov].
Qed.

(** C5, as the code has it: for a list of overrides whose regions lie within
    the canvas, the seeding succeeds; [init_noise] and [latents] are two
    distinct new tensor objects and every object that existed before is
    untouched; [init_noise] holds exactly the draw of the main seed; and
    each position of [latents] holds the draw of the last override of the
    list whose rectangle covers it, taken at the position relative to that
    rectangle, or the value of [init_noise] when no override covers it. *)
Theorem seed_latents_last_override (st : gmap loc tensor)
    (canvas_height canvas_width seed : Z)
    (seed_reroll_regions : list (CanvasRegion * Z)) :
  0 <= canvas_height `div` 8 -> 0 <= canvas_width `div` 8 ->
  let h := Z.to_nat (canvas_height `div` 8) in
  let w := Z.to_nat (canvas_width `div` 8) in
  Forall (fun e => region_within h w (fst e)) seed_reroll_regions ->
  exists st' init_noise latents t,
    seed_latents in_channels randn_values st canvas_height canvas_width seed
      seed_reroll_regions = Ok (st', init_noise, latents) /\
    init_noise <> latents /\ (init_noise ∉ dom st) /\ (latents ∉ dom st) /\
    (forall l, l ∈ dom st -> st' !! l = st !! l) /\
    st' !! init_noise = Some (randn_values seed 1 nc h w) /\
    st' !! latents = Some t /\ tensor_shape 1 nc h w t /\
    forall b c i j : nat, (b < 1)%nat -> (c < nc)%nat ->
      tget t b c i j =
        match last_override seed_reroll_regions i j with
        | Some (region, seed_reroll) =>
            tget (randn_values seed_reroll 1 nc
                    (Z.to_nat (latent_height region))
                    (Z.to_nat (latent_width region))) b c
              (i - Z.to_nat (latent_row_init region))
              (j - Z.to_nat (latent_col_init region))
        | None => tget (randn_values seed 1 nc h w) b c i j
        end.
Proof.
  intros Hh Hw h w Hall. unfold seed_latents.
  rewrite torch_randn_ok by assumption. cbn [bind]. fold h w.
  set (noise := randn_values seed 1 nc h w).
  destruct (alloc_fresh st noise) as (Hf1 & Hl1 & Hfr1).
  destruct (alloc st noise) as [st1 init_noise]. cbn [fst snd] in *.
  rewrite (read_lookup st1 init_noise noise Hl1).
  destruct (alloc_fresh st1 noise) as (Hf2 & Hl2 & Hfr2).
  destruct (alloc st1 noise) as [st2 latents]. cbn [fst snd] in *.
  assert (Hin1 : init_noise ∈ dom st1) by (apply elem_of_dom; eauto).
  assert (Hne : init_noise <> latents) by (intros ->; exact (Hf2 Hin1)).
  destruct (foldM_reroll h w latents seed_reroll_regions Hall st2 noise Hl2)
    as (st' & t & Hfold & Ht & Hshape & Hframe & Hval);
    [apply randn_shape|].
  rewrite Hfold. simpl.
  exists st', init_noise, latents, t. split; [reflexivity|].
  split; [exact Hne|]. split; [exact Hf1|].
  assert (Hsub : forall l, l ∈ dom st -> l ∈ dom st1).
  { intros l Hl. apply elem_of_dom. rewrite (Hfr1 l Hl).
    apply elem_of_dom. exact Hl. }
  split; [intros Hl; exact (Hf2 (Hsub _ Hl))|].
  split.
  { intros l Hl. rewrite Hframe by (intros ->; exact (Hf2 (Hsub _ Hl))).
    rewrite (Hfr2 l (Hsub l Hl)). exact (Hfr1 l Hl). }
  split.
  { rewrite Hframe by exact Hne. rewrite (Hfr2 init_noise Hin1). exact Hl1. }
  split; [exact Ht|]. split; [exact Hshape|].
  intros b c i j Hb Hc. rewrite (Hval b c i j Hb Hc).
  destruct (last_override seed_reroll_regions i j) as [[region s]|];
    reflexivity.
Qed.

End Seeding.

Lemma constant_randn_shape (seed : Z) (nb nc h w : nat) :
  tensor_shape nb nc h w (constant_randn seed nb nc h w).
Proof.
  unfold constant_randn. apply tensor_shape_tile. split.
  - apply length_replicate.
  - apply Forall_replicate. apply length_replicate.
Qed.

(** Two overrides over a canvas of 2 by 2 latent positions. *)
Lemma seed_latents_last_override_witness :
  exists st' init_noise latents,
    seed_latents 1 constant_randn ∅ 16 16 0
      [(mkCanvasRegion 0 8 0 16 0 1 0 2, 1);
       (mkCanvasRegion 0 16 8 16 0 2 1 2, 2)] = Ok (st', init_noise, latents) /\
    init_noise <> latents /\
    st' !! init_noise = Some (constant_randn 0 1 1 2 2).
Proof.
  destruct (seed_latents_last_override 1 constant_randn constant_randn_shape
              ltac:(lia) ∅ 16 16 0
              [(mkCanvasRegion 0 8 0 16 0 1 0 2, 1);
               (mkCanvasRegion 0 16 8 16 0 2 1 2, 2)]
              ltac:(now vm_compute) ltac:(now vm_compute))
    as (st' & init_noise & latents & t & Hrun & Hne & _ & _ & _ & Hinit & _).
  - repeat constructor; vm_compute; congruence.
  - exists st', init_noise, latents. split; [exact Hrun|].
    split; [exact Hne | exact Hinit].
Defined.

(** ** Injection of the reference images *)

Lemma py_int_nonneg (r : R) : (0 <= r)%R -> py_int (Fin r) = Ok (Int_part r).
Proof.
  intros Hr. unfold py_int. apply Rltb_false in Hr. rewrite Hr. reflexivity.
Qed.

Lemma Int_part_half_of_ten : Int_part (1 / 2 * IZR 10) = 5.
Proof. symmetry. apply Int_part_spec. simpl. lra. Qed.

Section Injection.

Variable image : Type.
Variable scheduler : Scheduler.

Lemma influence_step_floor (n offset : Z) (region : Image2ImageRegion image)
    (s : R) :
  strength region = Fin s -> (0 <= s)%R -> 0 <= n ->
  influence_step image n offset region =
    Ok (Z.min (Int_part (s * IZR n) + offset) n).
Proof.
  intros Hs Hpos Hn. unfold influence_step. rewrite Hs. unfold fofZ.
  cbn [fmul]. rewrite py_int_nonneg.
  - simpl. rewrite (Rmult_comm (IZR n) s). reflexivity.
  - apply Rmult_le_pos; [apply IZR_le; lia | exact Hpos].
Qed.

(** C4: for an image-driven region whose strength [s] is a number of
    [0, 1], the injection at the timestep of index [i] and value [t] writes
    into the latents exactly when
    [i < min(floor(s * num_inference_steps) + offset, num_inference_steps)].
    When it does, the latents object is updated in place: inside the latent
    rectangle of the region it holds the scheduler's [add_noise] of the
    reference latents of the region with the slice of [init_noise] at the
    coordinates of the region, for the timesteps [[t]]; outside it is
    unchanged; and [init_noise] is untouched.  When it does not, the store is
    returned as it is.  With the strength 0.5, 10 steps and the offset 0 the
    bound is 5. *)
Theorem inject_iff_before_influence_step
    (region : Image2ImageRegion image) (s : R) (ref : tensor)
    (num_inference_steps offset i t : Z)
    (st : gmap loc tensor) (init_noise latents : loc)
    (noise current : tensor) (nc h w : nat) :
  strength region = Fin s -> (0 <= s <= 1)%R -> 0 <= num_inference_steps ->
  reference_latents region = Some ref ->
  init_noise <> latents ->
  st !! init_noise = Some noise -> st !! latents = Some current ->
  tensor_shape 1 nc h w noise -> tensor_shape 1 nc h w current ->
  region_within h w region ->
  let injected :=
    add_noise scheduler ref (region_getitem noise region) [t] in
  tensor_shape 1 nc (Z.to_nat (latent_height region))
    (Z.to_nat (latent_width region)) injected ->
  let influence :=
    Z.min (Int_part (s * IZR num_inference_steps) + offset)
      num_inference_steps in
  (i < influence ->
     exists updated,
       inject image scheduler init_noise latents num_inference_steps offset
         i t st region = Ok (<[latents := updated]> st) /\
       <[latents := updated]> st !! init_noise = Some noise /\
       tensor_shape 1 nc h w updated /\
       forall b c p q : nat, (b < 1)%nat -> (c < nc)%nat ->
         tget updated b c p q =
           if coversb region p q
           then tget injected b c
                  (p - Z.to_nat (latent_row_init region))
                  (q - Z.to_nat (latent_col_init region))
           else tget current b c p q) /\
  (influence <= i ->
     inject image scheduler init_noise latents num_inference_steps offset
       i t st region = Ok st) /\
  (s = (1 / 2)%R -> num_inference_steps = 10 -> offset = 0 -> influence = 5).
Proof.
  intros Hs Hs01 Hn Href Hne Hnoise Hcur Hshn Hshc Hin injected Hshi influence.
  assert (Hinf : influence_step image num_inference_steps offset region =
                 Ok influence).
  { apply influence_step_floor; [exact Hs | lra | exact Hn]. }
  split; [|split].
  - intros Hlt. unfold inject. rewrite Hinf. cbn [bind].
    destruct (Z.ltb_spec i influence) as [_|Hge]; [|lia].
    rewrite Href. rewrite (read_lookup st init_noise noise Hnoise).
    rewrite (read_lookup st latents current Hcur).
    change (replicate (Z.to_nat batch_size) t) with [t]. fold injected.
    rewrite (region_setitem_ok assign region 1 nc h w current injected
               Hshc Hshi Hin). cbn [bind].
    exists (region_splice assign region current injected).
    split; [reflexivity|]. split.
    { rewrite lookup_insert_ne by congruence. exact Hnoise. }
    split; [apply region_splice_shape; assumption|].
    intros b c p q Hb Hc.
    destruct (coversb region p q) eqn:Hcov.
    + apply coversb_covers in Hcov.
      pose proof Hcov as [Hp Hq]. pose proof Hin as (Hr & Hr' & Hcc & Hcc').
      destruct (tget_is_Some 1 nc h w current b c p q Hshc) as [x Hx];
        try lia.
      destruct (tget_is_Some _ _ _ _ injected b c
                  (p - Z.to_nat (latent_row_init region))
                  (q - Z.to_nat (latent_col_init region)) Hshi)
        as [y Hy]; try lia.
      { unfold latent_height. lia. }
      { unfold latent_width. lia. }
      rewrite (tget_region_splice_inside assign region h w current injected
                 Hin b c p q x y Hcov Hx Hy).
      rewrite Hy. reflexivity.
    + apply coversb_not_covers in Hcov.
      apply (tget_region_splice_outside assign region 1 nc h w); assumption.
  - intros Hge. unfold inject. rewrite Hinf. cbn [bind].
    destruct (Z.ltb_spec i influence) as [Hlt|_]; [lia|]. reflexivity.
  - intros -> -> ->. unfold influence.
    rewrite Int_part_half_of_ten. reflexivity.
Qed.

End Injection.

(** With the strength 0.5 and 10 steps the injection at index 4 writes the
    noised reference, and at index 5 it leaves the store as it is. *)
Lemma inject_iff_before_influence_step_witness :
  (exists updated,
     inject unit example_scheduler 0%nat 1%nat 10 0 4 6 example_store
       example_image_region = Ok (<[1%nat := updated]> example_store) /\
     tget updated 0 0 0 0 = Some (Fin (7 + 3))) /\
  inject unit example_scheduler 0%nat 1%nat 10 0 5 5 example_store
    example_image_region = Ok example_store.
Proof.
  split.
  - pose proof (inject_iff_before_influence_step unit example_scheduler
      example_image_region (1 / 2) [[[[Fin 7]]]] 10 0 4 6 example_store
      0%nat 1%nat [[[[Fin 3]]]] [[[[Fin 1]]]] 1%nat 1%nat 1%nat
      eq_refl ltac:(lra) ltac:(lia) eq_refl ltac:(lia) eq_refl eq_refl
      ltac:(repeat constructor) ltac:(repeat constructor)
      ltac:(vm_compute; intuition congruence)
      ltac:(repeat constructor)) as (Hwrite & _ & Hfive).
    rewrite (Hfive eq_refl eq_refl eq_refl) in Hwrite.
    destruct (Hwrite ltac:(lia)) as (updated & Hrun & _ & _ & Hval).
    exists updated. split; [exact Hrun|].
    rewrite (Hval 0%nat 0%nat 0%nat 0%nat) by lia. reflexivity.
  - pose proof (inject_iff_before_influence_step unit example_scheduler
      example_image_region (1 / 2) [[[[Fin 7]]]] 10 0 5 5 example_store
      0%nat 1%nat [[[[Fin 3]]]] [[[[Fin 1]]]] 1%nat 1%nat 1%nat
      eq_refl ltac:(lra) ltac:(lia) eq_refl ltac:(lia) eq_refl eq_refl
      ltac:(repeat constructor) ltac:(repeat constructor)
      ltac:(vm_compute; intuition congruence)
      ltac:(repeat constructor)) as (_ & Hskip & Hfive).
    rewrite (Hfive eq_refl eq_refl eq_refl) in Hskip.
    apply Hskip. lia.
Defined.

(** ** Elementwise operations on tensors of one shape *)

Lemma tget_tensor_zip (op : fval -> fval -> fval) (t1 t2 : tensor)
    (b c i j : nat) (x y : fval) :
  tget t1 b c i j = Some x -> tget t2 b c i j = Some y ->
  tget (tensor_zip op t1 t2) b c i j = Some (op x y).
Proof.
  unfold tget, tensor_zip.
  destruct (t1 !! b) as [tb1|] eqn:H1; simpl; [|done].
  destruct (tb1 !! c) as [g1|] eqn:H2; simpl; [|done].
  destruct (g1 !! i) as [r1|] eqn:H3; simpl; [|done]. intros Hx.
  destruct (t2 !! b) as [tb2|] eqn:H1'; simpl; [|done].
  destruct (tb2 !! c) as [g2|] eqn:H2'; simpl; [|done].
  destruct (g2 !! i) as [r2|] eqn:H3'; simpl; [|done]. intros Hy.
  rewrite lookup_zip_with, H1, H1'. simpl.
  rewrite lookup_zip_with, H2, H2'. simpl.
  rewrite lookup_zip_with, H3, H3'. simpl.
  rewrite lookup_zip_with, Hx, Hy. reflexivity.
Qed.

Section SameShape.

Variable op : fval -> fval -> fval.
Variables nb nc h w : nat.
Variables t1 t2 : tensor.
Hypothesis shape1 : tensor_shape nb nc h w t1.
Hypothesis shape2 : tensor_shape nb nc h w t2.

Lemma tensor_map2_ok : tensor_map2 op t1 t2 = Ok (tensor_zip op t1 t2).
Proof.
  unfold tensor_map2, tensor_zip, grid_map2.
  apply zipM_zip_with; [destruct shape1, shape2; congruence|].
  intros b tb1 tb2 H1 H2.
  destruct (tensor_shape_batch _ _ _ _ _ _ _ shape1 H1) as (_ & Hl1 & _).
  destruct (tensor_shape_batch _ _ _ _ _ _ _ shape2 H2) as (_ & Hl2 & _).
  apply zipM_zip_with; [congruence|].
  intros c g1 g2 Hg1 Hg2.
  destruct (tensor_shape_grid _ _ _ _ _ _ _ _ _ shape1 H1 Hg1)
    as (_ & Hlg1 & Hr1).
  destruct (tensor_shape_grid _ _ _ _ _ _ _ _ _ shape2 H2 Hg2)
    as (_ & Hlg2 & Hr2).
  apply zipM_zip_with; [congruence|].
  intros i r1 r2 Hrow1 Hrow2.
  pose proof (Forall_lookup_1 _ _ _ _ Hr1 Hrow1) as Hlr1.
  pose proof (Forall_lookup_1 _ _ _ _ Hr2 Hrow2) as Hlr2.
  simpl in Hlr1, Hlr2.
  apply zipM_zip_with; [congruence|]. intros. reflexivity.
Qed.

Lemma tensor_zip_shape : tensor_shape nb nc h w (tensor_zip op t1 t2).
Proof.
  unfold tensor_zip. apply tensor_shape_intro.
  { rewrite length_zip_with. destruct shape1, shape2. lia. }
  intros b tb Hb. apply lookup_zip_with_Some in Hb
    as (tb1 & tb2 & -> & H1 & H2).
  destruct (tensor_shape_batch _ _ _ _ _ _ _ shape1 H1) as (_ & Hl1 & _).
  destruct (tensor_shape_batch _ _ _ _ _ _ _ shape2 H2) as (_ & Hl2 & _).
  split; [rewrite length_zip_with; lia|].
  intros c g Hg. apply lookup_zip_with_Some in Hg
    as (g1 & g2 & -> & Hg1 & Hg2).
  destruct (tensor_shape_grid _ _ _ _ _ _ _ _ _ shape1 H1 Hg1)
    as (_ & Hlg1 & Hr1).
  destruct (tensor_shape_grid _ _ _ _ _ _ _ _ _ shape2 H2 Hg2)
    as (_ & Hlg2 & Hr2).
  split; [rewrite length_zip_with; lia|].
  intros i row Hrow. apply lookup_zip_with_Some in Hrow
    as (r1 & r2 & -> & Hrow1 & Hrow2).
  pose proof (Forall_lookup_1 _ _ _ _ Hr1 Hrow1) as Hlr1.
  pose proof (Forall_lookup_1 _ _ _ _ Hr2 Hrow2) as Hlr2.
  simpl in Hlr1, Hlr2. rewrite length_zip_with. lia.
Qed.

End SameShape.

(** ** One accumulation step of the blend *)

Lemma rel_get_Some (region : CanvasRegion) (t : tensor) (b c i j : nat)
    (x : fval) :
  tget t b c (i - Z.to_nat (latent_row_init region))
             (j - Z.to_nat (latent_col_init region)) = Some x ->
  rel_get region t b c i j = x.
Proof. unfold rel_get. intros ->. reflexivity. Qed.

Section Accumulate.

Variables nb nc h w : nat.
Variable e : CanvasRegion * tensor * tensor.
Variables N D : tensor.
Hypothesis e_fits : entry_fits nb nc h w e.
Hypothesis N_shape : tensor_shape nb nc h w N.
Hypothesis D_shape : tensor_shape nb nc h w D.

Let region := fst (fst e).
Let pred := snd (fst e).
Let mask := snd e.
Let N' := region_splice fadd region N (tensor_zip fmul pred mask).
Let D' := region_splice fadd region D mask.

Lemma accumulate_ok : accumulate (N, D) e = Ok (N', D').
Proof.
  destruct e_fits as (Hin & Hp & Hm).
  unfold accumulate. destruct e as [[r p] m]. simpl in *.
  rewrite (tensor_map2_ok fmul _ _ _ _ p m Hp Hm). cbn [bind].
  rewrite (region_setitem_ok fadd r nb nc h w N (tensor_zip fmul p m));
    [| exact N_shape | apply tensor_zip_shape; assumption | exact Hin].
  cbn [bind].
  rewrite (region_setitem_ok fadd r nb nc h w D m);
    [| exact D_shape | exact Hm | exact Hin].
  reflexivity.
Qed.

Lemma accumulate_shapes :
  tensor_shape nb nc h w N' /\ tensor_shape nb nc h w D'.
Proof.
  destruct e_fits as (Hin & Hp & Hm). split.
  - apply region_splice_shape;
      [exact N_shape | apply tensor_zip_shape; assumption | exact Hin].
  - apply region_splice_shape; assumption.
Qed.

Lemma accumulate_at (b c i j : nat) (n d : fval) :
  tget N b c i j = Some n -> tget D b c i j = Some d ->
  tget N' b c i j =
    Some (if coversb region i j
          then fadd n (fmul (pred_at e b c i j) (mask_at e b c i j))
          else n) /\
  tget D' b c i j =
    Some (if coversb region i j then fadd d (mask_at e b c i j) else d).
Proof.
  intros Hn Hd. destruct e_fits as (Hin & Hp & Hm).
  destruct (tget_Some_lt _ _ _ _ _ _ _ _ _ _ N_shape Hn)
    as (Hb & Hc & Hi & Hj).
  destruct (coversb region i j) eqn:Hcov.
  - apply coversb_covers in Hcov. pose proof Hcov as [Hci Hcj].
    pose proof Hin as (Hr & Hr' & Hcc & Hcc').
    destruct (tget_is_Some _ _ _ _ pred b c
                (i - Z.to_nat (latent_row_init region))
                (j - Z.to_nat (latent_col_init region)) Hp) as [p Hpv];
      [lia | lia | unfold latent_height; fold region; lia
      | unfold latent_width; fold region; lia |].
    destruct (tget_is_Some _ _ _ _ mask b c
                (i - Z.to_nat (latent_row_init region))
                (j - Z.to_nat (latent_col_init region)) Hm) as [m Hmv];
      [lia | lia | unfold latent_height; fold region; lia
      | unfold latent_width; fold region; lia |].
    unfold pred_at, mask_at. fold region pred mask.
    rewrite (rel_get_Some region pred b c i j p Hpv).
    rewrite (rel_get_Some region mask b c i j m Hmv).
    split.
    + apply (tget_region_splice_inside fadd region h w); try assumption.
      apply tget_tensor_zip; assumption.
    + apply (tget_region_splice_inside fadd region h w); assumption.
  - apply coversb_not_covers in Hcov. split.
    + unfold N'.
      rewrite (tget_region_splice_outside fadd region nb nc h w);
        [exact Hn | exact N_shape | apply tensor_zip_shape; assumption
        | exact Hin | exact Hcov].
    + unfold D'.
      rewrite (tget_region_splice_outside fadd region nb nc h w);
        [exact Hd | exact D_shape | exact Hm | exact Hin | exact Hcov].
Qed.

End Accumulate.

(** ** The accumulation loop and the normalisation *)

Lemma foldM_accumulate (nb nc h w : nat)
    (entries : list (CanvasRegion * tensor * tensor)) :
  Forall (entry_fits nb nc h w) entries ->
  forall N D : tensor,
  tensor_shape nb nc h w N -> tensor_shape nb nc h w D ->
  exists N' D',
    foldM accumulate entries (N, D) = Ok (N', D') /\
    tensor_shape nb nc h w N' /\ tensor_shape nb nc h w D' /\
    forall (b c i j : nat) (n d : fval),
      tget N b c i j = Some n -> tget D b c i j = Some d ->
      tget N' b c i j =
        Some (accumulated
                (fun e => fmul (pred_at e b c i j) (mask_at e b c i j))
                i j entries n) /\
      tget D' b c i j =
        Some (accumulated (fun e => mask_at e b c i j) i j entries d).
Proof.
  induction 1 as [|e entries He Hall IH]; intros N D HN HD.
  - exists N, D. simpl. split; [reflexivity|]. split; [exact HN|].
    split; [exact HD|]. intros b c i j n d Hn Hd. split; assumption.
  - cbn [foldM]. rewrite (accumulate_ok nb nc h w e N D He HN HD).
    cbn [bind].
    destruct (accumulate_shapes nb nc h w e N D He HN HD) as [HN1 HD1].
    destruct (IH _ _ HN1 HD1) as (N' & D' & Hf & HN' & HD' & Hat).
    exists N', D'. split; [exact Hf|]. split; [exact HN'|].
    split; [exact HD'|].
    intros b c i j n d Hn Hd.
    destruct (accumulate_at nb nc h w e N D He HN HD b c i j n d Hn Hd)
      as [Hn1 Hd1].
    exact (Hat b c i j _ _ Hn1 Hd1).
Qed.

Lemma tget_zeros (nb nc h w : nat) (t : tensor) (b c i j : nat) :
  tensor_shape nb nc h w t ->
  (b < nb)%nat -> (c < nc)%nat -> (i < h)%nat -> (j < w)%nat ->
  tget (tensor_map (fun _ => fzero) t) b c i j = Some (Fin 0).
Proof.
  intros Ht Hb Hc Hi Hj. rewrite tget_tensor_map.
  destruct (tget_is_Some nb nc h w t b c i j Ht Hb Hc Hi Hj) as [x ->].
  reflexivity.
Qed.

(** The blend, position by position: the accumulated weighted predictions
    divided by the accumulated weights, then [nan_to_num]. *)
Lemma merge_noise_preds_at (nb nc h w : nat) (latents : tensor)
    (regions : list CanvasRegion) (preds masks : list tensor) :
  tensor_shape nb nc h w latents ->
  Forall (entry_fits nb nc h w) (zip3 regions preds masks) ->
  exists out,
    merge_noise_preds latents regions preds masks = Ok out /\
    tensor_shape nb nc h w out /\
    forall b c i j : nat,
      (b < nb)%nat -> (c < nc)%nat -> (i < h)%nat -> (j < w)%nat ->
      tget out b c i j =
        Some (nan_to_num
                (fdiv
                   (accumulated
                      (fun e => fmul (pred_at e b c i j) (mask_at e b c i j))
                      i j (zip3 regions preds masks) (Fin 0))
                   (accumulated (fun e => mask_at e b c i j)
                      i j (zip3 regions preds masks) (Fin 0)))).
Proof.
  intros Hl Hfit. unfold merge_noise_preds.
  set (zeros := tensor_map (fun _ => fzero) latents).
  assert (Hz : tensor_shape nb nc h w zeros) by (apply tensor_map_shape, Hl).
  destruct (foldM_accumulate nb nc h w _ Hfit zeros zeros Hz Hz)
    as (N & D & Hf & HN & HD & Hat).
  rewrite Hf. cbn [bind fst snd].
  rewrite (tensor_map2_ok fdiv nb nc h w N D HN HD). cbn [bind].
  eexists. split; [reflexivity|]. split.
  { apply tensor_map_shape. apply tensor_zip_shape; assumption. }
  intros b c i j Hb Hc Hi Hj.
  pose proof (tget_zeros nb nc h w latents b c i j Hl Hb Hc Hi Hj) as Hz0.
  fold zeros in Hz0.
  destruct (Hat b c i j _ _ Hz0 Hz0) as [Hn Hd].
  rewrite tget_tensor_map.
  rewrite (tget_tensor_zip fdiv N D b c i j _ _ Hn Hd). reflexivity.
Qed.

Lemma accumulated_uncovered (term : CanvasRegion * tensor * tensor -> fval)
    (i j : nat) (entries : list (CanvasRegion * tensor * tensor)) (a : fval) :
  Forall (fun e => ~ covers (fst (fst e)) i j) entries ->
  accumulated term i j entries a = a.
Proof.
  induction 1 as [|e entries He Hall IH]; simpl; [reflexivity|].
  apply coversb_not_covers in He. rewrite He. exact IH.
Qed.

Lemma accumulated_fin (term : CanvasRegion * tensor * tensor -> fval)
    (i j : nat) (entries : list (CanvasRegion * tensor * tensor)) :
  Forall (fun e => covers (fst (fst e)) i j -> is_fin (term e)) entries ->
  forall a : R,
  accumulated term i j entries (Fin a) =
    Fin (a + sum_covering (fun e => fin_value (term e)) i j entries).
Proof.
  induction 1 as [|e entries He Hall IH]; intros a; simpl.
  - f_equal. lra.
  - destruct (coversb (fst (fst e)) i j) eqn:Hcov.
    + apply coversb_covers in Hcov. specialize (He Hcov).
      destruct (term e) as [r| |]; try destruct He.
      simpl. rewrite IH. f_equal. lra.
    + rewrite IH. f_equal. lra.
Qed.

Lemma sum_covering_ext (f g : CanvasRegion * tensor * tensor -> R)
    (i j : nat) (entries : list (CanvasRegion * tensor * tensor)) :
  Forall (fun e => covers (fst (fst e)) i j -> f e = g e) entries ->
  sum_covering f i j entries = sum_covering g i j entries.
Proof.
  induction 1 as [|e entries He Hall IH]; simpl; [reflexivity|].
  rewrite IH. destruct (coversb (fst (fst e)) i j) eqn:Hcov; [|reflexivity].
  apply coversb_covers in Hcov. rewrite (He Hcov). reflexivity.
Qed.

Lemma sum_covering_filter (term : CanvasRegion * tensor * tensor -> R)
    (i j : nat) (entries : list (CanvasRegion * tensor * tensor)) :
  sum_covering term i j entries =
    foldr (fun e acc => (term e + acc)%R) 0%R (covering i j entries).
Proof.
  unfold covering. induction entries as [|e entries IH]; simpl; [reflexivity|].
  rewrite IH, filter_cons.
  destruct (decide (coversb (fst (fst e)) i j = true)) as [Hc|Hc].
  - rewrite Hc. reflexivity.
  - apply not_true_is_false in Hc. rewrite Hc. simpl. lra.
Qed.

Lemma sum_covering_pos (term : CanvasRegion * tensor * tensor -> R)
    (i j : nat) (entries : list (CanvasRegion * tensor * tensor)) :
  Forall (fun e => covers (fst (fst e)) i j -> (0 < term e)%R) entries ->
  Exists (fun e => covers (fst (fst e)) i j) entries ->
  (0 < sum_covering term i j entries)%R.
Proof.
  intros Hpos Hex.
  assert (Hnonneg : forall l,
            Forall (fun e => covers (fst (fst e)) i j -> (0 < term e)%R) l ->
            (0 <= sum_covering term i j l)%R).
  { induction 1 as [|e l He Hl IH]; simpl; [lra|].
    destruct (coversb (fst (fst e)) i j) eqn:Hcov; [|lra].
    apply coversb_covers in Hcov. specialize (He Hcov). lra. }
  induction Hex as [e l Hc|e l Hex IH]; simpl.
  - apply Forall_cons in Hpos as [He Hl].
    pose proof (Hnonneg l Hl). pose proof (He Hc).
    apply coversb_covers in Hc. rewrite Hc. lra.
  - apply Forall_cons in Hpos as [He Hl]. specialize (IH Hl).
    destruct (coversb (fst (fst e)) i j) eqn:Hcov; [|lra].
    apply coversb_covers in Hcov. specialize (He Hcov). lra.
Qed.

(** ** The blend *)

Lemma Forall_zip3_regions (P : CanvasRegion -> Prop)
    (regions : list CanvasRegion) (preds masks : list tensor) :
  Forall P regions ->
  Forall (fun e => P (fst (fst e))) (zip3 regions preds masks).
Proof.
  intros H. revert preds masks.
  induction H as [|r regions Hr Hall IH]; intros [|p preds] [|m masks];
    simpl; try constructor; [exact Hr | apply IH].
Qed.

Lemma Exists_zip3_regions (P : CanvasRegion -> Prop)
    (regions : list CanvasRegion) (preds masks : list tensor) :
  length preds = length regions -> length masks = length regions ->
  Exists P regions ->
  Exists (fun e => P (fst (fst e))) (zip3 regions preds masks).
Proof.
  intros Hp Hm H. revert preds masks Hp Hm.
  induction H as [r regions Hr|r regions Hex IH];
    intros [|p preds] [|m masks] Hp Hm; simpl in *; try discriminate.
  - apply Exists_cons_hd. exact Hr.
  - apply Exists_cons_tl. apply IH; lia.
Qed.

Lemma at_defined (nb nc h w : nat) (e : CanvasRegion * tensor * tensor)
    (b c i j : nat) :
  entry_fits nb nc h w e -> covers (fst (fst e)) i j ->
  (b < nb)%nat -> (c < nc)%nat ->
  exists p m,
    tget (snd (fst e)) b c
      (i - Z.to_nat (latent_row_init (fst (fst e))))
      (j - Z.to_nat (latent_col_init (fst (fst e)))) = Some p /\
    tget (snd e) b c
      (i - Z.to_nat (latent_row_init (fst (fst e))))
      (j - Z.to_nat (latent_col_init (fst (fst e)))) = Some m /\
    pred_at e b c i j = p /\ mask_at e b c i j = m.
Proof.
  intros (Hin & Hp & Hm) [Hi Hj] Hb Hc.
  destruct Hin as (Hr & Hr' & Hcc & Hcc').
  destruct (tget_is_Some _ _ _ _ _ b c
              (i - Z.to_nat (latent_row_init (fst (fst e))))
              (j - Z.to_nat (latent_col_init (fst (fst e)))) Hp) as [p Hpv];
    [lia | lia | unfold latent_height; lia | unfold latent_width; lia |].
  destruct (tget_is_Some _ _ _ _ _ b c
              (i - Z.to_nat (latent_row_init (fst (fst e))))
              (j - Z.to_nat (latent_col_init (fst (fst e)))) Hm) as [m Hmv];
    [lia | lia | unfold latent_height; lia | unfold latent_width; lia |].
  exists p, m. split; [exact Hpv|]. split; [exact Hmv|].
  split; apply rel_get_Some; assumption.
Qed.

(** C3: the blend succeeds for any regions that lie within the canvas,
    whatever part of the canvas they cover, and at a latent position that no
    text-driven region covers the accumulated prediction and the accumulated
    weight are both exactly zero, their quotient is the NaN of [0/0], and the
    blended prediction, which is what the scheduler step receives, is
    exactly zero. *)
Theorem merge_noise_preds_uncovered_zero (nb nc h w : nat) (latents : tensor)
    (regions : list CanvasRegion) (preds masks : list tensor) :
  tensor_shape nb nc h w latents ->
  Forall (entry_fits nb nc h w) (zip3 regions preds masks) ->
  exists out,
    merge_noise_preds latents regions preds masks = Ok out /\
    tensor_shape nb nc h w out /\
    forall b c i j : nat,
      (b < nb)%nat -> (c < nc)%nat -> (i < h)%nat -> (j < w)%nat ->
      Forall (fun r => ~ covers r i j) regions ->
      accumulated (fun e => fmul (pred_at e b c i j) (mask_at e b c i j))
        i j (zip3 regions preds masks) (Fin 0) = Fin 0 /\
      accumulated (fun e => mask_at e b c i j)
        i j (zip3 regions preds masks) (Fin 0) = Fin 0 /\
      fdiv (Fin 0) (Fin 0) = NaN /\
      nan_to_num NaN = Fin 0 /\
      tget out b c i j = Some (Fin 0).
Proof.
  intros Hl Hfit.
  destruct (merge_noise_preds_at nb nc h w latents regions preds masks
              Hl Hfit) as (out & Hrun & Hshape & Hat).
  exists out. split; [exact Hrun|]. split; [exact Hshape|].
  intros b c i j Hb Hc Hi Hj Hnone.
  pose proof (Forall_zip3_regions _ regions preds masks Hnone) as Hnone'.
  rewrite (Hat b c i j Hb Hc Hi Hj).
  rewrite !accumulated_uncovered by exact Hnone'.
  rewrite fdiv_zero_zero. repeat split; reflexivity.
Qed.

(** C2: for regions that lie within the canvas, predictions whose entries
    are numbers and masks whose entries are positive numbers, the blend
    succeeds and, at every latent position covered by at least one region,
    the accumulated weight is positive and the blended prediction is the sum
    over the covering regions of prediction times mask weight, divided by
    the sum of their mask weights.  When exactly one region covers the
    position the result is the prediction of that region; when exactly two
    do and their mask weights there are 1 and 3, the result is
    [(1 * pred_A + 3 * pred_B) / 4]. *)
Theorem merge_noise_preds_weighted_average (nb nc h w : nat)
    (latents : tensor) (regions : list CanvasRegion)
    (preds masks : list tensor) :
  tensor_shape nb nc h w latents ->
  length preds = length regions -> length masks = length regions ->
  Forall (entry_fits nb nc h w) (zip3 regions preds masks) ->
  Forall (fun e => tensor_finite (snd (fst e)) /\ tensor_positive (snd e))
    (zip3 regions preds masks) ->
  exists out,
    merge_noise_preds latents regions preds masks = Ok out /\
    tensor_shape nb nc h w out /\
    forall b c i j : nat,
      (b < nb)%nat -> (c < nc)%nat -> (i < h)%nat -> (j < w)%nat ->
      Exists (fun r => covers r i j) regions ->
      let P := fun e => fin_value (pred_at e b c i j) in
      let M := fun e => fin_value (mask_at e b c i j) in
      let entries := zip3 regions preds masks in
      (0 < sum_covering M i j entries)%R /\
      tget out b c i j =
        Some (Fin (sum_covering (fun e => P e * M e)%R i j entries
                   / sum_covering M i j entries)) /\
      (forall e, covering i j entries = [e] ->
         tget out b c i j = Some (Fin (P e))) /\
      (forall eA eB, covering i j entries = [eA; eB] ->
         M eA = 1%R -> M eB = 3%R ->
         tget out b c i j = Some (Fin ((1 * P eA + 3 * P eB) / 4))).
Proof.
  intros Hl Hlp Hlm Hfit Hval.
  destruct (merge_noise_preds_at nb nc h w latents regions preds masks
              Hl Hfit) as (out & Hrun & Hshape & Hat).
  exists out. split; [exact Hrun|]. split; [exact Hshape|].
  intros b c i j Hb Hc Hi Hj Hcov P M entries.
  assert (Hex : Exists (fun e => covers (fst (fst e)) i j) entries).
  { apply (Exists_zip3_regions (fun r => covers r i j)); assumption. }
  assert (Hpt : Forall (fun e => covers (fst (fst e)) i j ->
            exists p m, pred_at e b c i j = Fin p /\
                        mask_at e b c i j = Fin m /\ (0 < m)%R) entries).
  { apply Forall_forall. intros e He Hce.
    rewrite Forall_forall in Hfit. rewrite Forall_forall in Hval.
    destruct (Hval e He) as [Hfin Hpos].
    destruct (at_defined nb nc h w e b c i j (Hfit e He) Hce Hb Hc)
      as (p & m & Hp & Hm & -> & ->).
    destruct (Hpos _ _ _ _ _ Hm) as (mr & -> & Hmr).
    specialize (Hfin _ _ _ _ _ Hp). destruct p as [pr| |]; try destruct Hfin.
    exists pr, mr. auto. }
  assert (HM : (0 < sum_covering M i j entries)%R).
  { apply sum_covering_pos; [|exact Hex].
    eapply Forall_impl; [exact Hpt|]. intros e He Hce.
    destruct (He Hce) as (p & m & _ & Hm & Hpos). unfold M. rewrite Hm.
    exact Hpos. }
  assert (Hout : tget out b c i j =
            Some (Fin (sum_covering (fun e => P e * M e)%R i j entries
                       / sum_covering M i j entries))).
  { rewrite (Hat b c i j Hb Hc Hi Hj). fold entries.
    rewrite (accumulated_fin (fun e => mask_at e b c i j)).
    2:{ eapply Forall_impl; [exact Hpt|]. intros e He Hce.
        destruct (He Hce) as (p & m & _ & -> & _). exact I. }
    rewrite (accumulated_fin
               (fun e => fmul (pred_at e b c i j) (mask_at e b c i j))).
    2:{ eapply Forall_impl; [exact Hpt|]. intros e He Hce.
        destruct (He Hce) as (p & m & -> & -> & _). exact I. }
    fold M.
    rewrite (sum_covering_ext
               (fun e => fin_value
                           (fmul (pred_at e b c i j) (mask_at e b c i j)))
               (fun e => P e * M e)%R).
    2:{ eapply Forall_impl; [exact Hpt|]. intros e He Hce.
        destruct (He Hce) as (p & m & Hp & Hm & _). unfold P, M.
        rewrite Hp, Hm. reflexivity. }
    rewrite fdiv_fin by lra. simpl. do 2 f_equal. f_equal; lra. }
  split; [exact HM|]. split; [exact Hout|]. split.
  - intros e He. rewrite Hout. do 2 f_equal.
    rewrite sum_covering_filter in HM. rewrite !sum_covering_filter, He.
    rewrite He in HM. simpl in *. field. lra.
  - intros eA eB He HA HB. rewrite Hout. do 2 f_equal.
    rewrite !sum_covering_filter, He. simpl. rewrite HA, HB. field.
Qed.

Lemma example_entries_fit :
  Forall (entry_fits 1 1 1 3)
    (zip3 example_regions example_preds example_masks).
Proof.
  repeat constructor; vm_compute; congruence.
Qed.

Lemma example_entries_valid :
  Forall (fun e => tensor_finite (snd (fst e)) /\ tensor_positive (snd e))
    (zip3 example_regions example_preds example_masks).
Proof.
  repeat constructor.
  - intros [|b] [|c] [|i] [|[|j]] x H; simpl in H; try discriminate;
      injection H as <-; exact I.
  - intros [|b] [|c] [|i] [|[|j]] x H; simpl in H; try discriminate;
      injection H as <-; eexists; (split; [reflexivity | lra]).
  - intros [|b] [|c] [|i] [|j] x H; simpl in H; try discriminate;
      injection H as <-; exact I.
  - intros [|b] [|c] [|i] [|j] x H; simpl in H; try discriminate;
      injection H as <-; eexists; (split; [reflexivity | lra]).
Qed.

(** In the overlap of the regions A and B, at column 1. *)
Lemma merge_noise_preds_weighted_average_witness :
  exists out,
    merge_noise_preds example_latents example_regions example_preds
      example_masks = Ok out /\
    tget out 0 0 0 1 = Some (Fin ((1 * 4 + 3 * 8) / 4)).
Proof.
  destruct (merge_noise_preds_weighted_average 1 1 1 3 example_latents
              example_regions example_preds example_masks
              ltac:(repeat constructor) eq_refl eq_refl
              example_entries_fit example_entries_valid)
    as (out & Hrun & _ & Hat).
  exists out. split; [exact Hrun|].
  destruct (Hat 0%nat 0%nat 0%nat 1%nat) as (_ & _ & _ & Htwo); try lia.
  - apply Exists_cons_hd. vm_compute. intuition congruence.
  - exact (Htwo _ _ eq_refl eq_refl eq_refl).
Defined.

(** At column 2, which no region covers. *)
Lemma merge_noise_preds_uncovered_zero_witness :
  exists out,
    merge_noise_preds example_latents example_regions example_preds
      example_masks = Ok out /\
    tget out 0 0 0 2 = Some (Fin 0).
Proof.
  destruct (merge_noise_preds_uncovered_zero 1 1 1 3 example_latents
              example_regions example_preds example_masks
              ltac:(repeat constructor) example_entries_fit)
    as (out & Hrun & _ & Hat).
  exists out. split; [exact Hrun|].
  destruct (Hat 0%nat 0%nat 0%nat 2%nat) as (_ & _ & _ & _ & Hzero);
    try lia.
  - repeat constructor; vm_compute; intuition congruence.
  - exact Hzero.
Defined.

(** ** Positivity of the masks *)

Lemma fmul_nan_r (x : fval) : fmul x NaN = NaN.
Proof. destruct x; reflexivity. Qed.

Lemma quartic_weights_entry_raw (self : MaskWeightsBuilder)
    (region : DiffusionRegion) (t : tensor) (b c i j : nat) :
  _quartic_weights self region = Ok t ->
  (b < Z.to_nat (nbatch self))%nat ->
  (c < Z.to_nat (latent_space_dim self))%nat ->
  Z.of_nat i < latent_height region -> Z.of_nat j < latent_width region ->
  tget t b c i j =
    Some (fmul
            (fmul (quartic_prob (latent_row_init region)
                     (latent_row_end region)
                     (latent_row_init region + Z.of_nat i))
                  (quartic_prob (latent_col_init region)
                     (latent_col_end region)
                     (latent_col_init region + Z.of_nat j)))
            (mask_weight region)).
Proof.
  intros Ht Hb Hc Hi Hj. unfold _quartic_weights in Ht.
  rewrite torch_tile_ok in Ht by lia. injection Ht as <-.
  rewrite tget_tile by assumption.
  unfold latent_height, latent_width in *.
  apply gget_outer; unfold quartic_probs;
    rewrite list_lookup_fmap, lookup_py_range by lia; reflexivity.
Qed.

Lemma builder_positive (m : MaskModes) (self : MaskWeightsBuilder)
    (region : DiffusionRegion) (t : tensor) (mw : R) :
  builder_of m self region = Ok t ->
  mask_weight region = Fin mw -> (0 < mw)%R ->
  2 <= latent_height region -> 2 <= latent_width region ->
  tensor_positive t.
Proof.
  intros Ht Hmw Hpos Hh Hw b c i j x Hx.
  destruct (tget_Some_lt _ _ _ _ _ _ _ _ _ _ (builder_shape m self region t Ht)
              Hx) as (Hb & Hc & Hi & Hj).
  assert (Hcase : m = CONSTANT \/ m <> CONSTANT)
    by (destruct m; auto; right; discriminate).
  destruct Hcase as [->|Hm].
  - simpl in Ht.
    rewrite (constant_weights_entry self region t b c i j Ht) in Hx
      by (assumption || lia).
    injection Hx as <-. rewrite Hmw. simpl. eexists. split; [reflexivity|].
    lra.
  - rewrite (kernel_weights_entry m self region t b c i j Hm Ht) in Hx
      by (assumption || lia).
    injection Hx as <-. rewrite Hmw. simpl. eexists. split; [reflexivity|].
    apply Rmult_lt_0_compat; [|exact Hpos].
    apply Rmult_lt_0_compat; apply kernel_of_pos; lia.
Qed.

(** C10: (1) for a region with a positive mask weight and a latent extent of
    at least 2 in both axes, every entry of the constant, of the gaussian and
    of the quartic weight tensor is a positive number; (2) with masks whose
    entries are positive, the accumulation of the blend succeeds and at
    every latent position covered by at least one region the accumulated
    contributor is a positive number, so that the division by it is the
    ordinary quotient; (3) for an extent of at least 2, the support of the
    quartic kernel at every position of the region is a number of
    [-0.995, 0.995]; (4) when the latent extent is 1 in an axis, the quartic
    builder divides [0] by [extent - 1 = 0] and every entry of its tensor is
    NaN. *)
Theorem mask_weights_positive_contributors (self : MaskWeightsBuilder) :
  (forall (m : MaskModes) (region : DiffusionRegion) (t : tensor) (mw : R),
     builder_of m self region = Ok t ->
     mask_weight region = Fin mw -> (0 < mw)%R ->
     2 <= latent_height region -> 2 <= latent_width region ->
     tensor_positive t) /\
  (forall (nb nc h w : nat) (latents : tensor)
     (regions : list CanvasRegion) (preds masks : list tensor),
     tensor_shape nb nc h w latents ->
     length preds = length regions -> length masks = length regions ->
     Forall (entry_fits nb nc h w) (zip3 regions preds masks) ->
     Forall (fun e => tensor_positive (snd e)) (zip3 regions preds masks) ->
     exists noise_pred contributors,
       foldM accumulate (zip3 regions preds masks)
         (tensor_map (fun _ => fzero) latents,
          tensor_map (fun _ => fzero) latents) =
         Ok (noise_pred, contributors) /\
       forall b c i j : nat,
         (b < nb)%nat -> (c < nc)%nat -> (i < h)%nat -> (j < w)%nat ->
         Exists (fun r => covers r i j) regions ->
         exists d, tget contributors b c i j = Some (Fin d) /\ (0 < d)%R /\
           forall n, fdiv (Fin n) (Fin d) = Fin (n / d)) /\
  (forall init_ end_ x : Z,
     2 <= end_ - init_ -> init_ <= x < end_ ->
     exists u, quartic_support init_ end_ x = Fin u /\
       (- (995 / 1000) <= u <= 995 / 1000)%R) /\
  (forall (region : DiffusionRegion) (t : tensor),
     _quartic_weights self region = Ok t ->
     latent_height region = 1 \/ latent_width region = 1 ->
     forall b c i j x, tget t b c i j = Some x -> x = NaN).
Proof.
  split; [|split; [|split]]; [| |
    intros init_ end_ x Hn Hx; exists (quartic_u (end_ - init_) (x - init_));
    split; [apply quartic_support_fin; lia | apply quartic_u_bounds; lia] |].
  - intros m region t mw. apply builder_positive.
  - intros nb nc h w latents regions preds masks Hl Hlp Hlm Hfit Hpos.
    set (zeros := tensor_map (fun _ => fzero) latents).
    assert (Hz : tensor_shape nb nc h w zeros) by (apply tensor_map_shape, Hl).
    destruct (foldM_accumulate nb nc h w _ Hfit zeros zeros Hz Hz)
      as (N & D & Hf & HN & HD & Hat).
    exists N, D. split; [exact Hf|].
    intros b c i j Hb Hc Hi Hj Hcov.
    pose proof (tget_zeros nb nc h w latents b c i j Hl Hb Hc Hi Hj) as Hz0.
    fold zeros in Hz0.
    destruct (Hat b c i j _ _ Hz0 Hz0) as [_ Hd].
    assert (Hpt : Forall (fun e => covers (fst (fst e)) i j ->
              exists m, mask_at e b c i j = Fin m /\ (0 < m)%R)
              (zip3 regions preds masks)).
    { apply Forall_forall. intros e He Hce.
      rewrite Forall_forall in Hfit. rewrite Forall_forall in Hpos.
      destruct (at_defined nb nc h w e b c i j (Hfit e He) Hce Hb Hc)
        as (p & m & _ & Hm & _ & ->).
      destruct (Hpos e He _ _ _ _ _ Hm) as (mr & -> & Hmr). eauto. }
    rewrite (accumulated_fin (fun e => mask_at e b c i j)) in Hd.
    2:{ eapply Forall_impl; [exact Hpt|]. intros e He Hce.
        destruct (He Hce) as (m & -> & _). exact I. }
    assert (HM : (0 < sum_covering (fun e => fin_value (mask_at e b c i j))
                       i j (zip3 regions preds masks))%R).
    { apply sum_covering_pos.
      - eapply Forall_impl; [exact Hpt|]. intros e He Hce.
        destruct (He Hce) as (m & -> & Hm). exact Hm.
      - apply (Exists_zip3_regions (fun r => covers r i j)); assumption. }
    eexists. split; [exact Hd|]. split; [lra|].
    intros n. apply fdiv_fin. lra.
  - intros region t Ht Hone b c i j x Hx.
    pose proof (builder_shape QUARTIC self region t Ht) as Hshape.
    destruct (tget_Some_lt _ _ _ _ _ _ _ _ _ _ Hshape Hx)
      as (Hb & Hc & Hi & Hj).
    rewrite (quartic_weights_entry_raw self region t b c i j Ht) in Hx
      by (assumption || lia).
    injection Hx as <-. unfold latent_height, latent_width in *.
    destruct Hone as [Hone|Hone].
    + replace (latent_row_end region) with (latent_row_init region + 1)
        by lia.
      replace (latent_row_init region + Z.of_nat i)
        with (latent_row_init region) by lia.
      rewrite quartic_prob_nan. reflexivity.
    + replace (latent_col_end region) with (latent_col_init region + 1)
        by lia.
      replace (latent_col_init region + Z.of_nat j)
        with (latent_col_init region) by lia.
      rewrite quartic_prob_nan, fmul_nan_r. reflexivity.
Qed.

(** ** The timestep loop *)

Lemma mapM_ok_inv {A B : Type} (f : A -> result B) (l : list A)
    (r : list B) :
  mapM f l = Ok r -> length r = length l.
Proof.
  revert r. induction l as [|a l IH]; intros r; simpl.
  - intros [= <-]. reflexivity.
  - destruct (f a) as [b|e]; simpl; [|done].
    destruct (mapM f l) as [bs|e]; simpl; [|done].
    intros [= <-]. simpl. rewrite (IH bs eq_refl). reflexivity.
Qed.

Section Loop.

Variables tokens embedding image pil : Type.
Variable unet : tensor -> Z -> option embedding -> tensor.
Variable scheduler : Scheduler.
Variable decode_latents : tensor -> bool -> pil.

Variables init_noise : loc.
Variable noise : tensor.
Variables num_inference_steps offset : Z.
Variable eta : fval.
Variables cpu_vae decode_steps : bool.
Variable text_regions : list (Text2ImageRegion tokens embedding).
Variable image_regions : list (Image2ImageRegion image).
Variable mask_weights : list tensor.

(** An injection writes to the latents object only. *)
Lemma inject_frame (latents : loc) (i t : Z) (st st' : gmap loc tensor)
    (region : Image2ImageRegion image) :
  inject image scheduler init_noise latents num_inference_steps offset i t
    st region = Ok st' ->
  forall l, l <> latents -> st' !! l = st !! l.
Proof.
  unfold inject.
  destruct (influence_step image num_inference_steps offset region)
    as [influence|err]; cbn [bind]; [|done].
  destruct (i <? influence); [|intros [= <-]; reflexivity].
  destruct (reference_latents region) as [ref|]; [|done].
  destruct (region_setitem _ _ _ _) as [t'|err]; cbn [bind]; [|done].
  intros [= <-] l Hl. apply lookup_insert_ne. congruence.
Qed.

Lemma foldM_inject_frame (latents : loc) (i t : Z)
    (regions : list (Image2ImageRegion image)) :
  forall st st' : gmap loc tensor,
  foldM (inject image scheduler init_noise latents num_inference_steps
           offset i t) regions st = Ok st' ->
  forall l, l <> latents -> st' !! l = st !! l.
Proof.
  induction regions as [|region regions IH]; intros st st'; cbn [foldM].
  - intros [= <-]. reflexivity.
  - destruct (inject _ _ _ _ _ _ _ _ st region) as [st1|err] eqn:Hinj;
      cbn [bind]; [|done].
    intros Hfold l Hl. rewrite (IH st1 st' Hfold l Hl).
    exact (inject_frame latents i t st st1 region Hinj l Hl).
Qed.

Let body :=
  timestep tokens embedding image pil unet scheduler decode_latents
    init_noise num_inference_steps offset eta cpu_vae decode_steps
    text_regions image_regions mask_weights.

(** One iteration of the loop: the tensor handed to the scheduler step is
    the blend of the predictions of this iteration over the latents as the
    injections left them, the new latents are a new object, and
    [init_noise] still holds the noise drawn at the start. *)
Lemma timestep_spec (s s' : loop_state pil) (i : nat) (t : Z) :
  body s (i, t) = Ok s' ->
  ls_latents s <> init_noise ->
  ls_store s !! init_noise = Some noise ->
  exists st1 preds noise_pred,
    foldM (inject image scheduler init_noise (ls_latents s)
             num_inference_steps offset (Z.of_nat i) t)
      image_regions (ls_store s) = Ok st1 /\
    mapM (denoise tokens embedding unet scheduler num_inference_steps offset
            (read st1 (ls_latents s)) i t) text_regions = Ok preds /\
    merge_noise_preds (read st1 (ls_latents s))
      ((fun r : Text2ImageRegion tokens embedding =>
          canvas_region (t2i_region r)) <$> text_regions)
      preds mask_weights = Ok noise_pred /\
    ls_store s' !! ls_latents s' =
      Some (step scheduler noise_pred
              (if is_lms scheduler then Z.of_nat i else t)
              (read st1 (ls_latents s))
              (if accepts_eta scheduler then Some eta else None)) /\
    ls_latents s' <> init_noise /\
    ls_store s' !! init_noise = Some noise.
Proof.
  unfold body, timestep. intros Hrun Hne Hnoise.
  destruct (foldM _ image_regions (ls_store s)) as [st1|err] eqn:Hinj;
    cbn [bind] in Hrun; [|done].
  destruct (mapM _ text_regions) as [preds|err] eqn:Hden;
    cbn [bind] in Hrun; [|done].
  destruct (merge_noise_preds _ _ preds mask_weights) as [noise_pred|err]
    eqn:Hmerge; cbn [bind] in Hrun; [|done].
  assert (Hnoise1 : st1 !! init_noise = Some noise).
  { rewrite (foldM_inject_frame _ _ _ _ _ _ Hinj init_noise) by congruence.
    exact Hnoise. }
  match type of Hrun with
  | context [alloc st1 ?x] =>
      destruct (alloc_fresh st1 x) as (Hfresh & Hnew & Hold);
      destruct (alloc st1 x) as [st2 l'] eqn:Halloc
  end.
  cbn [fst snd] in *. injection Hrun as <-. cbn [ls_store ls_latents].
  exists st1, preds, noise_pred.
  split; [reflexivity|]. split; [exact Hden|]. split; [exact Hmerge|].
  split; [exact Hnew|].
  assert (Hin : init_noise ∈ dom st1) by (apply elem_of_dom; eauto).
  split; [intros ->; exact (Hfresh Hin)|].
  rewrite (Hold init_noise Hin). exact Hnoise1.
Qed.

(** Over the whole loop [init_noise] is never written. *)
Lemma loop_preserves_init_noise (its : list (nat * Z)) :
  forall s s' : loop_state pil,
  foldM body its s = Ok s' ->
  ls_latents s <> init_noise ->
  ls_store s !! init_noise = Some noise ->
  ls_latents s' <> init_noise /\ ls_store s' !! init_noise = Some noise.
Proof.
  induction its as [|[i t] its IH]; intros s s'; cbn [foldM].
  - intros [= <-]. auto.
  - destruct (body s (i, t)) as [s1|err] eqn:Hstep; cbn [bind]; [|done].
    intros Hfold Hne Hnoise.
    destruct (timestep_spec s s1 i t Hstep Hne Hnoise)
      as (_ & _ & _ & _ & _ & _ & _ & Hne1 & Hnoise1).
    exact (IH s1 s' Hfold Hne1 Hnoise1).
Qed.

End Loop.

(** * Further properties of the code *)

(** ** Latent bounds *)

(** X1: the latent extent of a region is its pixel extent divided by 8 up to
    less than one latent position in either direction; hence a pixel extent
    of at least 8 gives a latent extent of at least 1, a pixel extent of at
    most -8 (an inverted rectangle) a negative one, and bounds that are
    multiples of 8 give exactly an eighth of the pixel extent. *)
Theorem latent_extent_of_pixel_extent (r0 r1 c0 c1 : Z) (region : CanvasRegion) :
  CanvasRegion_init r0 r1 c0 c1 = Ok region ->
  (height region - 7 <= 8 * latent_height region <= height region + 7) /\
  (width region - 7 <= 8 * latent_width region <= width region + 7) /\
  (8 <= height region -> 1 <= latent_height region) /\
  (8 <= width region -> 1 <= latent_width region) /\
  (height region <= -8 -> latent_height region < 0) /\
  (r0 `mod` 8 = 0 -> r1 `mod` 8 = 0 ->
     8 * latent_height region = height region) /\
  (c0 `mod` 8 = 0 -> c1 `mod` 8 = 0 ->
     8 * latent_width region = width region).
Proof.
  intros [= <-]. unfold height, width, latent_height, latent_width. simpl.
  pose proof (Z.div_mod r0 8 ltac:(lia)).
  pose proof (Z.div_mod r1 8 ltac:(lia)).
  pose proof (Z.div_mod c0 8 ltac:(lia)).
  pose proof (Z.div_mod c1 8 ltac:(lia)).
  pose proof (Z.mod_pos_bound r0 8 ltac:(lia)).
  pose proof (Z.mod_pos_bound r1 8 ltac:(lia)).
  pose proof (Z.mod_pos_bound c0 8 ltac:(lia)).
  pose proof (Z.mod_pos_bound c1 8 ltac:(lia)).
  repeat split; lia.
Qed.

(** The region of the pixels 3..12 by 0..16. *)
Lemma latent_extent_of_pixel_extent_witness :
  1 <= latent_height (mkCanvasRegion 3 12 0 16 0 1 0 2) /\
  8 * latent_width (mkCanvasRegion 3 12 0 16 0 1 0 2) = 16.
Proof.
  destruct (latent_extent_of_pixel_extent 3 12 0 16
              (mkCanvasRegion 3 12 0 16 0 1 0 2) eq_refl)
    as (_ & _ & Hh & _ & _ & _ & Hw).
  split.
  - apply Hh. vm_compute. congruence.
  - exact (Hw eq_refl eq_refl).
Defined.

(** ** More on the masks *)

Lemma fmul_one_l (x : fval) : fmul (Fin 1) x = x.
Proof.
  destruct x as [r|p|]; simpl; [f_equal; lra | | reflexivity].
  assert (H0 : Reqb 1 0 = false) by (apply Reqb_false; lra).
  assert (H1 : Rltb 1 0 = false) by (apply Rltb_false; lra).
  unfold sign_with. rewrite H0, H1. reflexivity.
Qed.

Lemma torch_full_raises (v : fval) (nb nc h w : Z) :
  torch_full v nb nc h w = Raise RuntimeError <->
  nb < 0 \/ nc < 0 \/ h < 0 \/ w < 0.
Proof.
  unfold torch_full, neg_dim.
  destruct (Z.ltb_spec nb 0), (Z.ltb_spec nc 0), (Z.ltb_spec h 0),
    (Z.ltb_spec w 0); simpl; split; intros; try done; lia.
Qed.

(** X2: the constant mask raises exactly when the batch size, the channel
    count or a latent extent of the region is negative (an inverted
    rectangle); otherwise it has the shape (batch, channels, latent height,
    latent width) and every entry is the mask weight of the region, whatever
    float that is. *)
Theorem constant_weights_uniform (self : MaskWeightsBuilder)
    (region : DiffusionRegion) :
  (_constant_weights self region = Raise RuntimeError <->
     nbatch self < 0 \/ latent_space_dim self < 0 \/
     latent_height region < 0 \/ latent_width region < 0) /\
  (forall t, _constant_weights self region = Ok t ->
     tensor_shape (Z.to_nat (nbatch self)) (Z.to_nat (latent_space_dim self))
       (Z.to_nat (latent_height region)) (Z.to_nat (latent_width region)) t /\
     forall b c i j x, tget t b c i j = Some x -> x = mask_weight region).
Proof.
  split.
  - unfold _constant_weights, torch_ones.
    rewrite <- torch_full_raises with (v := fone).
    destruct (torch_full fone _ _ _ _) as [t|e]; simpl; split; done.
  - intros t Ht.
    pose proof (builder_shape CONSTANT self region t Ht) as Hshape.
    split; [exact Hshape|]. intros b c i j x Hx.
    destruct (tget_Some_lt _ _ _ _ _ _ _ _ _ _ Hshape Hx)
      as (Hb & Hc & Hi & Hj).
    rewrite (constant_weights_entry self region t b c i j Ht) in Hx
      by (assumption || lia).
    injection Hx as <-. apply fmul_one_l.
Qed.

(** X3: whatever the mode, a mask that [compute_mask_weights] returns has
    the shape (batch, channels, latent height, latent width) of the builder
    and of the region. *)
Theorem compute_mask_weights_shape (self : MaskWeightsBuilder)
    (region : DiffusionRegion) (t : tensor) :
  compute_mask_weights self region = Ok t ->
  tensor_shape (Z.to_nat (nbatch self)) (Z.to_nat (latent_space_dim self))
    (Z.to_nat (latent_height region)) (Z.to_nat (latent_width region)) t.
Proof.
  unfold compute_mask_weights.
  destruct (mask_type region) as [s| |]; simpl; try done.
  rewrite MASK_BUILDERS_lookup.
  repeat case_decide; simpl; try done; intros Ht.
  - exact (builder_shape QUARTIC self region t Ht).
  - exact (builder_shape GAUSSIAN self region t Ht).
  - exact (builder_shape CONSTANT self region t Ht).
Qed.

(** The quartic mask of the example region. *)
Lemma compute_mask_weights_shape_witness :
  exists t,
    compute_mask_weights example_builder (example_region "quartic") = Ok t /\
    tensor_shape 1 4 3 4 t.
Proof.
  eexists. split; [reflexivity|].
  exact (compute_mask_weights_shape example_builder
           (example_region "quartic") _ eq_refl).
Defined.

Lemma gaussian_R_le_peak (n x : Z) :
  (gaussian_R n x <= / sqrt (2 * PI * (1 / 100)))%R.
Proof.
  unfold gaussian_R. pose proof gaussian_norm_pos as Hpos.
  unfold Rdiv at 1.
  rewrite <- (Rmult_1_l (/ sqrt (2 * PI * (1 / 100)))) at 2.
  apply Rmult_le_compat_r; [apply Rlt_le, Rinv_0_lt_compat, Hpos|].
  apply Rle_trans with (exp 0); [|rewrite exp_0; lra].
  assert (Hle : (- (IZR x - IZR (n - 1) / 2) * (IZR x - IZR (n - 1) / 2)
                 / IZR (n * n) / (2 * (1 / 100)) <= 0)%R).
  { assert (Hnn : (0 <= IZR (n * n))%R) by (apply IZR_le; nia).
    assert (Hsq : (0 <= (IZR x - IZR (n - 1) / 2)
                        * (IZR x - IZR (n - 1) / 2))%R)
      by apply Rle_0_sqr.
    unfold Rdiv in *.
    assert (Hinv : (0 <= / IZR (n * n))%R).
    { destruct (Req_dec_T (IZR (n * n)) 0) as [->|Hne];
        [rewrite Rinv_0; lra|].
      apply Rlt_le, Rinv_0_lt_compat. lra. }
    assert (H2 : (0 < / (2 * (1 * / 100)))%R)
      by (apply Rinv_0_lt_compat; lra).
    assert (H1 : (0 <= (IZR x - IZR (n - 1) * / 2)
                       * (IZR x - IZR (n - 1) * / 2) * / IZR (n * n))%R)
      by (apply Rmult_le_pos; assumption).
    assert (H3 : (0 <= (IZR x - IZR (n - 1) * / 2)
                       * (IZR x - IZR (n - 1) * / 2) * / IZR (n * n)
                       * / (2 * (1 * / 100)))%R)
      by (apply Rmult_le_pos; [exact H1 | apply Rlt_le, H2]).
    assert (Heq : forall d N c : R,
              (- d * d * N * c = - (d * d * N * c))%R) by (intros; ring).
    rewrite Heq. lra. }
  destruct Hle as [Hlt|Heq].
  - apply Rlt_le, exp_increasing, Hlt.
  - rewrite Heq. lra.
Qed.

Lemma gaussian_R_center (n x : Z) :
  2 * x = n - 1 -> gaussian_R n x = (/ sqrt (2 * PI * (1 / 100)))%R.
Proof.
  intros Hx. unfold gaussian_R.
  assert (Hd : (IZR x - IZR (n - 1) / 2 = 0)%R).
  { rewrite <- Hx, mult_IZR. lra. }
  rewrite Hd. unfold Rdiv. rewrite Ropp_0, !Rmult_0_l, exp_0. lra.
Qed.

(** X4: for a region of latent extent at least 1 in both axes (an extent of
    1 included) and a positive mask weight [mw], every entry of the gaussian
    mask is a number [v] with [0 < v <= mw / (2 * pi * 0.01)], and the bound
    is attained at the centre when both extents are odd. *)
Theorem gaussian_weights_bounds (self : MaskWeightsBuilder)
    (region : DiffusionRegion) (t : tensor) (mw : R) :
  _gaussian_weights self region = Ok t ->
  mask_weight region = Fin mw -> (0 < mw)%R ->
  (forall b c i j x, tget t b c i j = Some x ->
     exists v, x = Fin v /\
       (0 < v <= / sqrt (2 * PI * (1 / 100)) * / sqrt (2 * PI * (1 / 100))
                 * mw)%R) /\
  (forall b c i j : nat,
     (b < Z.to_nat (nbatch self))%nat ->
     (c < Z.to_nat (latent_space_dim self))%nat ->
     2 * Z.of_nat i = latent_height region - 1 ->
     2 * Z.of_nat j = latent_width region - 1 ->
     tget t b c i j =
       Some (Fin (/ sqrt (2 * PI * (1 / 100)) * / sqrt (2 * PI * (1 / 100))
                  * mw))).
Proof.
  intros Ht Hmw Hpos. split.
  - intros b c i j x Hx.
    pose proof (builder_shape GAUSSIAN self region t Ht) as Hshape.
    destruct (tget_Some_lt _ _ _ _ _ _ _ _ _ _ Hshape Hx)
      as (Hb & Hc & Hi & Hj).
    rewrite (gaussian_weights_entry self region t b c i j Ht) in Hx
      by (assumption || lia).
    injection Hx as <-. rewrite Hmw. simpl. eexists. split; [reflexivity|].
    pose proof (gaussian_R_pos (latent_height region) (Z.of_nat i)).
    pose proof (gaussian_R_pos (latent_width region) (Z.of_nat j)).
    pose proof (gaussian_R_le_peak (latent_height region) (Z.of_nat i)).
    pose proof (gaussian_R_le_peak (latent_width region) (Z.of_nat j)).
    split.
    + apply Rmult_lt_0_compat; [|exact Hpos].
      apply Rmult_lt_0_compat; assumption.
    + apply Rmult_le_compat_r; [lra|].
      apply Rmult_le_compat; lra.
  - intros b c i j Hb Hc Hi Hj.
    rewrite (gaussian_weights_entry self region t b c i j Ht)
      by (assumption || lia).
    rewrite Hmw, !gaussian_R_center by assumption. reflexivity.
Qed.

(** A gaussian mask of one latent position. *)
Lemma gaussian_weights_bounds_witness :
  exists t,
    _gaussian_weights (mkMaskWeightsBuilder 1 1)
      (mkDiffusionRegion (mkCanvasRegion 0 8 0 8 0 1 0 1)
         (PyStr "gaussian") (Fin 2)) = Ok t /\
    tget t 0 0 0 0 =
      Some (Fin (/ sqrt (2 * PI * (1 / 100)) * / sqrt (2 * PI * (1 / 100))
                 * 2)).
Proof.
  eexists. split; [reflexivity|].
  destruct (gaussian_weights_bounds (mkMaskWeightsBuilder 1 1)
              (mkDiffusionRegion (mkCanvasRegion 0 8 0 8 0 1 0 1)
                 (PyStr "gaussian") (Fin 2)) _ 2 eq_refl eq_refl
              ltac:(lra)) as [_ Hcentre].
  apply (Hcentre 0%nat 0%nat 0%nat 0%nat); vm_compute; lia || reflexivity.
Defined.

Lemma quartic_R_le_peak (n k : Z) :
  2 <= n -> 0 <= k <= n - 1 -> (quartic_R n k <= 15 / 16)%R.
Proof.
  intros Hn Hk. pose proof (quartic_u_bounds n k Hn Hk) as Hu.
  unfold quartic_R.
  set (a := (1 - quartic_u n k * quartic_u n k)%R).
  assert (Ha : (0 < a <= 1)%R) by (unfold a; nra).
  assert (Haa : (a * a <= 1)%R) by nra.
  lra.
Qed.

Lemma quartic_R_border (n : Z) :
  2 <= n ->
  quartic_R n 0 =
    (15 / 16 * ((1 - 199 / 200 * (199 / 200))
                * (1 - 199 / 200 * (199 / 200))))%R /\
  quartic_R n (n - 1) =
    (15 / 16 * ((1 - 199 / 200 * (199 / 200))
                * (1 - 199 / 200 * (199 / 200))))%R.
Proof.
  intros Hn. assert (Hd : (0 < IZR (n - 1))%R) by (apply IZR_lt; lia).
  assert (H0 : quartic_u n 0 = (- (199 / 200))%R).
  { unfold quartic_u. field. lra. }
  assert (H1 : quartic_u n (n - 1) = (199 / 200)%R).
  { unfold quartic_u. field. lra. }
  unfold quartic_R. rewrite H0, H1. split; field.
Qed.

(** X5: for a region of latent extent at least 2 in both axes and a positive
    mask weight [mw], every entry of the quartic mask is a number [v] with
    [0 < v <= (15/16)^2 * mw], and the four corner entries all equal
    [(15/16 * (1 - 0.995^2)^2)^2 * mw], whatever the extents. *)
Theorem quartic_weights_bounds (self : MaskWeightsBuilder)
    (region : DiffusionRegion) (t : tensor) (mw : R) :
  _quartic_weights self region = Ok t ->
  mask_weight region = Fin mw -> (0 < mw)%R ->
  2 <= latent_height region -> 2 <= latent_width region ->
  let q := (15 / 16 * ((1 - 199 / 200 * (199 / 200))
                       * (1 - 199 / 200 * (199 / 200))))%R in
  (forall b c i j x, tget t b c i j = Some x ->
     exists v, x = Fin v /\ (0 < v <= 15 / 16 * (15 / 16) * mw)%R) /\
  (forall b c i j : nat,
     (b < Z.to_nat (nbatch self))%nat ->
     (c < Z.to_nat (latent_space_dim self))%nat ->
     Z.of_nat i = 0 \/ Z.of_nat i = latent_height region - 1 ->
     Z.of_nat j = 0 \/ Z.of_nat j = latent_width region - 1 ->
     tget t b c i j = Some (Fin (q * q * mw))).
Proof.
  intros Ht Hmw Hpos Hh Hw q. split.
  - intros b c i j x Hx.
    pose proof (builder_shape QUARTIC self region t Ht) as Hshape.
    destruct (tget_Some_lt _ _ _ _ _ _ _ _ _ _ Hshape Hx)
      as (Hb & Hc & Hi & Hj).
    rewrite (quartic_weights_entry self region t b c i j Ht) in Hx
      by (assumption || lia).
    injection Hx as <-. rewrite Hmw. simpl. eexists. split; [reflexivity|].
    pose proof (quartic_R_pos (latent_height region) (Z.of_nat i) Hh
                  ltac:(lia)).
    pose proof (quartic_R_pos (latent_width region) (Z.of_nat j) Hw
                  ltac:(lia)).
    pose proof (quartic_R_le_peak (latent_height region) (Z.of_nat i) Hh
                  ltac:(lia)).
    pose proof (quartic_R_le_peak (latent_width region) (Z.of_nat j) Hw
                  ltac:(lia)).
    split.
    + apply Rmult_lt_0_compat; [|exact Hpos].
      apply Rmult_lt_0_compat; assumption.
    + apply Rmult_le_compat_r; [lra|].
      apply Rmult_le_compat; lra.
  - intros b c i j Hb Hc Hi Hj.
    rewrite (quartic_weights_entry self region t b c i j Ht)
      by (assumption || lia).
    rewrite Hmw.
    destruct (quartic_R_border (latent_height region) Hh) as [Hh0 Hh1].
    destruct (quartic_R_border (latent_width region) Hw) as [Hw0 Hw1].
    destruct Hi as [-> | ->], Hj as [-> | ->];
      rewrite ?Hh0, ?Hh1, ?Hw0, ?Hw1; reflexivity.
Qed.

(** The quartic mask of the example region, at its last corner. *)
Lemma quartic_weights_bounds_witness :
  exists t,
    _quartic_weights example_builder (example_region "quartic") = Ok t /\
    exists v, tget t 0 3 2 3 = Some (Fin v) /\ (0 < v)%R.
Proof.
  eexists. split; [reflexivity|].
  destruct (quartic_weights_bounds example_builder (example_region "quartic")
              _ 1 eq_refl eq_refl ltac:(lra) ltac:(now vm_compute)
              ltac:(now vm_compute)) as [Hall _].
  destruct (Hall 0%nat 3%nat 2%nat 3%nat _ eq_refl) as (v & Hv & Hpos & _).
  exists v. split; [rewrite <- Hv; reflexivity | exact Hpos].
Defined.

(** ** [_downscale_latents] and [_upscale_latents] *)

Lemma stride_from_fmap {A B : Type} (f : A -> B) (k n : nat) (l : list A) :
  stride_from k n (f <$> l) = f <$> stride_from k n l.
Proof.
  revert k. induction l as [|x l IH]; intros k; simpl; [reflexivity|].
  destruct k as [|k]; simpl; rewrite IH; reflexivity.
Qed.

Lemma stride_from_lookup {A : Type} (n : nat) (l : list A) :
  (1 <= n)%nat ->
  forall k i : nat, stride_from k n l !! i = l !! (k + i * n)%nat.
Proof.
  intros Hn. induction l as [|x l IH]; intros k i; simpl; [reflexivity|].
  destruct k as [|k].
  - destruct i as [|i]; simpl; [reflexivity|].
    rewrite IH. destruct n as [|n]; [lia|]. simpl.
    f_equal. lia.
  - rewrite IH. reflexivity.
Qed.

Lemma stride_from_skip {A : Type} (n k : nat) (x : A) (l : list A) :
  stride_from k n (replicate k x ++ l) = stride_from 0 n l.
Proof. induction k as [|k IH]; simpl; [reflexivity | exact IH]. Qed.

Lemma stride_repeat_interleave {A : Type} (n : nat) (l : list A) :
  (1 <= n)%nat -> stride n (repeat_interleave n l) = l.
Proof.
  intros Hn. unfold stride. induction l as [|x l IH]; simpl; [reflexivity|].
  destruct n as [|n]; [lia|]. simpl.
  replace (n - 0)%nat with n by lia.
  rewrite stride_from_skip, IH. reflexivity.
Qed.

Lemma length_repeat_interleave {A : Type} (n : nat) (l : list A) :
  length (repeat_interleave n l) = (n * length l)%nat.
Proof.
  induction l as [|x l IH]; simpl; [lia|].
  rewrite length_app, length_replicate, IH. lia.
Qed.

Lemma repeat_interleave_lookup {A : Type} (n : nat) (l : list A) :
  (1 <= n)%nat ->
  forall i : nat, repeat_interleave n l !! i = l !! (i / n)%nat.
Proof.
  intros Hn. induction l as [|x l IH]; intros i; simpl; [reflexivity|].
  destruct (decide (i < n)%nat) as [Hlt|Hge].
  - rewrite lookup_app_l by (rewrite length_replicate; exact Hlt).
    rewrite lookup_replicate_2 by exact Hlt.
    rewrite Nat.div_small by exact Hlt. reflexivity.
  - rewrite lookup_app_r by (rewrite length_replicate; lia).
    rewrite length_replicate, IH.
    replace i with ((i - n) + 1 * n)%nat at 2 by lia.
    rewrite Nat.div_add by lia.
    replace ((i - n) / n + 1)%nat with (S ((i - n) / n)) by lia.
    reflexivity.
Qed.

(** X6: for a scaling factor of at least 1, [_upscale_latents] succeeds and
    [_downscale_latents] of its result, with the same factor, gives the
    latents back. *)
Theorem downscale_upscale_roundtrip (latents : tensor) (scaling_factor : Z) :
  1 <= scaling_factor ->
  exists up,
    _upscale_latents latents scaling_factor = Ok up /\
    _downscale_latents up scaling_factor = Ok latents.
Proof.
  intros Hs. unfold _upscale_latents, _downscale_latents.
  destruct (Z.ltb_spec scaling_factor 0); [lia|].
  destruct (Z.leb_spec scaling_factor 0); [lia|].
  eexists. split; [reflexivity|]. f_equal.
  assert (Hn : (1 <= Z.to_nat scaling_factor)%nat) by lia.
  set (n := Z.to_nat scaling_factor) in *.
  rewrite <- list_fmap_compose.
  rewrite <- (list_fmap_id latents) at 2. apply list_fmap_ext.
  intros _ tb _. simpl.
  rewrite <- list_fmap_compose.
  rewrite <- (list_fmap_id tb) at 2. apply list_fmap_ext.
  intros _ g _. simpl.
  unfold stride at 2. rewrite stride_from_fmap. fold (stride n (repeat_interleave n g)).
  rewrite stride_repeat_interleave by exact Hn.
  rewrite <- list_fmap_compose.
  rewrite <- (list_fmap_id g) at 2. apply list_fmap_ext.
  intros _ row _. simpl. apply stride_repeat_interleave. exact Hn.
Qed.

Lemma downscale_upscale_roundtrip_witness :
  exists up,
    _upscale_latents [[[[Fin 1; Fin 2]; [Fin 3; Fin 4]]]] 2 = Ok up /\
    _downscale_latents up 2 = Ok [[[[Fin 1; Fin 2]; [Fin 3; Fin 4]]]].
Proof.
  exact (downscale_upscale_roundtrip [[[[Fin 1; Fin 2]; [Fin 3; Fin 4]]]] 2
           ltac:(lia)).
Defined.

Lemma tensor_shape_fmap_grid (f : list (list fval) -> list (list fval))
    (nb nc h w h' w' : nat) (t : tensor) :
  (forall g, grid_shape h w g -> grid_shape h' w' (f g)) ->
  tensor_shape nb nc h w t ->
  tensor_shape nb nc h' w' (fmap (M:=list) (fmap (M:=list) f) t).
Proof.
  intros Hf [Hlen Hall]. split; [rewrite length_fmap; exact Hlen|].
  apply Forall_fmap. eapply Forall_impl; [exact Hall|].
  intros tb [Hl Hg]. simpl. split; [rewrite length_fmap; exact Hl|].
  apply Forall_fmap. eapply Forall_impl; [exact Hg|].
  intros g Hgs. exact (Hf g Hgs).
Qed.

(** X7: [_upscale_latents] raises exactly for a negative factor; for a
    factor [s >= 1] it multiplies the latent height and width by [s] and
    the entry at ([i], [j]) of the result is the entry at ([i / s],
    [j / s]) of the latents (each entry becomes an [s] by [s] block); for
    the factor 0 the result has no rows. *)
Theorem upscale_latents_blocks (latents : tensor) (scaling_factor : Z) :
  (_upscale_latents latents scaling_factor = Raise RuntimeError <->
     scaling_factor < 0) /\
  (forall up, _upscale_latents latents scaling_factor = Ok up ->
     (1 <= scaling_factor ->
      forall b c i j : nat,
        tget up b c i j =
          tget latents b c (i / Z.to_nat scaling_factor)
            (j / Z.to_nat scaling_factor)) /\
     (forall nb nc h w, tensor_shape nb nc h w latents ->
        tensor_shape nb nc (Z.to_nat scaling_factor * h)
          (Z.to_nat scaling_factor * w) up)).
Proof.
  unfold _upscale_latents. split.
  - destruct (Z.ltb_spec scaling_factor 0); split; intros; try done; lia.
  - intros up. destruct (Z.ltb_spec scaling_factor 0); [done|].
    intros [= <-]. set (n := Z.to_nat scaling_factor). split.
    + intros Hs b c i j. assert (Hn : (1 <= n)%nat) by (unfold n; lia).
      unfold tget. rewrite list_lookup_fmap.
      destruct (latents !! b) as [tb|]; simpl; [|reflexivity].
      rewrite list_lookup_fmap.
      destruct (tb !! c) as [g|]; simpl; [|reflexivity].
      rewrite list_lookup_fmap, repeat_interleave_lookup by exact Hn.
      destruct (g !! (i / n)%nat) as [row|]; simpl; [|reflexivity].
      apply repeat_interleave_lookup. exact Hn.
    + intros nb nc h w Hshape.
      apply (tensor_shape_fmap_grid _ nb nc h w); [|exact Hshape].
      intros g [Hl Hrows]. split.
      * rewrite length_fmap, length_repeat_interleave, Hl. reflexivity.
      * apply Forall_fmap. apply Forall_forall. intros row Hrow. simpl.
        rewrite length_repeat_interleave.
        assert (Hin : row ∈ g).
        { clear -Hrow. induction g as [|r g IH]; simpl in Hrow.
          - inversion Hrow.
          - apply elem_of_app in Hrow as [Hrow|Hrow].
            + apply elem_of_replicate in Hrow as [-> _]. left.
            + right. exact (IH Hrow). }
        rewrite Forall_forall in Hrows. rewrite (Hrows row Hin).
        reflexivity.
Qed.

(** X8: [_downscale_latents] raises exactly for a factor that is not
    positive; for a factor [s >= 1] the entry at ([i], [j]) of the result is
    the entry at ([i * s], [j * s]) of the latents, and with the factor 1
    the result is the latents themselves. *)
Theorem downscale_latents_picks (latents : tensor) (scaling_factor : Z) :
  (_downscale_latents latents scaling_factor = Raise ValueError <->
     scaling_factor <= 0) /\
  (forall down, _downscale_latents latents scaling_factor = Ok down ->
     (forall b c i j : nat,
        tget down b c i j =
          tget latents b c (i * Z.to_nat scaling_factor)
            (j * Z.to_nat scaling_factor)) /\
     (scaling_factor = 1 -> down = latents)).
Proof.
  unfold _downscale_latents. split.
  - destruct (Z.leb_spec scaling_factor 0); split; intros; try done; lia.
  - intros down. destruct (Z.leb_spec scaling_factor 0); [done|].
    intros [= <-]. set (n := Z.to_nat scaling_factor).
    assert (Hn : (1 <= n)%nat) by (unfold n; lia).
    assert (Hat : forall b c i j : nat,
              tget (fmap (M:=list) (fmap (M:=list)
                      (fun g => fmap (M:=list) (stride n) (stride n g)))
                      latents) b c i j =
              tget latents b c (i * n) (j * n)).
    { intros b c i j. unfold tget. rewrite list_lookup_fmap.
      destruct (latents !! b) as [tb|]; simpl; [|reflexivity].
      rewrite list_lookup_fmap.
      destruct (tb !! c) as [g|]; simpl; [|reflexivity].
      unfold stride. rewrite list_lookup_fmap, stride_from_lookup by exact Hn.
      simpl. destruct (g !! (i * n)%nat) as [row|]; simpl; [|reflexivity].
      rewrite stride_from_lookup by exact Hn. reflexivity. }
    split; [exact Hat|].
    intros Hone. assert (Hn1 : n = 1%nat) by (unfold n; lia).
    assert (Hid : forall (A : Type) (l : list A), stride 1 l = l).
    { intros A l. apply list_eq. intros i. unfold stride.
      rewrite stride_from_lookup by lia. f_equal. lia. }
    rewrite Hn1.
    rewrite <- (list_fmap_id latents) at 2. apply list_fmap_ext.
    intros _ tb _. simpl.
    rewrite <- (list_fmap_id tb) at 2. apply list_fmap_ext.
    intros _ g _. simpl. rewrite Hid.
    rewrite <- (list_fmap_id g) at 2. apply list_fmap_ext.
    intros _ row _. apply Hid.
Qed.

(** ** Classifier-free guidance *)

Section Guidance.

Variables tokens embedding : Type.
Variable unet : tensor -> Z -> option embedding -> tensor.
Variable scheduler : Scheduler.


End Guidance.


(** ** More on the injection *)

Lemma Int_part_le (x y : R) : (x <= y)%R -> Int_part x <= Int_part y.
Proof.
  intros Hxy. destruct (base_Int_part x) as [Hx _].
  destruct (base_Int_part y) as [_ Hy].
  assert (H : (IZR (Int_part x) < IZR (Int_part y + 1))%R)
    by (rewrite plus_IZR; lra).
  apply lt_IZR in H. lia.
Qed.

Lemma Int_part_IZR (z : Z) : Int_part (IZR z) = z.
Proof. symmetry. apply Int_part_spec. lra. Qed.

Section InfluenceStep.

Variable image : Type.

(** X10: for strengths [s1 <= s2] of [0, 1], a non-negative step count
    [n] and a non-negative offset, the last injection index bound of the
    weaker region is at most that of the stronger one, and both lie between
    [min(offset, n)] and [n]; the strength 0 gives exactly [min(offset, n)]
    (one injection, at index 0, when the scheduler takes an offset), and the
    strength 1 gives [n] (an injection at every step). *)
Theorem influence_step_monotone (n offset : Z)
    (region1 region2 : Image2ImageRegion image) (s1 s2 : R) :
  strength region1 = Fin s1 -> strength region2 = Fin s2 ->
  (0 <= s1 <= s2)%R -> (s2 <= 1)%R -> 0 <= n -> 0 <= offset ->
  exists k1 k2,
    influence_step image n offset region1 = Ok k1 /\
    influence_step image n offset region2 = Ok k2 /\
    Z.min offset n <= k1 /\ k1 <= k2 /\ k2 <= n /\
    (s1 = 0%R -> k1 = Z.min offset n) /\
    (s2 = 1%R -> k2 = n).
Proof.
  intros H1 H2 Hs Hs2 Hn Hoff.
  rewrite (influence_step_floor image n offset region1 s1 H1) by lra || lia.
  rewrite (influence_step_floor image n offset region2 s2 H2) by lra || lia.
  do 2 eexists. split; [reflexivity|]. split; [reflexivity|].
  assert (Hnr : (0 <= IZR n)%R) by (apply IZR_le; lia).
  assert (H0 : 0 <= Int_part (s1 * IZR n)).
  { rewrite <- (Int_part_IZR 0). apply Int_part_le.
    apply Rmult_le_pos; lra. }
  assert (Hle : Int_part (s1 * IZR n) <= Int_part (s2 * IZR n)).
  { apply Int_part_le. apply Rmult_le_compat_r; lra. }
  assert (Hup : Int_part (s2 * IZR n) <= n).
  { rewrite <- (Int_part_IZR n) at 2. apply Int_part_le.
    rewrite <- (Rmult_1_l (IZR n)) at 2. apply Rmult_le_compat_r; lra. }
  repeat split; try lia.
  - intros ->. rewrite Rmult_0_l, (Int_part_IZR 0). lia.
  - intros ->. rewrite Rmult_1_l, Int_part_IZR. lia.
Qed.

Variable resize : image -> Z -> Z -> result image.
Variable scheduler : Scheduler.

(** X11: a strength that is NaN passes both comparisons of the
    construction, so an [Image2ImageRegion] with it is built whenever the
    resize succeeds; at the first timestep [int(num_inference_steps *
    strength)] then raises, whatever the index and the store. *)
Theorem nan_strength_raises_in_loop (r0 r1 c0 c1 : Z) (mt : pyobj)
    (mw : fval) (im im' : image) :
  resize im (r1 - r0) (c1 - c0) = Ok im' ->
  exists region,
    Image2ImageRegion_init image resize r0 r1 c0 c1 mt mw (Some im) NaN =
      Ok region /\
    forall init_noise latents n offset i t st,
      inject image scheduler init_noise latents n offset i t st region =
        Raise ValueError.
Proof.
  intros Hres. unfold Image2ImageRegion_init.
  cbn [DiffusionRegion_init CanvasRegion_init bind fltb orb].
  unfold height, width. cbn [canvas_region row_init row_end col_init col_end].
  rewrite Hres. cbn [bind]. eexists. split; [reflexivity|].
  intros. reflexivity.
Qed.

End InfluenceStep.

Lemma influence_step_monotone_witness :
  exists k1 k2,
    influence_step unit 10 1 example_image_region = Ok k1 /\
    influence_step unit 10 1
      {| i2i_region := example_image_region; reference_image := tt;
         strength := Fin 1; reference_latents := None |} = Ok k2 /\
    k1 <= k2 /\ k2 = 10.
Proof.
  destruct (influence_step_monotone unit 10 1 example_image_region
              {| i2i_region := example_image_region; reference_image := tt;
                 strength := Fin 1; reference_latents := None |}
              (1 / 2) 1 eq_refl eq_refl ltac:(lra) ltac:(lra) ltac:(lia)
              ltac:(lia))
    as (k1 & k2 & Hk1 & Hk2 & _ & Hle & _ & _ & Hone).
  exists k1, k2. split; [exact Hk1|]. split; [exact Hk2|].
  split; [exact Hle | exact (Hone eq_refl)].
Defined.

Lemma nan_strength_raises_in_loop_witness :
  exists region,
    Image2ImageRegion_init unit (fun im _ _ => Ok im) 0 8 0 8
      (PyStr "constant") (Fin 1) (Some tt) NaN = Ok region /\
    inject unit example_scheduler 0%nat 1%nat 10 0 0 9 example_store region =
      Raise ValueError.
Proof.
  destruct (nan_strength_raises_in_loop unit (fun im _ _ => Ok im)
              example_scheduler 0 8 0 8 (PyStr "constant") (Fin 1) tt tt
              eq_refl) as (region & Hinit & Hraise).
  exists region. split; [exact Hinit | apply Hraise].
Defined.

(** ** More on the timestep loop *)

Section LoopFrame.

Variables tokens embedding image pil : Type.
Variable unet : tensor -> Z -> option embedding -> tensor.
Variable scheduler : Scheduler.
Variable decode_latents : tensor -> bool -> pil.

Variables init_noise : loc.
Variables num_inference_steps offset : Z.
Variable eta : fval.
Variables cpu_vae decode_steps : bool.
Variable text_regions : list (Text2ImageRegion tokens embedding).
Variable image_regions : list (Image2ImageRegion image).
Variable mask_weights : list tensor.

Let body :=
  timestep tokens embedding image pil unet scheduler decode_latents
    init_noise num_inference_steps offset eta cpu_vae decode_steps
    text_regions image_regions mask_weights.

Lemma inject_dom (latents : loc) (i t : Z) (st st' : gmap loc tensor)
    (region : Image2ImageRegion image) :
  inject image scheduler init_noise latents num_inference_steps offset i t
    st region = Ok st' ->
  forall l, l ∈ dom st -> l ∈ dom st'.
Proof.
  unfold inject.
  destruct (influence_step image num_inference_steps offset region)
    as [influence|err]; cbn [bind]; [|done].
  destruct (i <? influence); [|intros [= <-]; auto].
  destruct (reference_latents region) as [ref|]; [|done].
  destruct (region_setitem _ _ _ _) as [t'|err]; cbn [bind]; [|done].
  intros [= <-] l Hl. rewrite dom_insert. set_solver.
Qed.

Lemma foldM_inject_dom (latents : loc) (i t : Z)
    (regions : list (Image2ImageRegion image)) :
  forall st st' : gmap loc tensor,
  foldM (inject image scheduler init_noise latents num_inference_steps
           offset i t) regions st = Ok st' ->
  forall l, l ∈ dom st -> l ∈ dom st'.
Proof.
  induction regions as [|region regions IH]; intros st st'; cbn [foldM].
  - intros [= <-]. auto.
  - destruct (inject _ _ _ _ _ _ _ _ st region) as [st1|err] eqn:Hinj;
      cbn [bind]; [|done].
    intros Hfold l Hl. apply (IH st1 st' Hfold).
    exact (inject_dom latents i t st st1 region Hinj l Hl).
Qed.

Lemma timestep_frame (s s' : loop_state pil) (i : nat) (t : Z) :
  body s (i, t) = Ok s' ->
  (forall l, l ∈ dom (ls_store s) ->
     l ∈ dom (ls_store s') /\ l <> ls_latents s' /\
     (l <> ls_latents s -> ls_store s' !! l = ls_store s !! l)) /\
  ls_steps_images s' =
    (if decode_steps
     then ls_steps_images s ++
          [decode_latents (read (ls_store s') (ls_latents s')) cpu_vae]
     else ls_steps_images s).
Proof.
  unfold body, timestep. intros Hrun.
  destruct (foldM _ image_regions (ls_store s)) as [st1|err] eqn:Hinj;
    cbn [bind] in Hrun; [|done].
  destruct (mapM _ text_regions) as [preds|err] eqn:Hden;
    cbn [bind] in Hrun; [|done].
  destruct (merge_noise_preds _ _ preds mask_weights) as [noise_pred|err]
    eqn:Hmerge; cbn [bind] in Hrun; [|done].
  match type of Hrun with
  | context [alloc st1 ?x] =>
      destruct (alloc_fresh st1 x) as (Hfresh & Hnew & Hold);
      destruct (alloc st1 x) as [st2 l'] eqn:Halloc
  end.
  cbn [fst snd] in *. injection Hrun as <-.
  cbn [ls_store ls_latents ls_steps_images]. split.
  - intros l Hl.
    pose proof (foldM_inject_dom _ _ _ _ _ _ Hinj l Hl) as Hl1.
    split; [apply elem_of_dom; rewrite (Hold l Hl1);
            apply elem_of_dom; exact Hl1|].
    split; [intros ->; exact (Hfresh Hl1)|].
    intros Hne. rewrite (Hold l Hl1).
    exact (foldM_inject_frame _ _ _ _ _ _ _ _ _ _ _ Hinj l Hne).
  - rewrite (read_lookup st2 l' _ Hnew). reflexivity.
Qed.

(** X12: the timestep loop writes only to the latents object it starts
    with and to the objects it creates: every other tensor object of the
    store, [init_noise] among them, holds after the loop what it held
    before, and is not the final latents object. *)
Theorem loop_writes_only_latents (its : list (nat * Z)) :
  forall s s' : loop_state pil,
  foldM body its s = Ok s' ->
  forall l, l ∈ dom (ls_store s) -> l <> ls_latents s ->
    ls_store s' !! l = ls_store s !! l /\
    (its <> [] -> l <> ls_latents s').
Proof.
  induction its as [|[i t] its IH]; intros s s'; cbn [foldM].
  - intros [= <-] l Hl Hne. split; [reflexivity | congruence].
  - destruct (body s (i, t)) as [s1|err] eqn:Hstep; cbn [bind]; [|done].
    intros Hfold l Hl Hne.
    destruct (timestep_frame s s1 i t Hstep) as [Hframe _].
    destruct (Hframe l Hl) as (Hl1 & Hne1 & Hsame).
    destruct (IH s1 s' Hfold l Hl1 Hne1) as [Hrest Hlast].
    split; [rewrite Hrest; exact (Hsame Hne)|].
    intros _. destruct its as [|it its'].
    + cbn [foldM] in Hfold. injection Hfold as <-. exact Hne1.
    + apply Hlast. discriminate.
Qed.

(** X13: a run of the loop that captures the steps appends exactly one
    decoded image per timestep, in order; a run that does not capture them
    leaves the list of step images as it is. *)
Theorem loop_steps_images (its : list (nat * Z)) :
  forall s s' : loop_state pil,
  foldM body its s = Ok s' ->
  if decode_steps
  then exists images,
         ls_steps_images s' = ls_steps_images s ++ images /\
         length images = length its
  else ls_steps_images s' = ls_steps_images s.
Proof.
  induction its as [|[i t] its IH]; intros s s'; cbn [foldM].
  - intros [= <-]. destruct decode_steps; [|reflexivity].
    exists []. rewrite app_nil_r. split; reflexivity.
  - destruct (body s (i, t)) as [s1|err] eqn:Hstep; cbn [bind]; [|done].
    intros Hfold. destruct (timestep_frame s s1 i t Hstep) as [_ Himg].
    specialize (IH s1 s' Hfold). destruct decode_steps.
    + destruct IH as (images & Heq & Hlen). rewrite Himg in Heq.
      eexists. rewrite Heq, <- app_assoc. split; [reflexivity|].
      simpl. rewrite Hlen. reflexivity.
    + rewrite IH. exact Himg.
Qed.

End LoopFrame.

Lemma example_loop_runs :
  exists s',
    foldM (timestep unit unit unit (option fval) (fun x _ _ => x)
             example_scheduler example_decode 0%nat 10 0 (Fin 0) false true
             [] [] [])
      [(0%nat, 9); (1%nat, 8)] example_loop_state = Ok s'.
Proof. eexists. vm_compute. reflexivity. Qed.

(** Two timesteps without regions over [example_store]. *)
Lemma loop_writes_only_latents_witness :
  exists s',
    foldM (timestep unit unit unit (option fval) (fun x _ _ => x)
             example_scheduler example_decode 0%nat 10 0 (Fin 0) false true
             [] [] [])
      [(0%nat, 9); (1%nat, 8)] example_loop_state = Ok s' /\
    ls_store s' !! 0%nat = Some [[[[Fin 3]]]].
Proof.
  destruct example_loop_runs as [s' Hrun]. exists s'.
  split; [exact Hrun|].
  destruct (loop_writes_only_latents unit unit unit (option fval)
              (fun x _ _ => x) example_scheduler example_decode 0%nat 10 0
              (Fin 0) false true [] [] [] _ _ _ Hrun 0%nat) as [Hsame _].
  - vm_compute. set_solver.
  - discriminate.
  - exact (eq_trans Hsame eq_refl).
Defined.

Lemma loop_steps_images_witness :
  exists s',
    foldM (timestep unit unit unit (option fval) (fun x _ _ => x)
             example_scheduler example_decode 0%nat 10 0 (Fin 0) false true
             [] [] [])
      [(0%nat, 9); (1%nat, 8)] example_loop_state = Ok s' /\
    length (ls_steps_images s') = 2%nat.
Proof.
  destruct example_loop_runs as [s' Hrun]. exists s'.
  split; [exact Hrun|].
  destruct (loop_steps_images unit unit unit (option fval)
              (fun x _ _ => x) example_scheduler example_decode 0%nat 10 0
              (Fin 0) false true [] [] [] _ _ _ Hrun)
    as (images & Heq & Hlen).
  rewrite Heq. exact Hlen.
Defined.

(** ** More on the blend *)

Lemma tensor_map_const (v : fval) (nb nc h w : nat) (t : tensor) :
  tensor_shape nb nc h w t ->
  tensor_map (fun _ => v) t =
    replicate nb (replicate nc (replicate h (replicate w v))).
Proof.
  intros [Hlen Hall]. unfold tensor_map. rewrite <- Hlen.
  apply const_fmap. intros b tb Hb.
  destruct (Forall_lookup_1 _ _ _ _ Hall Hb) as [Hl Hgs]. rewrite <- Hl.
  apply const_fmap. intros c g Hg.
  destruct (Forall_lookup_1 _ _ _ _ Hgs Hg) as [Hlg Hrows]. rewrite <- Hlg.
  apply const_fmap. intros i row Hrow.
  pose proof (Forall_lookup_1 _ _ _ _ Hrows Hrow) as Hlr. simpl in Hlr.
  rewrite <- Hlr. apply const_fmap. intros. reflexivity.
Qed.

(** X14: the blend reads the shape of the latents and nothing else: for two
    latents tensors of one shape it gives the same outcome, a result or an
    exception, whatever the regions, predictions and masks. *)
Theorem merge_noise_preds_reads_shape_only (nb nc h w : nat)
    (latents1 latents2 : tensor) (regions : list CanvasRegion)
    (preds masks : list tensor) :
  tensor_shape nb nc h w latents1 -> tensor_shape nb nc h w latents2 ->
  merge_noise_preds latents1 regions preds masks =
    merge_noise_preds latents2 regions preds masks.
Proof.
  intros H1 H2. unfold merge_noise_preds.
  rewrite (tensor_map_const fzero nb nc h w latents1 H1).
  rewrite (tensor_map_const fzero nb nc h w latents2 H2). reflexivity.
Qed.

Lemma merge_noise_preds_reads_shape_only_witness :
  merge_noise_preds example_latents example_regions example_preds
    example_masks =
  merge_noise_preds [[[[Fin 5; Fin 6; Fin 7]]]] example_regions example_preds
    example_masks.
Proof.
  apply (merge_noise_preds_reads_shape_only 1 1 1 3); repeat constructor.
Defined.

Lemma sum_covering_bounds (P M : CanvasRegion * tensor * tensor -> R)
    (lo hi : R) (i j : nat)
    (entries : list (CanvasRegion * tensor * tensor)) :
  Forall (fun e => covers (fst (fst e)) i j ->
            (lo <= P e <= hi)%R /\ (0 < M e)%R) entries ->
  (lo * sum_covering M i j entries
   <= sum_covering (fun e => P e * M e)%R i j entries
   <= hi * sum_covering M i j entries)%R.
Proof.
  induction 1 as [|e entries He Hall IH]; simpl; [lra|].
  destruct (coversb (fst (fst e)) i j) eqn:Hcov; [|lra].
  apply coversb_covers in Hcov. destruct (He Hcov) as [[Hlo Hhi] Hm].
  assert (lo * M e <= P e * M e)%R by (apply Rmult_le_compat_r; lra).
  assert (P e * M e <= hi * M e)%R by (apply Rmult_le_compat_r; lra).
  lra.
Qed.

(** The blend at a covered position, for numeric predictions and positive
    masks: the weighted average. *)
Lemma merge_noise_preds_average_at (nb nc h w : nat) (latents : tensor)
    (regions : list CanvasRegion) (preds masks : list tensor)
    (out : tensor) (b c i j : nat) :
  tensor_shape nb nc h w latents ->
  length preds = length regions -> length masks = length regions ->
  Forall (entry_fits nb nc h w) (zip3 regions preds masks) ->
  Forall (fun e => tensor_finite (snd (fst e)) /\ tensor_positive (snd e))
    (zip3 regions preds masks) ->
  merge_noise_preds latents regions preds masks = Ok out ->
  (b < nb)%nat -> (c < nc)%nat -> (i < h)%nat -> (j < w)%nat ->
  Exists (fun r => covers r i j) regions ->
  Forall (fun e => covers (fst (fst e)) i j ->
            exists p m, pred_at e b c i j = Fin p /\
                        mask_at e b c i j = Fin m /\ (0 < m)%R)
    (zip3 regions preds masks) /\
  (0 < sum_covering (fun e => fin_value (mask_at e b c i j)) i j
         (zip3 regions preds masks))%R /\
  tget out b c i j =
    Some (Fin (sum_covering
                 (fun e => fin_value (pred_at e b c i j)
                           * fin_value (mask_at e b c i j))%R i j
                 (zip3 regions preds masks)
               / sum_covering (fun e => fin_value (mask_at e b c i j)) i j
                   (zip3 regions preds masks))).
Proof.
  intros Hl Hlp Hlm Hfit Hval Hrun Hb Hc Hi Hj Hcov.
  destruct (merge_noise_preds_at nb nc h w latents regions preds masks
              Hl Hfit) as (out' & Hrun' & _ & Hat).
  rewrite Hrun in Hrun'. injection Hrun' as <-.
  set (entries := zip3 regions preds masks) in *.
  assert (Hex : Exists (fun e => covers (fst (fst e)) i j) entries).
  { apply (Exists_zip3_regions (fun r => covers r i j)); assumption. }
  assert (Hpt : Forall (fun e => covers (fst (fst e)) i j ->
            exists p m, pred_at e b c i j = Fin p /\
                        mask_at e b c i j = Fin m /\ (0 < m)%R) entries).
  { apply Forall_forall. intros e He Hce.
    rewrite Forall_forall in Hfit. rewrite Forall_forall in Hval.
    destruct (Hval e He) as [Hfin Hpos].
    destruct (at_defined nb nc h w e b c i j (Hfit e He) Hce Hb Hc)
      as (p & m & Hp & Hm & -> & ->).
    destruct (Hpos _ _ _ _ _ Hm) as (mr & -> & Hmr).
    specialize (Hfin _ _ _ _ _ Hp). destruct p as [pr| |]; try destruct Hfin.
    exists pr, mr. auto. }
  assert (HM : (0 < sum_covering (fun e => fin_value (mask_at e b c i j))
                     i j entries)%R).
  { apply sum_covering_pos; [|exact Hex].
    eapply Forall_impl; [exact Hpt|]. intros e He Hce.
    destruct (He Hce) as (p & m & _ & Hm & Hpos). rewrite Hm. exact Hpos. }
  split; [exact Hpt|]. split; [exact HM|].
  rewrite (Hat b c i j Hb Hc Hi Hj).
  rewrite (accumulated_fin (fun e => mask_at e b c i j)).
  2:{ eapply Forall_impl; [exact Hpt|]. intros e He Hce.
      destruct (He Hce) as (p & m & _ & -> & _). exact I. }
  rewrite (accumulated_fin
             (fun e => fmul (pred_at e b c i j) (mask_at e b c i j))).
  2:{ eapply Forall_impl; [exact Hpt|]. intros e He Hce.
      destruct (He Hce) as (p & m & -> & -> & _). exact I. }
  rewrite (sum_covering_ext
             (fun e => fin_value
                         (fmul (pred_at e b c i j) (mask_at e b c i j)))
             (fun e => fin_value (pred_at e b c i j)
                       * fin_value (mask_at e b c i j))%R).
  2:{ eapply Forall_impl; [exact Hpt|]. intros e He Hce.
      destruct (He Hce) as (p & m & Hp & Hm & _).
      rewrite Hp, Hm. reflexivity. }
  rewrite fdiv_fin by lra. simpl. do 2 f_equal. f_equal; lra.
Qed.

(** X15: for regions within the canvas, numeric predictions and positive
    masks, the blended prediction at a covered latent position lies between
    any lower and any upper bound that the predictions of the covering
    regions all satisfy there; in particular, where all the covering regions
    predict the same value, that value is the blend. *)
Theorem merge_noise_preds_convex (nb nc h w : nat) (latents : tensor)
    (regions : list CanvasRegion) (preds masks : list tensor)
    (out : tensor) (b c i j : nat) (lo hi : R) :
  tensor_shape nb nc h w latents ->
  length preds = length regions -> length masks = length regions ->
  Forall (entry_fits nb nc h w) (zip3 regions preds masks) ->
  Forall (fun e => tensor_finite (snd (fst e)) /\ tensor_positive (snd e))
    (zip3 regions preds masks) ->
  merge_noise_preds latents regions preds masks = Ok out ->
  (b < nb)%nat -> (c < nc)%nat -> (i < h)%nat -> (j < w)%nat ->
  Exists (fun r => covers r i j) regions ->
  Forall (fun e => covers (fst (fst e)) i j ->
            (lo <= fin_value (pred_at e b c i j) <= hi)%R)
    (zip3 regions preds masks) ->
  exists v, tget out b c i j = Some (Fin v) /\ (lo <= v <= hi)%R /\
            (lo = hi -> v = lo).
Proof.
  intros Hl Hlp Hlm Hfit Hval Hrun Hb Hc Hi Hj Hcov Hrange.
  destruct (merge_noise_preds_average_at nb nc h w latents regions preds
              masks out b c i j Hl Hlp Hlm Hfit Hval Hrun Hb Hc Hi Hj Hcov)
    as (Hpt & HM & Hout).
  eexists. split; [exact Hout|].
  set (S := sum_covering (fun e => fin_value (mask_at e b c i j)) i j
              (zip3 regions preds masks)) in *.
  destruct (sum_covering_bounds
              (fun e => fin_value (pred_at e b c i j))
              (fun e => fin_value (mask_at e b c i j)) lo hi i j
              (zip3 regions preds masks)) as [Hlo Hhi].
  { apply Forall_forall. intros e He Hce.
    rewrite Forall_forall in Hrange. rewrite Forall_forall in Hpt.
    split; [exact (Hrange e He Hce)|].
    destruct (Hpt e He Hce) as (p & m & _ & -> & Hm). exact Hm. }
  fold S in Hlo, Hhi.
  assert (Hbounds : forall N : R, (lo * S <= N <= hi * S)%R ->
                                  (lo <= N / S <= hi)%R).
  { intros N [H1 H2]. split.
    - apply Rmult_le_reg_r with S; [exact HM|].
      unfold Rdiv. rewrite Rmult_assoc, Rinv_l by lra. lra.
    - apply Rmult_le_reg_r with S; [exact HM|].
      unfold Rdiv. rewrite Rmult_assoc, Rinv_l by lra. lra. }
  split; [apply Hbounds; split; assumption|].
  intros Heq. subst hi.
  destruct (Hbounds _ (conj Hlo Hhi)). lra.
Qed.

(** In the overlap of the example regions the predictions are 4 and 8. *)
Lemma merge_noise_preds_convex_witness :
  exists out v,
    merge_noise_preds example_latents example_regions example_preds
      example_masks = Ok out /\
    tget out 0 0 0 1 = Some (Fin v) /\ (4 <= v <= 8)%R.
Proof.
  destruct (merge_noise_preds_at 1 1 1 3 example_latents example_regions
              example_preds example_masks ltac:(repeat constructor)
              example_entries_fit) as (out & Hrun & _ & _).
  destruct (merge_noise_preds_convex 1 1 1 3 example_latents example_regions
              example_preds example_masks out 0 0 0 1 4 8
              ltac:(repeat constructor) eq_refl eq_refl example_entries_fit
              example_entries_valid Hrun ltac:(lia) ltac:(lia) ltac:(lia)
              ltac:(lia)) as (v & Hv & Hrange & _).
  - apply Exists_cons_hd. vm_compute. intuition congruence.
  - apply Forall_cons.
    split; [intros _; unfold pred_at, rel_get; simpl; lra|].
    apply Forall_cons.
    split; [intros _; unfold pred_at, rel_get; simpl; lra|].
    constructor.
  - exists out, v. split; [exact Hrun|]. split; [exact Hv | exact Hrange].
Defined.

Lemma accumulated_nan (term : CanvasRegion * tensor * tensor -> fval)
    (i j : nat) (entries : list (CanvasRegion * tensor * tensor)) :
  accumulated term i j entries NaN = NaN.
Proof.
  induction entries as [|e entries IH]; simpl; [reflexivity|].
  destruct (coversb (fst (fst e)) i j); exact IH.
Qed.

Lemma fadd_nan_r (x : fval) : fadd x NaN = NaN.
Proof. destruct x; reflexivity. Qed.

Lemma accumulated_nan_term (term : CanvasRegion * tensor * tensor -> fval)
    (i j : nat) (entries : list (CanvasRegion * tensor * tensor))
    (e : CanvasRegion * tensor * tensor) :
  e ∈ entries -> covers (fst (fst e)) i j -> term e = NaN ->
  forall a, accumulated term i j entries a = NaN.
Proof.
  intros He Hcov Hnan. induction entries as [|e' entries IH]; intros a.
  - inversion He.
  - simpl. apply elem_of_cons in He as [<-|He].
    + apply coversb_covers in Hcov. rewrite Hcov, Hnan, fadd_nan_r.
      apply accumulated_nan.
    + apply (IH He).
Qed.

Lemma quartic_degenerate_nan (self : MaskWeightsBuilder)
    (region : DiffusionRegion) (t : tensor) :
  _quartic_weights self region = Ok t ->
  latent_height region = 1 \/ latent_width region = 1 ->
  forall b c i j x, tget t b c i j = Some x -> x = NaN.
Proof.
  intros Ht Hone b c i j x Hx.
  pose proof (builder_shape QUARTIC self region t Ht) as Hshape.
  destruct (tget_Some_lt _ _ _ _ _ _ _ _ _ _ Hshape Hx)
    as (Hb & Hc & Hi & Hj).
  rewrite (quartic_weights_entry_raw self region t b c i j Ht) in Hx
    by (assumption || lia).
  injection Hx as <-. unfold latent_height, latent_width in *.
  destruct Hone as [Hone|Hone].
  - replace (latent_row_end region) with (latent_row_init region + 1) by lia.
    replace (latent_row_init region + Z.of_nat i)
      with (latent_row_init region) by lia.
    rewrite quartic_prob_nan. reflexivity.
  - replace (latent_col_end region) with (latent_col_init region + 1) by lia.
    replace (latent_col_init region + Z.of_nat j)
      with (latent_col_init region) by lia.
    rewrite quartic_prob_nan, fmul_nan_r. reflexivity.
Qed.

(** X16: a text region with a quartic mask of latent extent 1 in an axis
    silences the denoiser wherever it lies: at every latent position the
    region covers, the blended prediction is exactly zero, whatever the
    predictions and the masks of all the regions, the others that cover the
    position included. *)
Theorem quartic_extent_one_zeroes_blend (nb nc h w : nat) (latents : tensor)
    (regions : list CanvasRegion) (preds masks : list tensor)
    (self : MaskWeightsBuilder) (region : DiffusionRegion)
    (pred mask out : tensor) (b c i j : nat) :
  tensor_shape nb nc h w latents ->
  Forall (entry_fits nb nc h w) (zip3 regions preds masks) ->
  (canvas_region region, pred, mask) ∈ zip3 regions preds masks ->
  _quartic_weights self region = Ok mask ->
  latent_height region = 1 \/ latent_width region = 1 ->
  merge_noise_preds latents regions preds masks = Ok out ->
  (b < nb)%nat -> (c < nc)%nat -> (i < h)%nat -> (j < w)%nat ->
  covers region i j ->
  tget out b c i j = Some (Fin 0).
Proof.
  intros Hl Hfit Hin Hmask Hone Hrun Hb Hc Hi Hj Hcov.
  destruct (merge_noise_preds_at nb nc h w latents regions preds masks
              Hl Hfit) as (out' & Hrun' & _ & Hat).
  rewrite Hrun in Hrun'. injection Hrun' as <-.
  rewrite (Hat b c i j Hb Hc Hi Hj).
  set (e := (canvas_region region, pred, mask)) in *.
  assert (Hnan : mask_at e b c i j = NaN).
  { rewrite Forall_forall in Hfit.
    destruct (at_defined nb nc h w e b c i j (Hfit e Hin) Hcov Hb Hc)
      as (p & m & _ & Hm & _ & ->).
    exact (quartic_degenerate_nan self region mask Hmask Hone _ _ _ _ _ Hm). }
  rewrite (accumulated_nan_term _ i j _ e Hin Hcov)
    by (rewrite Hnan; apply fmul_nan_r).
  rewrite (accumulated_nan_term _ i j _ e Hin Hcov Hnan).
  reflexivity.
Qed.

(** A quartic mask over a canvas of one latent position. *)
Lemma quartic_extent_one_zeroes_blend_witness :
  exists mask out,
    _quartic_weights (mkMaskWeightsBuilder 1 1)
      (mkDiffusionRegion (mkCanvasRegion 0 8 0 8 0 1 0 1) (PyStr "quartic")
         (Fin 1)) = Ok mask /\
    merge_noise_preds [[[[Fin 0]]]] [mkCanvasRegion 0 8 0 8 0 1 0 1]
      [[[[[Fin 5]]]]] [mask] = Ok out /\
    tget out 0 0 0 0 = Some (Fin 0).
Proof.
  set (region := mkDiffusionRegion (mkCanvasRegion 0 8 0 8 0 1 0 1)
                   (PyStr "quartic") (Fin 1)).
  assert (Hm : exists mask,
            _quartic_weights (mkMaskWeightsBuilder 1 1) region = Ok mask)
    by (eexists; reflexivity).
  destruct Hm as [mask Hm].
  pose proof (builder_shape QUARTIC _ region mask Hm) as Hshape.
  assert (Hfit : Forall (entry_fits 1 1 1 1)
            (zip3 [mkCanvasRegion 0 8 0 8 0 1 0 1] [[[[[Fin 5]]]]] [mask])).
  { apply Forall_cons. split; [|constructor].
    split; [vm_compute; intuition congruence|].
    split; [repeat constructor | exact Hshape]. }
  destruct (merge_noise_preds_at 1 1 1 1 [[[[Fin 0]]]]
              [mkCanvasRegion 0 8 0 8 0 1 0 1] [[[[[Fin 5]]]]] [mask]
              ltac:(repeat constructor) Hfit) as (out & Hrun & _ & _).
  exists mask, out. split; [exact Hm|]. split; [exact Hrun|].
  apply (quartic_extent_one_zeroes_blend 1 1 1 1 [[[[Fin 0]]]]
           [mkCanvasRegion 0 8 0 8 0 1 0 1] [[[[[Fin 5]]]]] [mask]
           (mkMaskWeightsBuilder 1 1) region [[[[Fin 5]]]] mask out);
    try lia; try assumption.
  - repeat constructor.
  - apply list_elem_of_here.
  - left. reflexivity.
  - vm_compute. intuition congruence.
Defined.

Lemma accumulated_zero_weight_num (b c i j : nat)
    (entries : list (CanvasRegion * tensor * tensor)) :
  Forall (fun e => covers (fst (fst e)) i j -> mask_at e b c i j = Fin 0)
    entries ->
  forall a, a = Fin 0 \/ a = NaN ->
  accumulated (fun e => fmul (pred_at e b c i j) (mask_at e b c i j))
    i j entries a = Fin 0 \/
  accumulated (fun e => fmul (pred_at e b c i j) (mask_at e b c i j))
    i j entries a = NaN.
Proof.
  induction 1 as [|e entries He Hall IH]; intros a Ha; simpl; [exact Ha|].
  apply IH. destruct (coversb (fst (fst e)) i j) eqn:Hcov; [|exact Ha].
  apply coversb_covers in Hcov. rewrite (He Hcov).
  assert (H0 : Reqb 0 0 = true) by (apply Reqb_true; reflexivity).
  destruct Ha as [-> | ->]; [|right; reflexivity].
  destruct (pred_at e b c i j) as [r|p|]; simpl.
  - left. f_equal. lra.
  - rewrite H0. right. reflexivity.
  - right. reflexivity.
Qed.

Lemma accumulated_zero_weight_den (b c i j : nat)
    (entries : list (CanvasRegion * tensor * tensor)) :
  Forall (fun e => covers (fst (fst e)) i j -> mask_at e b c i j = Fin 0)
    entries ->
  accumulated (fun e => mask_at e b c i j) i j entries (Fin 0) = Fin 0.
Proof.
  intros Hall. rewrite accumulated_fin.
  - f_equal. rewrite (sum_covering_ext _ (fun _ => 0%R)).
    + assert (Hsum : sum_covering (fun _ => 0%R) i j entries = 0%R).
      { clear Hall. induction entries as [|e entries IH]; simpl;
          [reflexivity|].
        rewrite IH. destruct (coversb (fst (fst e)) i j); lra. }
      rewrite Hsum. lra.
    + eapply Forall_impl; [exact Hall|]. intros e He Hce.
      rewrite (He Hce). reflexivity.
  - eapply Forall_impl; [exact Hall|]. intros e He Hce.
    rewrite (He Hce). exact I.
Qed.

(** X17: at a latent position where every covering region has the mask
    weight 0, the blended prediction is exactly zero, whatever the
    predictions are: such a position is treated like an uncovered one. *)
Theorem zero_weights_give_zero (nb nc h w : nat) (latents : tensor)
    (regions : list CanvasRegion) (preds masks : list tensor)
    (out : tensor) (b c i j : nat) :
  tensor_shape nb nc h w latents ->
  Forall (entry_fits nb nc h w) (zip3 regions preds masks) ->
  merge_noise_preds latents regions preds masks = Ok out ->
  (b < nb)%nat -> (c < nc)%nat -> (i < h)%nat -> (j < w)%nat ->
  Forall (fun e => covers (fst (fst e)) i j -> mask_at e b c i j = Fin 0)
    (zip3 regions preds masks) ->
  tget out b c i j = Some (Fin 0).
Proof.
  intros Hl Hfit Hrun Hb Hc Hi Hj Hzero.
  destruct (merge_noise_preds_at nb nc h w latents regions preds masks
              Hl Hfit) as (out' & Hrun' & _ & Hat).
  rewrite Hrun in Hrun'. injection Hrun' as <-.
  rewrite (Hat b c i j Hb Hc Hi Hj).
  rewrite (accumulated_zero_weight_den b c i j _ Hzero).
  assert (H0 : Reqb 0 0 = true) by (apply Reqb_true; reflexivity).
  destruct (accumulated_zero_weight_num b c i j _ Hzero (Fin 0)
              (or_introl eq_refl)) as [-> | ->]; simpl; rewrite ?H0;
    reflexivity.
Qed.

(** One region with the mask weight 0 and the prediction 5. *)
Lemma zero_weights_give_zero_witness :
  exists out,
    merge_noise_preds [[[[Fin 0]]]] [mkCanvasRegion 0 8 0 8 0 1 0 1]
      [[[[[Fin 5]]]]] [[[[[Fin 0]]]]] = Ok out /\
    tget out 0 0 0 0 = Some (Fin 0).
Proof.
  assert (Hfit : Forall (entry_fits 1 1 1 1)
            (zip3 [mkCanvasRegion 0 8 0 8 0 1 0 1] [[[[[Fin 5]]]]]
               [[[[[Fin 0]]]]])).
  { repeat constructor; vm_compute; congruence. }
  destruct (merge_noise_preds_at 1 1 1 1 [[[[Fin 0]]]]
              [mkCanvasRegion 0 8 0 8 0 1 0 1] [[[[[Fin 5]]]]]
              [[[[[Fin 0]]]]] ltac:(repeat constructor) Hfit)
    as (out & Hrun & _ & _).
  exists out. split; [exact Hrun|].
  apply (zero_weights_give_zero 1 1 1 1 [[[[Fin 0]]]]
           [mkCanvasRegion 0 8 0 8 0 1 0 1] [[[[[Fin 5]]]]]
           [[[[[Fin 0]]]]] out); try lia; try assumption.
  - repeat constructor.
  - constructor; [intros _; reflexivity | constructor].
Defined.

(** ** The whole call *)

Lemma mapM_Forall2 {A B : Type} (f : A -> result B) (l : list A)
    (r : list B) :
  mapM f l = Ok r -> Forall2 (fun a b => f a = Ok b) l r.
Proof.
  revert r. induction l as [|a l IH]; intros r; simpl.
  - intros [= <-]. constructor.
  - destruct (f a) as [b|e] eqn:Hf; simpl; [|done].
    destruct (mapM f l) as [bs|e]; simpl; [|done].
    intros [= <-]. constructor; [exact Hf | apply IH; reflexivity].
Qed.

Lemma mapM_total {A B : Type} (f : A -> result B) (l : list A) :
  (forall a, a ∈ l -> is_ok (f a)) -> is_ok (mapM f l).
Proof.
  induction l as [|a l IH]; intros Hf; simpl; [exact I|].
  pose proof (Hf a ltac:(left)) as Ha.
  destruct (f a) as [b|e]; [|destruct Ha]. simpl.
  assert (Hl : is_ok (mapM f l)) by (apply IH; intros; apply Hf; right; auto).
  destruct (mapM f l); [exact I | destruct Hl].
Qed.

Lemma mapM_raises {A B : Type} (f : A -> result B) (l : list A) (a : A) :
  a ∈ l -> ~ is_ok (f a) -> ~ is_ok (mapM f l).
Proof.
  intros Ha Hf. induction l as [|x l IH]; [inversion Ha|]. simpl.
  apply elem_of_cons in Ha as [<-|Ha].
  - destruct (f a); [destruct (Hf I) | simpl; auto].
  - destruct (f x); simpl; [|auto].
    destruct (mapM f l); simpl; [|auto]. exact (IH Ha).
Qed.

Section Call.

Variables tokens embedding image pil : Type.
Variable tokenizer : string -> tokens.
Variable uncond_tokens : tokens -> tokens.
Variable text_encoder : tokens -> embedding.
Variable cat_embeddings : embedding -> embedding -> embedding.
Variable vae_encode_sample : image -> tensor.
Variable in_channels : Z.
Variable unet : tensor -> Z -> option embedding -> tensor.
Variable scheduler : Scheduler.
Variable decode_latents : tensor -> bool -> pil.
Variable randn_values : Z -> nat -> nat -> nat -> nat -> tensor.

Let prepare :=
  prepare_text_region tokens embedding tokenizer uncond_tokens text_encoder
    cat_embeddings.

Let run :=
  call tokens embedding image pil tokenizer uncond_tokens text_encoder
    cat_embeddings vae_encode_sample in_channels unet scheduler
    decode_latents randn_values.

(** X18: the preparation of a text region always succeeds, keeps the
    geometry, the mask and the prompt, and stores the tokenized prompt and
    the concatenation of the unconditional with the conditional embeddings;
    preparing an already prepared region again gives the same region, so
    the embeddings do not pile up when region objects are reused. *)
Theorem prepare_text_region_idempotent
    (r : Text2ImageRegion tokens embedding) :
  exists r',
    prepare r = Ok r' /\ prepare r' = Ok r' /\
    t2i_region r' = t2i_region r /\ prompt r' = prompt r /\
    guidance_scale r' = guidance_scale r /\
    tokenized_prompt r' = Some (tokenizer (prompt r)) /\
    encoded_prompt r' =
      Some (cat_embeddings
              (text_encoder (uncond_tokens (tokenizer (prompt r))))
              (text_encoder (tokenizer (prompt r)))).
Proof.
  destruct r as [d p g df tk e]. eexists.
  split; [reflexivity|]. repeat split; reflexivity.
Qed.

Lemma prepare_keeps_region (r r' : Text2ImageRegion tokens embedding) :
  prepare r = Ok r' -> t2i_region r' = t2i_region r.
Proof.
  destruct (prepare_text_region_idempotent r) as (r0 & Hr & _ & Hreg & _).
  rewrite Hr. intros [= <-]. exact Hreg.
Qed.

Lemma text2image_regions_filter
    (regions : list (region_obj tokens embedding image)) :
  text2image_regions tokens embedding image
    (filter (fun r => is_diffuser r = true) regions) =
  text2image_regions tokens embedding image regions.
Proof.
  unfold text2image_regions.
  induction regions as [|r regions IH]; [reflexivity|].
  rewrite filter_cons.
  destruct r; simpl; try case_decide; try done; simpl;
    first [exact IH | f_equal; exact IH].
Qed.

Lemma image2image_regions_filter
    (regions : list (region_obj tokens embedding image)) :
  image2image_regions tokens embedding image
    (filter (fun r => is_diffuser r = true) regions) =
  image2image_regions tokens embedding image regions.
Proof.
  unfold image2image_regions.
  induction regions as [|r regions IH]; [reflexivity|].
  rewrite filter_cons.
  destruct r; simpl; try case_decide; try done; simpl;
    first [exact IH | f_equal; exact IH].
Qed.

(** X19: region objects that are neither a [Text2ImageRegion] nor an
    [Image2ImageRegion] are ignored: a call gives the same outcome with them
    as without them. *)
Theorem call_ignores_other_regions (canvas_height canvas_width : Z)
    (regions : list (region_obj tokens embedding image))
    (num_inference_steps : Z) (eta : fval) (seed : Z)
    (seed_reroll_regions : list (CanvasRegion * Z))
    (cpu_vae decode_steps : bool) :
  run canvas_height canvas_width regions num_inference_steps eta seed
    seed_reroll_regions cpu_vae decode_steps =
  run canvas_height canvas_width
    (filter (fun r => is_diffuser r = true) regions)
    num_inference_steps eta seed seed_reroll_regions cpu_vae decode_steps.
Proof.
  unfold run, call.
  rewrite text2image_regions_filter, image2image_regions_filter.
  reflexivity.
Qed.

(** X20: when some text region of the call carries a member of [MaskModes]
    as its [mask_type], the call does not return: whatever the other
    arguments, it ends in an exception before the first timestep. *)
Theorem call_with_enum_mask_type_raises (canvas_height canvas_width : Z)
    (regions : list (region_obj tokens embedding image))
    (num_inference_steps : Z) (eta : fval) (seed : Z)
    (seed_reroll_regions : list (CanvasRegion * Z))
    (cpu_vae decode_steps : bool)
    (r : Text2ImageRegion tokens embedding) (m : MaskModes) :
  RText tokens embedding image r ∈ regions ->
  mask_type r = PyEnum m ->
  ~ is_ok (run canvas_height canvas_width regions num_inference_steps eta
             seed seed_reroll_regions cpu_vae decode_steps).
Proof.
  intros Hin Hmask. unfold run, call.
  destruct (seed_latents _ _ _ _ _ _ _) as [[[st init_noise] latents]|err];
    cbn [bind]; [|auto].
  destruct (if is_lms scheduler then _ else _) as [st' latents'].
  destruct (mapM _ (text2image_regions tokens embedding image regions))
    as [text_regions|err] eqn:Hprep; cbn [bind]; [|auto].
  destruct (mapM _ (image2image_regions tokens embedding image regions))
    as [image_regions|err]; cbn [bind]; [|auto].
  assert (Hr : r ∈ text2image_regions tokens embedding image regions).
  { unfold text2image_regions. apply list_elem_of_omap.
    exists (RText tokens embedding image r). split; [exact Hin | reflexivity]. }
  apply mapM_Forall2 in Hprep.
  apply list_elem_of_lookup in Hr as [k Hk].
  destruct (Forall2_lookup_l _ _ _ _ _ Hprep Hk) as (r' & Hk' & Hr').
  assert (Hraise : ~ is_ok
            (mapM (fun r0 : Text2ImageRegion tokens embedding =>
                     compute_mask_weights
                       {| latent_space_dim := in_channels;
                          nbatch := batch_size |} r0) text_regions)).
  { apply (mapM_raises _ _ r').
    - apply list_elem_of_lookup. eauto.
    - unfold compute_mask_weights.
      rewrite (prepare_keeps_region r r' Hr'), Hmask. simpl. auto. }
  destruct (mapM _ text_regions) as [mask_weights|err]; cbn [bind];
    [destruct (Hraise I) | auto].
Qed.

End Call.

(** A call with one text region whose mask type is [MaskModes.GAUSSIAN]. *)
Lemma call_with_enum_mask_type_raises_witness :
  ~ is_ok
      (call unit unit unit (option fval) (fun _ => tt) (fun _ => tt)
         (fun _ => tt) (fun _ _ => tt) (fun _ => []) 1 (fun x _ _ => x)
         example_scheduler example_decode constant_randn 8 8
         [RText unit unit unit
            (mkText2ImageRegion unit unit
               (mkDiffusionRegion (mkCanvasRegion 0 8 0 8 0 1 0 1)
                  (PyEnum GAUSSIAN) (Fin 1))
               "a prompt" (Fin (15 / 2)) 1 None None)]
         10 (Fin 0) 0 [] false false).
Proof.
  apply (call_with_enum_mask_type_raises unit unit unit (option fval)
           (fun _ => tt) (fun _ => tt) (fun _ => tt) (fun _ _ => tt)
           (fun _ => []) 1 (fun x _ _ => x) example_scheduler example_decode
           constant_randn 8 8 _ 10 (Fin 0) 0 [] false false
           (mkText2ImageRegion unit unit
              (mkDiffusionRegion (mkCanvasRegion 0 8 0 8 0 1 0 1)
                 (PyEnum GAUSSIAN) (Fin 1))
              "a prompt" (Fin (15 / 2)) 1 None None) GAUSSIAN).
  - apply list_elem_of_here.
  - reflexivity.
Defined.
